(** * SecureText messenger: mesh session protocol and envelope cryptography

    A shallow embedding of [services/cryptoService.ts],
    [services/socketService.ts], [services/apiService.ts] and of the
    sealing / opening code of [App.tsx], with the properties of the design
    document stated over it, followed by further properties of the same
    code.

    JavaScript strings are sequences of UTF-16 code units; byte buffers
    ([ArrayBuffer], [Uint8Array]) are sequences of octets.  Both are
    modelled as [list N]. *)

From Stdlib Require Import NArith ZArith QArith Qminmax Qpower Lqa Lia List Ascii String Bool.
From stdpp Require Import base gmap list strings.
Import ListNotations.

Local Open Scope N_scope.

(* ===================================================================== *)
(** ** JavaScript strings *)
(* ===================================================================== *)

Definition jsstring := list N.
Definition bytes := list N.

(** A string literal of the source, as code units. *)
Definition js (s : string) : jsstring :=
  map (fun a => N_of_ascii a) (list_ascii_of_string s).

(** ECMAScript [WhiteSpace] and [LineTerminator] code points: the set
    that [String.prototype.trim] strips. *)
Definition isWhiteSpace (c : N) : bool :=
  existsb (N.eqb c)
    [9; 10; 11; 12; 13; 32; 160; 5760; 8232; 8233; 8239; 8287; 12288; 65279]
  || ((8192 <=? c) && (c <=? 8202)).

Fixpoint trimStart (s : jsstring) : jsstring :=
  match s with
  | [] => []
  | c :: s' => if isWhiteSpace c then trimStart s' else s
  end.

Definition trimEnd (s : jsstring) : jsstring := rev (trimStart (rev s)).

(** [s.trim()] *)
Definition trim (s : jsstring) : jsstring := trimEnd (trimStart s).

Definition all_white (s : jsstring) : bool := forallb isWhiteSpace s.

(** ASCII letters are lower-cased by adding 32. *)
Definition ascii_lower (c : N) : N :=
  if (65 <=? c) && (c <=? 90) then c + 32 else c.

Definition is_ascii (s : jsstring) : bool := forallb (fun c => c <? 128) s.

(** [String.prototype.toLowerCase] follows the Unicode case tables, which
    are not part of the repository.  It is taken as an interface with the
    three facts the session code relies on. *)
Class CaseMapping := {
  toLowerCase : jsstring -> jsstring;
  (** on ASCII text it is the ASCII mapping *)
  toLowerCase_ascii : forall s, is_ascii s = true -> toLowerCase s = map ascii_lower s;
  (** lower-cased text is stable *)
  toLowerCase_idem : forall s, toLowerCase (toLowerCase s) = toLowerCase s;
  (** case mapping neither creates nor removes white space at the ends *)
  toLowerCase_trimmed : forall s, trim s = s -> trim (toLowerCase s) = toLowerCase s
}.

(** The ASCII-only case mapping, an executable instance of the interface. *)
Definition ascii_toLowerCase (s : jsstring) : jsstring := map ascii_lower s.

Lemma trimStart_app_white a s :
  all_white a = true -> trimStart (a ++ s) = trimStart s.
Proof.
  induction a as [|c a IH]; simpl; [done|].
  intros H. apply andb_prop in H as [Hc Ha]. rewrite Hc. auto.
Qed.

Lemma trimStart_all_white s : all_white s = true -> trimStart s = [].
Proof.
  intros H. rewrite <- (app_nil_r s). rewrite trimStart_app_white; auto.
Qed.

Lemma trimStart_head s :
  trimStart s = [] \/ exists c t, trimStart s = c :: t /\ isWhiteSpace c = false.
Proof.
  induction s as [|c s IH]; simpl; [by left|].
  destruct (isWhiteSpace c) eqn:E; [exact IH|].
  right. by exists c, s.
Qed.

Lemma trimStart_nil_white s : trimStart s = [] -> all_white s = true.
Proof.
  induction s as [|c s IH]; simpl; [done|].
  destruct (isWhiteSpace c); [auto | discriminate].
Qed.

Lemma trimStart_idem s : trimStart (trimStart s) = trimStart s.
Proof.
  destruct (trimStart_head s) as [-> | (c & t & -> & Hc)]; [done|].
  simpl. by rewrite Hc.
Qed.

Lemma trimStart_cons_app c t b :
  isWhiteSpace c = false -> trimStart ((c :: t) ++ b) = (c :: t) ++ b.
Proof. intros H. simpl. by rewrite H. Qed.

Lemma all_white_rev s : all_white (rev s) = all_white s.
Proof.
  unfold all_white. induction s as [|c s IH]; simpl; [done|].
  rewrite forallb_app, IH. simpl. rewrite andb_true_r. apply andb_comm.
Qed.

Lemma trimEnd_app_white s b :
  all_white b = true -> trimEnd (s ++ b) = trimEnd s.
Proof.
  intros H. unfold trimEnd. rewrite rev_app_distr.
  rewrite trimStart_app_white; [done|]. by rewrite all_white_rev.
Qed.

Lemma trimEnd_all_white s : all_white s = true -> trimEnd s = [].
Proof.
  intros H. unfold trimEnd. rewrite trimStart_all_white; [done|].
  by rewrite all_white_rev.
Qed.

Lemma trimEnd_idem s : trimEnd (trimEnd s) = trimEnd s.
Proof.
  unfold trimEnd. rewrite rev_involutive. by rewrite trimStart_idem.
Qed.

Lemma trimStart_snoc r c :
  isWhiteSpace c = false -> exists u, trimStart (r ++ [c]) = u ++ [c].
Proof.
  intros Hc. induction r as [|x r IH]; simpl.
  - rewrite Hc. by exists [].
  - destruct (isWhiteSpace x); [exact IH|]. by exists (x :: r).
Qed.

(** What [trimEnd] keeps still starts with the same code unit. *)
Lemma trimEnd_cons c t :
  isWhiteSpace c = false -> exists t', trimEnd (c :: t) = c :: t'.
Proof.
  intros Hc. unfold trimEnd. simpl.
  destruct (trimStart_snoc (rev t) c Hc) as [u ->].
  rewrite rev_app_distr. simpl. eauto.
Qed.

Lemma trimStart_trimEnd s : trimStart (trimEnd (trimStart s)) = trimEnd (trimStart s).
Proof.
  destruct (trimStart_head s) as [-> | (c & t & -> & Hc)]; [done|].
  destruct (trimEnd_cons c t Hc) as [t' ->]. simpl. by rewrite Hc.
Qed.

Lemma trim_idem s : trim (trim s) = trim s.
Proof.
  unfold trim. rewrite trimStart_trimEnd. apply trimEnd_idem.
Qed.

Lemma trim_pad a s b :
  all_white a = true -> all_white b = true -> trim (a ++ s ++ b) = trim s.
Proof.
  intros Ha Hb. unfold trim. rewrite trimStart_app_white by done.
  destruct (trimStart_head s) as [E | (c & t & E & Hc)].
  - rewrite E. apply trimStart_nil_white in E.
    rewrite trimStart_all_white; [done|].
    unfold all_white in *. rewrite forallb_app. by rewrite E, Hb.
  - assert (trimStart (s ++ b) = trimStart s ++ b) as ->.
    { clear Ha. revert E. induction s as [|x s IH]; simpl; [done|].
      destruct (isWhiteSpace x); [exact IH | done]. }
    by apply trimEnd_app_white.
Qed.

Lemma ascii_lower_idem c : ascii_lower (ascii_lower c) = ascii_lower c.
Proof.
  unfold ascii_lower.
  destruct ((65 <=? c) && (c <=? 90)) eqn:E; [|by rewrite E].
  apply andb_prop in E as [H1 H2].
  apply N.leb_le in H1, H2.
  destruct (N.leb_spec (c + 32) 90); [lia|]. by rewrite andb_false_r.
Qed.

Lemma isWhiteSpace_ascii_lower c : isWhiteSpace (ascii_lower c) = isWhiteSpace c.
Proof.
  unfold ascii_lower.
  destruct ((65 <=? c) && (c <=? 90)) eqn:E; [|done].
  apply andb_prop in E as [H1 H2].
  apply N.leb_le in H1, H2.
  unfold isWhiteSpace; simpl.
  repeat match goal with
         | |- context [N.eqb ?a ?b] => destruct (N.eqb_spec a b); [lia|]
         end.
  destruct (N.leb_spec 8192 (c + 32)); [lia|].
  destruct (N.leb_spec 8192 c); [lia|]. done.
Qed.

Lemma trimStart_map_lower s :
  trimStart (map ascii_lower s) = map ascii_lower (trimStart s).
Proof.
  induction s as [|c s IH]; simpl; [done|].
  rewrite isWhiteSpace_ascii_lower. by destruct (isWhiteSpace c).
Qed.

Lemma trim_map_lower s : trim (map ascii_lower s) = map ascii_lower (trim s).
Proof.
  unfold trim, trimEnd.
  rewrite trimStart_map_lower, <- map_rev, trimStart_map_lower, map_rev.
  done.
Qed.

#[export] Program Instance AsciiCase : CaseMapping :=
  {| toLowerCase := ascii_toLowerCase |}.
Next Obligation. done. Qed.
Next Obligation.
  intros s. unfold ascii_toLowerCase. rewrite map_map.
  apply map_ext. apply ascii_lower_idem.
Qed.
Next Obligation.
  intros s H. unfold ascii_toLowerCase. rewrite trim_map_lower. by rewrite H.
Qed.

(* ===================================================================== *)
(** ** Peer identity mapping *)
(* ===================================================================== *)

Section NodeId.
Context `{CaseMapping}.

(** The username normalisation of the routing code: [u.trim().toLowerCase()]. *)
Definition normalize (username : jsstring) : jsstring :=
  toLowerCase (trim username).

(** [`ST-${u.trim().toLowerCase()}`]: the expression by which [init]
    (local id), [connectToPeer] and [send] (target id) derive a node id. *)
Definition toNodeId (username : jsstring) : jsstring :=
  js "ST-" ++ toLowerCase (trim username).

(** [`ST-${data.username.toLowerCase()}`]: the expression by which the
    [data] handler of [setupConnection] derives the key under which it
    re-registers a connection on an identity-exchange record. *)
Definition rekeyId (username : jsstring) : jsstring :=
  js "ST-" ++ toLowerCase username.

Lemma normalize_idem u : normalize (normalize u) = normalize u.
Proof.
  unfold normalize.
  rewrite (toLowerCase_trimmed (trim u)) by apply trim_idem.
  apply toLowerCase_idem.
Qed.

(** Deriving the id of an already normalised username changes nothing. *)
Lemma toNodeId_normalize u : toNodeId (normalize u) = toNodeId u.
Proof.
  unfold toNodeId. f_equal. apply normalize_idem.
Qed.

(** White space around a username does not reach the node id. *)
Lemma toNodeId_pad a u b :
  all_white a = true -> all_white b = true -> toNodeId (a ++ u ++ b) = toNodeId u.
Proof. intros Ha Hb. unfold toNodeId. by rewrite trim_pad. Qed.

(** ASCII usernames that differ only in letter case share a node id. *)
Lemma toNodeId_case u v :
  is_ascii u = true -> is_ascii v = true ->
  map ascii_lower u = map ascii_lower v -> toNodeId u = toNodeId v.
Proof.
  intros Hu Hv E. unfold toNodeId. f_equal.
  assert (Ht : forall s, is_ascii s = true -> is_ascii (trim s) = true).
  { intros s Hs. unfold is_ascii in *. rewrite forallb_forall in *.
    intros x Hx. apply Hs. unfold trim, trimEnd in Hx.
    apply in_rev in Hx.
    assert (Hsub : forall l y, In y (trimStart l) -> In y l).
    { induction l as [|c l IH]; simpl; [done|].
      intros y. destruct (isWhiteSpace c); [auto | simpl; auto]. }
    apply Hsub, in_rev, Hsub in Hx. done. }
  rewrite !toLowerCase_ascii by auto.
  rewrite <- !trim_map_lower. by rewrite E.
Qed.

(** The example of the design document. *)
Lemma toNodeId_Alice : toNodeId (js "Alice") = toNodeId (js " alice ").
Proof.
  change (js " alice ") with (js " " ++ js "alice" ++ js " ").
  rewrite toNodeId_pad by reflexivity.
  apply toNodeId_case; reflexivity.
Qed.

Lemma toNodeId_Alice_value : toNodeId (js " alice ") = js "ST-alice".
Proof.
  unfold toNodeId. change (trim (js " alice ")) with (js "alice").
  rewrite toLowerCase_ascii; reflexivity.
Qed.

(** On a username without surrounding white space the re-keying expression
    agrees with [toNodeId]. *)
Lemma rekeyId_trimmed u : trim u = u -> rekeyId u = toNodeId u.
Proof. intros E. unfold rekeyId, toNodeId. by rewrite E. Qed.

(** It does not trim: white space of the username stays in the key. *)
Lemma rekeyId_untrimmed : rekeyId (js " alice ") = js "ST- alice ".
Proof. unfold rekeyId. rewrite toLowerCase_ascii; reflexivity. Qed.

End NodeId.

(* ===================================================================== *)
(** ** Wire records ([types.ts]) *)
(* ===================================================================== *)

Record User := {
  uid : jsstring;
  username : jsstring;
  publicKey : jsstring
}.

Record EncryptedMessage := {
  mid : jsstring;
  senderId : jsstring;
  recipientId : jsstring;
  isGroup : bool;
  encryptedContent : jsstring;
  encryptedSessionKey : jsstring;
  iv : jsstring;
  hmac : jsstring;
  timestamp : N
}.

Inductive ProtocolMessage :=
| CHAT (data : EncryptedMessage)
| IDENTITY_EXCHANGE (pk : jsstring) (uname : jsstring).

#[export] Instance EncryptedMessage_eq_dec : EqDecision EncryptedMessage.
Proof. solve_decision. Defined.

#[export] Instance ProtocolMessage_eq_dec : EqDecision ProtocolMessage.
Proof. solve_decision. Defined.

(* ===================================================================== *)
(** ** The mesh session manager ([SocketService]) *)
(* ===================================================================== *)

(** The [onReady] argument of [init]: a callback of the application, or
    the empty arrow function that the reconnect timer passes. *)
Inductive Callback := AppCallback (n : nat) | EmptyCallback.

(** A PeerJS [DataConnection] object.  [conn_setup] records that
    [setupConnection] installed its [open], [data], [close] and [error]
    listeners; [conn_on_open] holds the payloads captured by the [open]
    listeners that [send] adds, in registration order. *)
Record DataConnection := {
  conn_peer : jsstring;
  conn_open : bool;
  conn_setup : bool;
  conn_on_open : list ProtocolMessage
}.

(** A PeerJS [Peer] object, with the [onReady] callback captured by the
    listeners that [createPeer] installed on it. *)
Record PeerObj := {
  peer_id : jsstring;
  peer_destroyed : bool;
  peer_disconnected : bool;
  peer_onReady : Callback
}.

(** What the service does to the outside: calls into the transport, the
    timer queue and the registered callbacks. *)
Inductive Effect :=
| NewPeer (id : jsstring)
| PeerConnect (target : jsstring) (c : nat)
| PeerConnectThrew (target : jsstring)
| PeerReconnect
| PeerDestroy
| ConnSend (c : nat) (m : ProtocolMessage)
| ConnSendThrew (c : nat) (m : ProtocolMessage)
| ConnClose (c : nat)
| CallHandler (h : nat) (m : ProtocolMessage)
| CallErrorHandler (h : nat) (errorType msg : jsstring)
| CallOnReady (cb : Callback) (id : jsstring)
| SetTimeout (t : nat) (delay : Q)
| ClearTimeout (t : nat).

(** The fields of [class SocketService]. *)
Record SocketService := {
  peer : option PeerObj;
  connections : gmap jsstring nat;
  handlers : list nat;
  errorHandlers : list nat;
  myId : jsstring;
  myUser : option User;
  isOnline : bool;
  reconnectDelay : Q;
  reconnectTimeout : option nat;
  isDestroyed : bool
}.

Definition maxReconnectDelay : Q := 30000.

(** The service together with what it shares with the runtime: the
    connection objects (by reference), the pending timeouts, the outcome
    of each fallible transport call ([throws n]: the [n]-th call of
    [conn.send] or [peer.connect] throws) and the effects so far. *)
Record World := {
  svc : SocketService;
  heap : list DataConnection;
  timers : list (nat * Q);
  next_timer : nat;
  throws : nat -> bool;
  calls : nat;
  trace : list Effect
}.

(** [new SocketService()] in a fresh runtime. *)
Definition new_service : SocketService :=
  {| peer := None; connections := ∅; handlers := []; errorHandlers := [];
     myId := []; myUser := None; isOnline := false;
     reconnectDelay := 1000; reconnectTimeout := None; isDestroyed := false |}.

Definition new_world (oracle : nat -> bool) : World :=
  {| svc := new_service; heap := []; timers := []; next_timer := 1%nat;
     throws := oracle; calls := 0%nat; trace := [] |}.

(** *** Field updates *)

Definition with_svc (f : SocketService -> SocketService) (w : World) : World :=
  {| svc := f (svc w); heap := heap w; timers := timers w;
     next_timer := next_timer w; throws := throws w; calls := calls w;
     trace := trace w |}.

Definition with_heap (f : list DataConnection -> list DataConnection) (w : World) : World :=
  {| svc := svc w; heap := f (heap w); timers := timers w;
     next_timer := next_timer w; throws := throws w; calls := calls w;
     trace := trace w |}.

Definition with_timers (f : list (nat * Q) -> list (nat * Q)) (w : World) : World :=
  {| svc := svc w; heap := heap w; timers := f (timers w);
     next_timer := next_timer w; throws := throws w; calls := calls w;
     trace := trace w |}.

Definition emit (es : list Effect) (w : World) : World :=
  {| svc := svc w; heap := heap w; timers := timers w;
     next_timer := next_timer w; throws := throws w; calls := calls w;
     trace := trace w ++ es |}.

(** One fallible transport call: its outcome, and the world after it. *)
Definition transport_call (w : World) : bool * World :=
  (throws w (calls w),
   {| svc := svc w; heap := heap w; timers := timers w;
      next_timer := next_timer w; throws := throws w; calls := S (calls w);
      trace := trace w |}).

Definition set_peer (p : option PeerObj) (s : SocketService) : SocketService :=
  {| peer := p; connections := connections s; handlers := handlers s;
     errorHandlers := errorHandlers s; myId := myId s; myUser := myUser s;
     isOnline := isOnline s; reconnectDelay := reconnectDelay s;
     reconnectTimeout := reconnectTimeout s; isDestroyed := isDestroyed s |}.

Definition set_connections (m : gmap jsstring nat) (s : SocketService) : SocketService :=
  {| peer := peer s; connections := m; handlers := handlers s;
     errorHandlers := errorHandlers s; myId := myId s; myUser := myUser s;
     isOnline := isOnline s; reconnectDelay := reconnectDelay s;
     reconnectTimeout := reconnectTimeout s; isDestroyed := isDestroyed s |}.

Definition set_handlers (l : list nat) (s : SocketService) : SocketService :=
  {| peer := peer s; connections := connections s; handlers := l;
     errorHandlers := errorHandlers s; myId := myId s; myUser := myUser s;
     isOnline := isOnline s; reconnectDelay := reconnectDelay s;
     reconnectTimeout := reconnectTimeout s; isDestroyed := isDestroyed s |}.

Definition set_errorHandlers (l : list nat) (s : SocketService) : SocketService :=
  {| peer := peer s; connections := connections s; handlers := handlers s;
     errorHandlers := l; myId := myId s; myUser := myUser s;
     isOnline := isOnline s; reconnectDelay := reconnectDelay s;
     reconnectTimeout := reconnectTimeout s; isDestroyed := isDestroyed s |}.

Definition set_identity (i : jsstring) (u : User) (s : SocketService) : SocketService :=
  {| peer := peer s; connections := connections s; handlers := handlers s;
     errorHandlers := errorHandlers s; myId := i; myUser := Some u;
     isOnline := isOnline s; reconnectDelay := reconnectDelay s;
     reconnectTimeout := reconnectTimeout s; isDestroyed := isDestroyed s |}.

Definition set_isOnline (b : bool) (s : SocketService) : SocketService :=
  {| peer := peer s; connections := connections s; handlers := handlers s;
     errorHandlers := errorHandlers s; myId := myId s; myUser := myUser s;
     isOnline := b; reconnectDelay := reconnectDelay s;
     reconnectTimeout := reconnectTimeout s; isDestroyed := isDestroyed s |}.

Definition set_reconnectDelay (d : Q) (s : SocketService) : SocketService :=
  {| peer := peer s; connections := connections s; handlers := handlers s;
     errorHandlers := errorHandlers s; myId := myId s; myUser := myUser s;
     isOnline := isOnline s; reconnectDelay := d;
     reconnectTimeout := reconnectTimeout s; isDestroyed := isDestroyed s |}.

Definition set_reconnectTimeout (t : option nat) (s : SocketService) : SocketService :=
  {| peer := peer s; connections := connections s; handlers := handlers s;
     errorHandlers := errorHandlers s; myId := myId s; myUser := myUser s;
     isOnline := isOnline s; reconnectDelay := reconnectDelay s;
     reconnectTimeout := t; isDestroyed := isDestroyed s |}.

Definition set_isDestroyed (b : bool) (s : SocketService) : SocketService :=
  {| peer := peer s; connections := connections s; handlers := handlers s;
     errorHandlers := errorHandlers s; myId := myId s; myUser := myUser s;
     isOnline := isOnline s; reconnectDelay := reconnectDelay s;
     reconnectTimeout := reconnectTimeout s; isDestroyed := b |}.

Definition set_conn_open (b : bool) (c : DataConnection) : DataConnection :=
  {| conn_peer := conn_peer c; conn_open := b; conn_setup := conn_setup c;
     conn_on_open := conn_on_open c |}.

Definition set_conn_setup (c : DataConnection) : DataConnection :=
  {| conn_peer := conn_peer c; conn_open := conn_open c; conn_setup := true;
     conn_on_open := conn_on_open c |}.

Definition add_conn_on_open (m : ProtocolMessage) (c : DataConnection) : DataConnection :=
  {| conn_peer := conn_peer c; conn_open := conn_open c; conn_setup := conn_setup c;
     conn_on_open := conn_on_open c ++ [m] |}.

(** A connection object fresh from the transport: not yet open, no
    listener of the service on it. *)
Definition new_connection (remote : jsstring) : DataConnection :=
  {| conn_peer := remote; conn_open := false; conn_setup := false;
     conn_on_open := [] |}.

(** [conn.open] of the object behind a reference. *)
Definition is_open (w : World) (c : nat) : bool :=
  match heap w !! c with Some o => conn_open o | None => false end.

Section Session.
Context `{CaseMapping}.

(** [this.errorHandlers.forEach(h => h(errorType, msg))] *)
Definition forEachError (errorType msg : jsstring) (w : World) : World :=
  emit (map (fun h => CallErrorHandler h errorType msg) (errorHandlers (svc w))) w.

(** [this.handlers.forEach(h => h(data))] *)
Definition forEachHandler (m : ProtocolMessage) (w : World) : World :=
  emit (map (fun h => CallHandler h m) (handlers (svc w))) w.

Definition registry_set (k : jsstring) (c : nat) (w : World) : World :=
  with_svc (fun s => set_connections (<[k := c]> (connections s)) s) w.

Definition registry_delete (k : jsstring) (w : World) : World :=
  with_svc (fun s => set_connections (delete k (connections s)) s) w.

(** [this.peer && !this.peer.destroyed] *)
Definition peer_alive (s : SocketService) : bool :=
  match peer s with
  | Some p => negb (peer_destroyed p)
  | None => false
  end.

Definition createPeer (onReady : Callback) (w : World) : World :=
  let p := {| peer_id := myId (svc w); peer_destroyed := false;
              peer_disconnected := false; peer_onReady := onReady |} in
  emit [NewPeer (myId (svc w))] (with_svc (set_peer (Some p)) w).

Definition init (user : User) (onReady : Callback) (w : World) : World :=
  if peer_alive (svc w) then w
  else
    createPeer onReady
      (with_svc (fun s => set_identity (toNodeId (username user))
                            user (set_isDestroyed false s)) w).

Definition handleReconnect (w : World) : World :=
  match reconnectTimeout (svc w) with
  | Some _ => w
  | None =>
      let t := next_timer w in
      let d := reconnectDelay (svc w) in
      {| svc := set_reconnectTimeout (Some t) (svc w);
         heap := heap w;
         timers := timers w ++ [(t, d)];
         next_timer := S t;
         throws := throws w;
         calls := calls w;
         trace := trace w ++ [SetTimeout t d] |}
  end.

Definition set_peer_disconnected (b : bool) (p : PeerObj) : PeerObj :=
  {| peer_id := peer_id p; peer_destroyed := peer_destroyed p;
     peer_disconnected := b; peer_onReady := peer_onReady p |}.

Definition set_peer_flags (destroyed disconnected : bool) (p : PeerObj) : PeerObj :=
  {| peer_id := peer_id p; peer_destroyed := destroyed;
     peer_disconnected := disconnected; peer_onReady := peer_onReady p |}.

(** The arrow function that [handleReconnect] hands to [setTimeout]. *)
Definition reconnect_attempt (w : World) : World :=
  let again (w : World) :=
    match myUser (svc w) with
    | Some u => init u EmptyCallback w
    | None => w
    end in
  let w1 :=
    match peer (svc w) with
    | Some p =>
        if peer_disconnected p && negb (peer_destroyed p) then
          emit [PeerReconnect]
            (with_svc (set_peer (Some (set_peer_disconnected false p))) w)
        else if peer_destroyed p then again w
        else w
    | None => again w
    end in
  with_svc (fun s =>
    set_reconnectDelay (Qmin (reconnectDelay s * 1.5) maxReconnectDelay)
      (set_reconnectTimeout None s)) w1.

Definition timer_pending (t : nat) (w : World) : bool :=
  existsb (fun e => Nat.eqb (fst e) t) (timers w).

Definition remove_timer (t : nat) (l : list (nat * Q)) : list (nat * Q) :=
  List.filter (fun e => negb (Nat.eqb (fst e) t)) l.

(** The runtime fires a pending timeout. *)
Definition fire_timer (t : nat) (w : World) : World :=
  if timer_pending t w then reconnect_attempt (with_timers (remove_timer t) w)
  else w.

Definition setupConnection (c : nat) (w : World) : World :=
  match heap w !! c with
  | None => w
  | Some conn =>
      match connections (svc w) !! conn_peer conn with
      | Some existing =>
          if is_open w existing then w
          else with_heap (<[c := set_conn_setup conn]>) w
      | None => with_heap (<[c := set_conn_setup conn]>) w
      end
  end.

(** [conn.send(m)]: [true] when the call threw. *)
Definition conn_send (c : nat) (m : ProtocolMessage) (w : World) : bool * World :=
  let (threw, w') := transport_call w in
  (threw, emit [if threw then ConnSendThrew c m else ConnSend c m] w').

(** [this.peer.connect(target, ...)]: the reference of the new connection
    object, or [None] when the call threw. *)
Definition peer_connect (target : jsstring) (w : World) : option nat * World :=
  match peer (svc w) with
  | None => (None, emit [PeerConnectThrew target] w)
  | Some _ =>
      let (threw, w') := transport_call w in
      if threw then (None, emit [PeerConnectThrew target] w')
      else
        let c := length (heap w') in
        (Some c, emit [PeerConnect target c]
                   (with_heap (fun h => h ++ [new_connection target]) w'))
  end.

(** The [open] listeners that [send] added, run in order; a throwing
    listener ends the dispatch. *)
Fixpoint run_on_open (c : nat) (ms : list ProtocolMessage) (w : World) : World :=
  match ms with
  | [] => w
  | m :: ms' =>
      let (threw, w') := conn_send c m w in
      if threw then w' else run_on_open c ms' w'
  end.

(** The transport signals [open] on a connection. *)
Definition on_conn_open (c : nat) (w : World) : World :=
  match heap w !! c with
  | None => w
  | Some conn =>
      let w0 := with_heap (<[c := set_conn_open true conn]>) w in
      let '(threw, w1) :=
        if conn_setup conn then
          match myUser (svc w0) with
          | Some u =>
              let (threw, w') :=
                conn_send c (IDENTITY_EXCHANGE (publicKey u) (username u)) w0 in
              if threw then (true, w')
              else (false, registry_set (conn_peer conn) c w')
          | None => (false, registry_set (conn_peer conn) c w0)
          end
        else (false, w0) in
      if threw then w1 else run_on_open c (conn_on_open conn) w1
  end.

(** The transport delivers a record on a connection. *)
Definition on_conn_data (c : nat) (m : ProtocolMessage) (w : World) : World :=
  match heap w !! c with
  | None => w
  | Some conn =>
      if conn_setup conn then
        let w1 :=
          match m with
          | IDENTITY_EXCHANGE _ uname =>
              registry_set (rekeyId uname) c w
          | CHAT _ => w
          end in
        forEachHandler m w1
      else w
  end.

(** [cleanup], the [close] and [error] listener of a connection. *)
Definition cleanup (c : nat) (w : World) : World :=
  match heap w !! c with
  | None => w
  | Some conn =>
      if conn_setup conn then registry_delete (conn_peer conn) w else w
  end.

(** The transport signals [close]: the object is no longer open. *)
Definition on_conn_close (c : nat) (w : World) : World :=
  match heap w !! c with
  | None => w
  | Some conn => cleanup c (with_heap (<[c := set_conn_open false conn]>) w)
  end.

Definition on_conn_error (c : nat) (w : World) : World := cleanup c w.

Definition connectToPeer (targetUsername : jsstring) (w : World) : World :=
  let peerId := toNodeId targetUsername in
  if decide (peerId = myId (svc w)) then w
  else
    let existing_open :=
      match connections (svc w) !! peerId with
      | Some existing => is_open w existing
      | None => false
      end in
    if existing_open then w
    else if negb (peer_alive (svc w)) || negb (isOnline (svc w)) then
      forEachError (js "offline")
        (js "Cannot connect: Node is currently offline from mesh.") w
    else
      match peer_connect peerId w with
      | (Some conn, w') => setupConnection conn w'
      | (None, w') =>
          forEachError (js "connect-fail")
            (js "Initialization of P2P channel failed.") w'
      end.

(** [send]; the recursive call of the source consumes one unit of fuel. *)
Fixpoint send (fuel : nat) (message : EncryptedMessage) (w : World) : option World :=
  match fuel with
  | O => None
  | S fuel' =>
      if negb (isOnline (svc w)) then
        Some (forEachError (js "transport") (js "Signal dropped: Node is offline.") w)
      else
        let payload := CHAT message in
        let targetPeerId := toNodeId (recipientId message) in
        let usable :=
          match connections (svc w) !! targetPeerId with
          | Some conn => if is_open w conn then Some conn else None
          | None => None
          end in
        match usable with
        | None =>
            match peer_connect targetPeerId w with
            | (Some conn, w') =>
                Some (with_heap (fun h =>
                        match h !! conn with
                        | Some o => <[conn := add_conn_on_open payload o]> h
                        | None => h
                        end) (setupConnection conn w'))
            | (None, w') =>
                Some (forEachError (js "send-fail")
                        (js "Could not reach node " ++ recipientId message) w')
            end
        | Some conn =>
            let (threw, w') := conn_send conn payload w in
            if threw then
              send fuel' message
                (forEachError (js "send-fail") (js "Transmission failed. Retrying...")
                   (registry_delete targetPeerId w'))
            else Some w'
        end
  end.

(** [s.replace(pat, '')]: the first occurrence of [pat] is removed. *)
Fixpoint remove_first (pat s : jsstring) : jsstring :=
  if decide (take (length pat) s = pat) then drop (length pat) s
  else match s with
       | [] => []
       | c :: s' => c :: remove_first pat s'
       end.

(** The [error] listener of the peer. *)
Definition on_peer_error (errorType message : jsstring) (w : World) : World :=
  if decide (errorType = js "peer-unavailable") then
    forEachError errorType
      (js "Node " ++ remove_first (js "ST-") message
         ++ js " is currently offline or unreachable.")
      (registry_delete message w)
  else if decide (errorType = js "webrtc") then
    forEachError errorType
      (js "P2P Handshake failed. This is likely due to a restrictive firewall or symmetric NAT. Try a different network.")
      w
  else if decide (errorType = js "network") then
    forEachError errorType (js "Peer server connection lost. Retrying...")
      (handleReconnect w)
  else if decide (errorType = js "unavailable-id") then
    forEachError errorType
      (js "This Node ID is already active on the mesh. Is another session open?")
      w
  else
    forEachError errorType
      (js "Protocol Error: " ++ errorType ++ js " - " ++ message) w.

(** The [open] listener of the peer. *)
Definition on_peer_open (id : jsstring) (w : World) : World :=
  match peer (svc w) with
  | None => w
  | Some p =>
      emit [CallOnReady (peer_onReady p) id]
        (with_svc (fun s => set_reconnectDelay 1000 (set_isOnline true s)) w)
  end.

(** The [connection] listener of the peer: an inbound connection object. *)
Definition on_peer_connection (remote : jsstring) (w : World) : World :=
  match peer (svc w) with
  | None => w
  | Some _ =>
      setupConnection (length (heap w))
        (with_heap (fun h => h ++ [new_connection remote]) w)
  end.

(** The [disconnected] listener of the peer. *)
Definition on_peer_disconnected (w : World) : World :=
  match peer (svc w) with
  | None => w
  | Some p =>
      handleReconnect
        (with_svc (fun s => set_isOnline false
                              (set_peer (Some (set_peer_disconnected true p)) s)) w)
  end.

(** The [close] listener of the peer. *)
Definition on_peer_close (w : World) : World :=
  match peer (svc w) with
  | None => w
  | Some p =>
      let w1 := with_svc (fun s => set_isOnline false
                                     (set_peer (Some (set_peer_flags true true p)) s)) w in
      if negb (isDestroyed (svc w1)) then handleReconnect w1 else w1
  end.

Definition close_connection (h : list DataConnection) (c : nat) : list DataConnection :=
  match h !! c with
  | Some o => <[c := set_conn_open false o]> h
  | None => h
  end.

Definition destroy (w : World) : World :=
  let w1 := with_svc (set_isDestroyed true) w in
  let w2 :=
    match reconnectTimeout (svc w1) with
    | Some t => emit [ClearTimeout t] (with_timers (remove_timer t) w1)
    | None => w1
    end in
  let cs := map snd (map_to_list (connections (svc w2))) in
  let w3 := emit (map ConnClose cs) (with_heap (fun h => foldl close_connection h cs) w2) in
  let w4 := with_svc (set_connections ∅) w3 in
  let w5 :=
    match peer (svc w4) with
    | Some p =>
        emit [PeerDestroy]
          (with_svc (set_peer (Some (set_peer_flags true true p))) w4)
    | None => w4
    end in
  with_svc (set_isOnline false) w5.

(** [Set.prototype.add] and [delete] on the handler sets. *)
Definition set_add (h : nat) (l : list nat) : list nat :=
  if existsb (Nat.eqb h) l then l else l ++ [h].

Definition set_delete (h : nat) (l : list nat) : list nat :=
  List.filter (fun x => negb (Nat.eqb x h)) l.

Definition onMessage (h : nat) (w : World) : World :=
  with_svc (fun s => set_handlers (set_add h (handlers s)) s) w.

Definition onError (h : nat) (w : World) : World :=
  with_svc (fun s => set_errorHandlers (set_add h (errorHandlers s)) s) w.

(** *** Events

    Everything that can happen to the service: a call of its public
    methods, a signal of the transport on the peer or on a connection,
    a timeout firing.  [PeerState] lets the transport change the flags of
    the peer object on its own. *)
Inductive Event :=
| Init (user : User) (onReady : nat)
| ConnectToPeer (targetUsername : jsstring)
| Send (message : EncryptedMessage)
| Destroy
| OnMessage (h : nat)
| OffMessage (h : nat)
| OnError (h : nat)
| OffError (h : nat)
| PeerOpen (id : jsstring)
| PeerConnection (remote : jsstring)
| PeerError (errorType message : jsstring)
| PeerDisconnected
| PeerClose
| PeerState (destroyed disconnected : bool)
| ConnOpen (c : nat)
| ConnData (c : nat) (m : ProtocolMessage)
| ConnClosed (c : nat)
| ConnError (c : nat)
| TimerFire (t : nat).

Definition step (e : Event) (w : World) : World :=
  match e with
  | Init user cb => init user (AppCallback cb) w
  | ConnectToPeer u => connectToPeer u w
  | Send m => match send 2 m w with Some w' => w' | None => w end
  | Destroy => destroy w
  | OnMessage h => onMessage h w
  | OffMessage h => with_svc (fun s => set_handlers (set_delete h (handlers s)) s) w
  | OnError h => onError h w
  | OffError h =>
      with_svc (fun s => set_errorHandlers (set_delete h (errorHandlers s)) s) w
  | PeerOpen id => on_peer_open id w
  | PeerConnection remote => on_peer_connection remote w
  | PeerError ty msg => on_peer_error ty msg w
  | PeerDisconnected => on_peer_disconnected w
  | PeerClose => on_peer_close w
  | PeerState d dc =>
      match peer (svc w) with
      | Some p => with_svc (set_peer (Some (set_peer_flags d dc p))) w
      | None => w
      end
  | ConnOpen c => on_conn_open c w
  | ConnData c m => on_conn_data c m w
  | ConnClosed c => on_conn_close c w
  | ConnError c => on_conn_error c w
  | TimerFire t => fire_timer t w
  end.

Definition run (es : list Event) (w : World) : World :=
  fold_left (fun w e => step e w) es w.

(** States that the service reaches from a fresh one. *)
Definition reachable (w : World) : Prop :=
  exists oracle es, w = run es (new_world oracle).

(* --------------------------------------------------------------------- *)
(** *** The reconnect state is touched in three places only *)
(* --------------------------------------------------------------------- *)

(** The pending timeouts of the runtime, the handle the service keeps and
    the current delay. *)
Definition recon (w : World) : list (nat * Q) * option nat * Q :=
  (timers w, reconnectTimeout (svc w), reconnectDelay (svc w)).

Ltac crunch :=
  repeat first
    [ progress (cbn [svc heap timers next_timer throws calls trace
                     peer connections handlers errorHandlers myId myUser isOnline
                     reconnectDelay reconnectTimeout isDestroyed
                     with_svc with_heap with_timers emit transport_call
                     set_peer set_connections set_handlers set_errorHandlers
                     set_identity set_isOnline set_reconnectDelay
                     set_reconnectTimeout set_isDestroyed fst snd] in * )
    | case_match
    | done ].

Arguments conn_send : simpl never.
Arguments peer_connect : simpl never.
Arguments setupConnection : simpl never.
Arguments forEachError : simpl never.
Arguments forEachHandler : simpl never.
Arguments registry_set : simpl never.
Arguments registry_delete : simpl never.
Arguments handleReconnect : simpl never.
Arguments init : simpl never.

Lemma recon_init user cb w : recon (init user cb w) = recon w.
Proof. unfold recon, init, createPeer. crunch. Qed.

Lemma recon_setupConnection c w : recon (setupConnection c w) = recon w.
Proof. unfold recon, setupConnection. crunch. Qed.

Lemma recon_peer_connect target w : recon (peer_connect target w).2 = recon w.
Proof. unfold recon, peer_connect. crunch. Qed.

Lemma recon_conn_send c m w : recon (conn_send c m w).2 = recon w.
Proof. unfold recon, conn_send. crunch. Qed.

Lemma recon_run_on_open c ms w : recon (run_on_open c ms w) = recon w.
Proof.
  revert w. induction ms as [|m ms IH]; intros w; cbn [run_on_open]; [done|].
  pose proof (recon_conn_send c m w) as E.
  destruct (conn_send c m w) as [[] w']; simpl in E; [done|].
  by rewrite IH.
Qed.

Lemma recon_connectToPeer u w : recon (connectToPeer u w) = recon w.
Proof.
  unfold connectToPeer.
  destruct (decide _); [done|].
  destruct (match connections (svc w) !! _ with Some _ => _ | None => _ end); [done|].
  destruct (_ || _); [done|].
  pose proof (recon_peer_connect (toNodeId u) w) as E.
  destruct (peer_connect _ w) as [[c|] w1]; simpl in E.
  - by rewrite recon_setupConnection.
  - done.
Qed.

Lemma recon_send fuel m w w' : send fuel m w = Some w' -> recon w' = recon w.
Proof.
  revert w w'. induction fuel as [|fuel IH]; intros w w' E; cbn [send] in E; [done|].
  destruct (negb (isOnline (svc w))); [by injection E as <-|].
  destruct (match connections (svc w) !! _ with Some _ => _ | None => _ end)
    as [conn|].
  - pose proof (recon_conn_send conn (CHAT m) w) as Es.
    destruct (conn_send conn (CHAT m) w) as [[] w1]; simpl in Es.
    + apply IH in E. by rewrite E.
    + congruence.
  - pose proof (recon_peer_connect
                  (toNodeId (recipientId m)) w) as Ec.
    destruct (peer_connect _ w) as [[c|] w1]; simpl in Ec; injection E as <-.
    + rewrite <- Ec, <- (recon_setupConnection c w1). done.
    + done.
Qed.

Lemma recon_on_conn_open c w : recon (on_conn_open c w) = recon w.
Proof.
  unfold on_conn_open.
  destruct (heap w !! c) as [conn|]; [|done].
  set (w0 := with_heap _ w).
  destruct (conn_setup conn).
  - destruct (myUser (svc w0)) as [u|].
    + pose proof (recon_conn_send c (IDENTITY_EXCHANGE (publicKey u) (username u)) w0) as E.
      destruct (conn_send c _ w0) as [[] w1]; simpl in E; [done|].
      by rewrite recon_run_on_open.
    + by rewrite recon_run_on_open.
  - by rewrite recon_run_on_open.
Qed.

Lemma recon_on_conn_data c m w : recon (on_conn_data c m w) = recon w.
Proof. unfold recon, on_conn_data, forEachHandler, registry_set. crunch. Qed.

Lemma recon_cleanup c w : recon (cleanup c w) = recon w.
Proof. unfold recon, cleanup, registry_delete. crunch. Qed.

Lemma recon_on_conn_close c w : recon (on_conn_close c w) = recon w.
Proof.
  unfold on_conn_close. destruct (heap w !! c); [|done].
  by rewrite recon_cleanup.
Qed.

Lemma recon_on_peer_connection r w : recon (on_peer_connection r w) = recon w.
Proof.
  unfold on_peer_connection. destruct (peer (svc w)); [|done].
  by rewrite recon_setupConnection.
Qed.

Lemma recon_handleReconnect_pending w t :
  reconnectTimeout (svc w) = Some t -> handleReconnect w = w.
Proof. unfold handleReconnect. by intros ->. Qed.

Lemma timers_handleReconnect_idle w :
  reconnectTimeout (svc w) = None ->
  timers (handleReconnect w) = timers w ++ [(next_timer w, reconnectDelay (svc w))]
  /\ reconnectTimeout (svc (handleReconnect w)) = Some (next_timer w)
  /\ reconnectDelay (svc (handleReconnect w)) = reconnectDelay (svc w)
  /\ trace (handleReconnect w)
     = trace w ++ [SetTimeout (next_timer w) (reconnectDelay (svc w))].
Proof. unfold handleReconnect. by intros ->. Qed.

(** *** At most one reconnect timer *)

(** The runtime holds no pending timeout, or exactly the one whose handle
    the service keeps in [reconnectTimeout]. *)
Definition timer_inv (w : World) : Prop :=
  timers w = [] \/
  exists t d, timers w = [(t, d)] /\ reconnectTimeout (svc w) = Some t.

Lemma timer_inv_recon w w' : recon w' = recon w -> timer_inv w -> timer_inv w'.
Proof.
  unfold recon, timer_inv. intros [= E1 E2 _]. by rewrite E1, E2.
Qed.

Lemma timer_inv_frame w w' :
  timers w' = timers w -> reconnectTimeout (svc w') = reconnectTimeout (svc w) ->
  timer_inv w -> timer_inv w'.
Proof. unfold timer_inv. by intros -> ->. Qed.

Lemma timer_inv_handleReconnect w : timer_inv w -> timer_inv (handleReconnect w).
Proof.
  intros Hi. destruct (reconnectTimeout (svc w)) as [t|] eqn:E.
  - by rewrite (recon_handleReconnect_pending w t).
  - destruct (timers_handleReconnect_idle w E) as (Ht & Hr & _).
    destruct Hi as [Hn | (t & d & Hn & Hs)]; [|congruence].
    right. exists (next_timer w), (reconnectDelay (svc w)).
    by rewrite Ht, Hn.
Qed.

Lemma remove_timer_single t d : remove_timer t [(t, d)] = [].
Proof. unfold remove_timer. simpl. by rewrite Nat.eqb_refl. Qed.

Lemma timer_inv_fire t w : timer_inv w -> timer_inv (fire_timer t w).
Proof.
  intros Hi. unfold fire_timer.
  destruct (timer_pending t w) eqn:Ep; [|done].
  left. unfold reconnect_attempt.
  assert (Hrm : timers (with_timers (remove_timer t) w) = []).
  { destruct Hi as [Hn | (t' & d & Hn & Hs)]; simpl; rewrite Hn; [done|].
    unfold timer_pending in Ep. rewrite Hn in Ep. simpl in Ep.
    rewrite orb_false_r in Ep. apply Nat.eqb_eq in Ep. subst t'.
    apply remove_timer_single. }
  set (w0 := with_timers (remove_timer t) w) in *.
  assert (Hinit : forall u, timers (init u EmptyCallback w0) = []).
  { intros u. pose proof (recon_init u EmptyCallback w0) as E.
    unfold recon in E. congruence. }
  cbn [timers with_svc].
  destruct (peer (svc w0)) as [p|].
  - destruct (peer_disconnected p && negb (peer_destroyed p)); [done|].
    destruct (peer_destroyed p); [|done].
    destruct (myUser (svc w0)); [apply Hinit | done].
  - destruct (myUser (svc w0)); [apply Hinit | done].
Qed.

Lemma timer_inv_destroy w : timer_inv w -> timer_inv (destroy w).
Proof.
  intros Hi. left. unfold destroy.
  cbn [with_svc svc set_isDestroyed reconnectTimeout].
  assert (Ht : timers
            match reconnectTimeout (svc w) with
            | Some t => emit [ClearTimeout t]
                          (with_timers (remove_timer t) (with_svc (set_isDestroyed true) w))
            | None => with_svc (set_isDestroyed true) w
            end = []).
  { destruct Hi as [Hn | (t & d & Hn & Hs)].
    - destruct (reconnectTimeout (svc w)); simpl; by rewrite Hn.
    - rewrite Hs. simpl. rewrite Hn. apply remove_timer_single. }
  revert Ht. generalize (match reconnectTimeout (svc w) with
            | Some t => emit [ClearTimeout t]
                          (with_timers (remove_timer t) (with_svc (set_isDestroyed true) w))
            | None => with_svc (set_isDestroyed true) w
            end).
  intros w2 Ht. simpl. by destruct (peer (svc w2)).
Qed.

Lemma step_timer_inv e w : timer_inv w -> timer_inv (step e w).
Proof.
  intros Hi. destruct e; cbn [step].
  - eapply timer_inv_recon; [apply recon_init | done].
  - eapply timer_inv_recon; [apply recon_connectToPeer | done].
  - destruct (send 2 message w) as [w'|] eqn:E; [|done].
    eapply timer_inv_recon; [by eapply recon_send | done].
  - by apply timer_inv_destroy.
  - done.
  - done.
  - done.
  - done.
  - unfold on_peer_open. by destruct (peer (svc w)).
  - eapply timer_inv_recon; [apply recon_on_peer_connection | done].
  - unfold on_peer_error. repeat destruct (decide _); try done.
    eapply timer_inv_frame; [| |by apply (timer_inv_handleReconnect w)]; done.
  - unfold on_peer_disconnected. destruct (peer (svc w)); [|done].
    by apply timer_inv_handleReconnect.
  - unfold on_peer_close. destruct (peer (svc w)); [|done].
    cbn [with_svc svc set_isOnline set_peer isDestroyed].
    destruct (negb (isDestroyed (svc w))); [|done].
    by apply timer_inv_handleReconnect.
  - by destruct (peer (svc w)).
  - eapply timer_inv_recon; [apply recon_on_conn_open | done].
  - eapply timer_inv_recon; [apply recon_on_conn_data | done].
  - eapply timer_inv_recon; [apply recon_on_conn_close | done].
  - eapply timer_inv_recon; [apply recon_cleanup | done].
  - by apply timer_inv_fire.
Qed.

Lemma run_app es es' w : run (es ++ es') w = run es' (run es w).
Proof. unfold run. apply fold_left_app. Qed.

Lemma run_timer_inv es w : timer_inv w -> timer_inv (run es w).
Proof.
  revert w. induction es as [|e es IH]; intros w Hi; [done|].
  simpl. apply IH. by apply step_timer_inv.
Qed.

Lemma reachable_timer_inv w : reachable w -> timer_inv w.
Proof.
  intros (oracle & es & ->). apply run_timer_inv. by left.
Qed.

(** Signals of an unsolicited drop of the local transport: the peer's
    [disconnected] and [close] events and its [network] error. *)
Definition is_drop (e : Event) : bool :=
  match e with
  | PeerDisconnected | PeerClose => true
  | PeerError errorType _ => bool_decide (errorType = js "network")
  | _ => false
  end.

Definition is_SetTimeout (x : Effect) : bool :=
  match x with SetTimeout _ _ => true | _ => false end.

Definition no_SetTimeout (l : list Effect) : bool :=
  forallb (fun x => negb (is_SetTimeout x)) l.

Lemma no_SetTimeout_errors ty msg l :
  no_SetTimeout (map (fun h => CallErrorHandler h ty msg) l) = true.
Proof. induction l as [|h l IH]; simpl; done. Qed.

(** What a drop handler does once it reaches [handleReconnect], from a
    state [w1] that agrees with [w] on the reconnect state. *)
Lemma drop_core w w1 :
  timer_inv w -> recon w1 = recon w -> next_timer w1 = next_timer w ->
  (timers w <> [] -> handleReconnect w1 = w1) /\
  (timers (handleReconnect w1) <> timers w ->
     timers w = [] /\
     timers (handleReconnect w1) = [(next_timer w, reconnectDelay (svc w))]).
Proof.
  intros Hi [= E1 E2 E3] En. split.
  - intros Hne. destruct Hi as [Hn | (t & d & Hn & Hs)]; [done|].
    apply (recon_handleReconnect_pending w1 t). congruence.
  - intros Hch. destruct (reconnectTimeout (svc w1)) as [t|] eqn:E.
    + rewrite (recon_handleReconnect_pending w1 t E) in Hch. congruence.
    + destruct (timers_handleReconnect_idle w1 E) as (Ht & _).
      destruct Hi as [Hn | (t & d & Hn & Hs)]; [|congruence].
      split; [done|]. rewrite Ht, E1, Hn, En, E3. done.
Qed.

(** A [close] of the peer after [destroy]: its listener skips
    [handleReconnect]. *)
Definition close_after_destroy (e : Event) (w : World) : bool :=
  match e with
  | PeerClose => isDestroyed (svc w)
  | _ => false
  end.

Definition is_Destroy (e : Event) : bool :=
  match e with Destroy => true | _ => false end.

(** The service keeps a handle only while its timeout is pending. *)
Definition handle_sync (w : World) : Prop :=
  timers w = [] -> reconnectTimeout (svc w) = None.

Lemma handle_sync_recon w w' : recon w' = recon w -> handle_sync w -> handle_sync w'.
Proof. unfold recon, handle_sync. intros [= E1 E2 _]. by rewrite E1, E2. Qed.

Lemma handle_sync_frame w w' :
  timers w' = timers w -> reconnectTimeout (svc w') = reconnectTimeout (svc w) ->
  handle_sync w -> handle_sync w'.
Proof. unfold handle_sync. by intros -> ->. Qed.

Lemma handle_sync_handleReconnect w : handle_sync w -> handle_sync (handleReconnect w).
Proof.
  intros Hs. destruct (reconnectTimeout (svc w)) as [t|] eqn:E.
  - by rewrite (recon_handleReconnect_pending w t).
  - destruct (timers_handleReconnect_idle w E) as (Ht & _).
    intros Hn. rewrite Ht in Hn. by destruct (timers w).
Qed.

Lemma handle_sync_fire t w : handle_sync w -> handle_sync (fire_timer t w).
Proof.
  intros Hs. unfold fire_timer. destruct (timer_pending t w); [|done].
  intros _. done.
Qed.

Lemma step_handle_sync e w :
  is_Destroy e = false -> handle_sync w -> handle_sync (step e w).
Proof.
  intros He Hs. destruct e; try discriminate He; cbn [step].
  - eapply handle_sync_recon; [apply recon_init | done].
  - eapply handle_sync_recon; [apply recon_connectToPeer | done].
  - destruct (send 2 message w) as [w'|] eqn:E; [|done].
    eapply handle_sync_recon; [by eapply recon_send | done].
  - done.
  - done.
  - done.
  - done.
  - unfold on_peer_open. by destruct (peer (svc w)).
  - eapply handle_sync_recon; [apply recon_on_peer_connection | done].
  - unfold on_peer_error. repeat destruct (decide _); try done.
    eapply handle_sync_frame; [| |by apply (handle_sync_handleReconnect w)]; done.
  - unfold on_peer_disconnected. destruct (peer (svc w)); [|done].
    by apply handle_sync_handleReconnect.
  - unfold on_peer_close. destruct (peer (svc w)); [|done].
    cbn [with_svc svc set_isOnline set_peer isDestroyed].
    destruct (negb (isDestroyed (svc w))); [|done].
    by apply handle_sync_handleReconnect.
  - by destruct (peer (svc w)).
  - eapply handle_sync_recon; [apply recon_on_conn_open | done].
  - eapply handle_sync_recon; [apply recon_on_conn_data | done].
  - eapply handle_sync_recon; [apply recon_on_conn_close | done].
  - eapply handle_sync_recon; [apply recon_cleanup | done].
  - by apply handle_sync_fire.
Qed.

Lemma run_handle_sync es w :
  forallb (fun e => negb (is_Destroy e)) es = true ->
  handle_sync w -> handle_sync (run es w).
Proof.
  revert w. induction es as [|e es IH]; intros w Hes Hs; [done|].
  cbn [forallb] in Hes. apply andb_prop in Hes as [He Hes].
  simpl. apply IH; [done|]. apply step_handle_sync; [|done].
  by destruct (is_Destroy e).
Qed.

(** A drop handler that reaches [handleReconnect] while the service keeps
    no handle, from a state [w1] that agrees with [w] on the reconnect
    state. *)
Lemma drop_idle w w1 :
  timers w = [] -> reconnectTimeout (svc w) = None ->
  recon w1 = recon w -> next_timer w1 = next_timer w -> trace w1 = trace w ->
  timers (handleReconnect w1) = [(next_timer w, reconnectDelay (svc w))] /\
  reconnectTimeout (svc (handleReconnect w1)) = Some (next_timer w) /\
  trace (handleReconnect w1)
  = trace w ++ [SetTimeout (next_timer w) (reconnectDelay (svc w))].
Proof.
  intros Hn Hh [= E1 E2 E3] En Et.
  destruct (timers_handleReconnect_idle w1) as (Ht & Hr & _ & Htr); [congruence|].
  rewrite Ht, Hr, Htr, E1, E3, En, Et, Hn. done.
Qed.

(** C6, as the code has it.  In every reachable state of the session
    manager at most one reconnect timer is pending.  A drop event (the
    peer's [disconnected], [close] or [network] error) that arrives while a
    timer is pending leaves the pending timers, the stored handle and the
    delay as they are and calls [setTimeout] not at all; a drop event
    changes the set of pending timers only when none was pending, in which
    case exactly one, with the current delay, is pending afterwards.  When
    the service keeps no timer handle, no timer is pending, and a drop
    event on the peer then calls [setTimeout] once and leaves exactly one
    timer pending, with the current delay; except the [close] that follows
    [destroy], which schedules nothing.  In a state reached without
    [destroy] the service keeps no handle whenever no timer is pending. *)
Theorem one_reconnect_timer w :
  reachable w ->
  (length (timers w) <= 1)%nat /\
  (forall e, is_drop e = true ->
    (length (timers (step e w)) <= 1)%nat /\
    (timers w <> [] ->
       recon (step e w) = recon w /\
       exists new, trace (step e w) = trace w ++ new /\ no_SetTimeout new = true) /\
    (timers (step e w) <> timers w ->
       timers w = [] /\
       timers (step e w) = [(next_timer w, reconnectDelay (svc w))]) /\
    (reconnectTimeout (svc w) = None -> is_Some (peer (svc w)) ->
       timers w = [] /\
       if close_after_destroy e w
       then recon (step e w) = recon w /\ trace (step e w) = trace w
       else timers (step e w) = [(next_timer w, reconnectDelay (svc w))] /\
            reconnectTimeout (svc (step e w)) = Some (next_timer w) /\
            exists after,
              trace (step e w)
              = trace w ++ SetTimeout (next_timer w) (reconnectDelay (svc w)) :: after /\
              no_SetTimeout after = true)) /\
  (forall oracle es,
     w = run es (new_world oracle) ->
     forallb (fun e => negb (is_Destroy e)) es = true ->
     timers w = [] -> reconnectTimeout (svc w) = None).
Proof.
  intros Hr. pose proof (reachable_timer_inv w Hr) as Hi.
  assert (Hlen : forall w, timer_inv w -> (length (timers w) <= 1)%nat).
  { intros w0 [Hn | (t & d & Hn & _)]; rewrite Hn; simpl; lia. }
  assert (Hidle : reconnectTimeout (svc w) = None -> timers w = []).
  { intros Hh. destruct Hi as [Hn | (t & d & _ & Hs)]; [done | congruence]. }
  split; [by apply Hlen|]. split.
  2:{ intros oracle es -> Hes. by apply run_handle_sync. }
  intros e He. split; [by apply Hlen, step_timer_inv|].
  destruct e; try discriminate; cbn [step close_after_destroy].
  - (* the network error *)
    apply bool_decide_eq_true in He. subst errorType.
    unfold on_peer_error.
    destruct (decide (js "network" = js "peer-unavailable")) as [D|_]; [discriminate D|].
    destruct (decide (js "network" = js "webrtc")) as [D|_]; [discriminate D|].
    destruct (decide (js "network" = js "network")) as [_|D]; [|done].
    destruct (drop_core w w Hi eq_refl eq_refl) as [Hp Hs].
    split; [|split].
    + intros Hne. rewrite (Hp Hne). split; [done|].
      eexists. split; [reflexivity|]. apply no_SetTimeout_errors.
    + exact Hs.
    + intros Hh _. split; [by apply Hidle|].
      destruct (drop_idle w w (Hidle Hh) Hh eq_refl eq_refl eq_refl) as (Et & Eh & Etr).
      unfold forEachError. cbn [emit timers svc trace].
      split; [exact Et|]. split; [exact Eh|].
      eexists. rewrite Etr, <- app_assoc. split; [reflexivity|].
      apply no_SetTimeout_errors.
  - (* disconnected *)
    unfold on_peer_disconnected. destruct (peer (svc w)) as [p|].
    + set (w1 := with_svc _ w).
      destruct (drop_core w w1 Hi eq_refl eq_refl) as [Hp Hs].
      split; [|split; [exact Hs|]].
      * intros Hne. rewrite (Hp Hne). split; [done|].
        exists []. by rewrite app_nil_r.
      * intros Hh _. split; [by apply Hidle|].
        destruct (drop_idle w w1 (Hidle Hh) Hh eq_refl eq_refl eq_refl) as (Et & Eh & Etr).
        split; [exact Et|]. split; [exact Eh|].
        exists []. by rewrite Etr.
    + split; [|split; [done|]].
      * intros _. split; [done|]. exists []. by rewrite app_nil_r.
      * by intros _ [? ?].
  - (* close *)
    unfold on_peer_close. destruct (peer (svc w)) as [p|].
    + set (w1 := with_svc _ w).
      assert (Ed : isDestroyed (svc w1) = isDestroyed (svc w)) by done.
      destruct (drop_core w w1 Hi eq_refl eq_refl) as [Hp Hs].
      rewrite Ed. destruct (isDestroyed (svc w)); cbn [negb].
      * split; [|split; [done|]].
        -- intros _. split; [done|]. exists []. by rewrite app_nil_r.
        -- intros Hh _. split; [by apply Hidle|]. done.
      * split; [|split; [exact Hs|]].
        -- intros Hne. rewrite (Hp Hne). split; [done|].
           exists []. by rewrite app_nil_r.
        -- intros Hh _. split; [by apply Hidle|].
           destruct (drop_idle w w1 (Hidle Hh) Hh eq_refl eq_refl eq_refl)
             as (Et & Eh & Etr).
           split; [exact Et|]. split; [exact Eh|].
           exists []. by rewrite Etr.
    + split; [|split; [done|]].
      * intros _. split; [done|]. exists []. by rewrite app_nil_r.
      * by intros _ [? ?].
Qed.

(** *** Reconnect backoff *)

(** The delay that [backoff n] names: [min(1000 * 1.5^n, 30000)]. *)
Definition backoff (n : nat) : Q := Qmin (1000 * 1.5 ^ Z.of_nat n) 30000.

(** The number of reconnect attempts in a run: the timeouts that fire
    while pending. *)
Fixpoint attempts (es : list Event) (w : World) : nat :=
  match es with
  | [] => 0%nat
  | e :: es' =>
      (match e with
       | TimerFire t => if timer_pending t w then 1%nat else 0%nat
       | _ => 0%nat
       end + attempts es' (step e w))%nat
  end.

(** No [open] of the peer, that is no transition to Online, in a run. *)
Definition no_open (es : list Event) : bool :=
  forallb (fun e => match e with PeerOpen _ => false | _ => true end) es.

Lemma Qmin_step a :
  Qmin (Qmin a 30000 * 1.5) 30000 == Qmin (a * 1.5) 30000.
Proof.
  destruct (Q.min_spec a 30000) as [[H1 H2]|[H1 H2]];
  destruct (Q.min_spec (a * 1.5) 30000) as [[H3 H4]|[H3 H4]];
  destruct (Q.min_spec (Qmin a 30000 * 1.5) 30000) as [[H5 H6]|[H5 H6]];
  rewrite ?H4, ?H6; rewrite ?H2 in *; try lra.
Qed.

Lemma backoff_succ n : Qmin (backoff n * 1.5) 30000 == backoff (S n).
Proof.
  unfold backoff. rewrite Qmin_step.
  apply Q.min_compat; [|reflexivity].
  rewrite Nat2Z.inj_succ, <- Z.add_1_r.
  rewrite Qpower_plus by (intros E; discriminate E).
  change ((1.5 ^ 1)%Q) with (1.5%Q). ring.
Qed.

Lemma backoff_0 : backoff 0 == 1000.
Proof. reflexivity. Qed.

Lemma delay_reconnect_attempt w :
  reconnectDelay (svc (reconnect_attempt w))
  = Qmin (reconnectDelay (svc w) * 1.5) maxReconnectDelay.
Proof.
  unfold reconnect_attempt. cbn [with_svc svc set_reconnectDelay reconnectDelay].
  assert (Hinit : forall u, reconnectDelay (svc (init u EmptyCallback w))
                            = reconnectDelay (svc w)).
  { intros u. pose proof (recon_init u EmptyCallback w) as E.
    unfold recon in E. congruence. }
  destruct (peer (svc w)) as [p|].
  - destruct (peer_disconnected p && negb (peer_destroyed p)); [done|].
    destruct (peer_destroyed p); [|done].
    destruct (myUser (svc w)); [by rewrite Hinit | done].
  - destruct (myUser (svc w)); [by rewrite Hinit | done].
Qed.

Lemma delay_destroy w : reconnectDelay (svc (destroy w)) = reconnectDelay (svc w).
Proof.
  unfold destroy. cbn [with_svc svc set_isDestroyed reconnectTimeout].
  destruct (reconnectTimeout (svc w)); simpl; by destruct (peer (svc w)).
Qed.

Lemma delay_handleReconnect w :
  reconnectDelay (svc (handleReconnect w)) = reconnectDelay (svc w).
Proof. unfold handleReconnect. by destruct (reconnectTimeout (svc w)). Qed.

Lemma recon_delay w w' :
  recon w' = recon w -> reconnectDelay (svc w') = reconnectDelay (svc w).
Proof. by intros [= _ _ E]. Qed.

(** Only a firing timeout and the peer's [open] change the delay. *)
Lemma step_delay e w :
  reconnectDelay (svc (step e w)) =
  match e with
  | TimerFire t =>
      if timer_pending t w
      then Qmin (reconnectDelay (svc w) * 1.5) maxReconnectDelay
      else reconnectDelay (svc w)
  | PeerOpen _ =>
      match peer (svc w) with
      | Some _ => 1000%Q
      | None => reconnectDelay (svc w)
      end
  | _ => reconnectDelay (svc w)
  end.
Proof.
  destruct e; cbn [step].
  - apply recon_delay, recon_init.
  - apply recon_delay, recon_connectToPeer.
  - destruct (send 2 message w) as [w'|] eqn:E; [|done].
    by eapply recon_delay, recon_send.
  - apply delay_destroy.
  - done.
  - done.
  - done.
  - done.
  - unfold on_peer_open. by destruct (peer (svc w)).
  - apply recon_delay, recon_on_peer_connection.
  - unfold on_peer_error. repeat destruct (decide _); try done.
    unfold forEachError. cbn [emit svc]. apply delay_handleReconnect.
  - unfold on_peer_disconnected. destruct (peer (svc w)); [|done].
    by rewrite delay_handleReconnect.
  - unfold on_peer_close. destruct (peer (svc w)); [|done].
    cbn [with_svc svc set_isOnline set_peer isDestroyed].
    destruct (negb (isDestroyed (svc w))); [|done].
    by rewrite delay_handleReconnect.
  - by destruct (peer (svc w)).
  - apply recon_delay, recon_on_conn_open.
  - apply recon_delay, recon_on_conn_data.
  - apply recon_delay, recon_on_conn_close.
  - apply recon_delay, recon_cleanup.
  - unfold fire_timer. destruct (timer_pending t w); [|done].
    by rewrite delay_reconnect_attempt.
Qed.

Lemma run_backoff es w k :
  reconnectDelay (svc w) == backoff k -> no_open es = true ->
  reconnectDelay (svc (run es w)) == backoff (k + attempts es w).
Proof.
  revert w k. induction es as [|e es IH]; intros w k Hd Hn.
  - simpl. by rewrite Nat.add_0_r.
  - simpl in Hn. apply andb_prop in Hn as [He Hn].
    change (run (e :: es) w) with (run es (step e w)).
    cbn [attempts].
    pose proof (step_delay e w) as Es.
    destruct e; try discriminate He;
      try (rewrite Nat.add_0_l; apply IH; [by rewrite Es | done]).
    destruct (timer_pending t w).
    + replace (k + (1 + attempts es (step (TimerFire t) w)))%nat
        with (S k + attempts es (step (TimerFire t) w))%nat by lia.
      apply IH; [|done]. rewrite Es. unfold maxReconnectDelay.
      rewrite <- backoff_succ.
      apply Q.min_compat; [|reflexivity]. by rewrite Hd.
    + rewrite Nat.add_0_l. apply IH; [by rewrite Es | done].
Qed.

(** C5.  Starting from the floor delay of 1000 ms, after a run without
    Online transition in which [N] reconnect attempts were made (whatever
    else happened and whatever their outcome) the delay of the service is
    [min(1000 * 1.5^N, 30000)], and this is the delay of the timer that the
    next drop schedules; the peer's [open] event puts the delay back to 1000. *)
Theorem reconnect_backoff w es :
  reconnectDelay (svc w) == 1000 -> no_open es = true ->
  let w' := run es w in
  let N := attempts es w in
  reconnectDelay (svc w') == Qmin (1000 * 1.5 ^ Z.of_nat N) 30000 /\
  (reconnectTimeout (svc w') = None ->
     timers (handleReconnect w') = timers w' ++ [(next_timer w', reconnectDelay (svc w'))]) /\
  (forall id, is_Some (peer (svc w')) ->
     reconnectDelay (svc (step (PeerOpen id) w')) = 1000%Q).
Proof.
  intros Hd Hn w' N. split; [|split].
  - apply (run_backoff es w 0); [by rewrite backoff_0 | done].
  - intros E. by destruct (timers_handleReconnect_idle w' E) as [? _].
  - intros id [p Hp]. rewrite step_delay. by rewrite Hp.
Qed.

(** The delays of the backoff are multiples of 1/256 ms below 2^23 ms:
    the double-precision arithmetic of the source computes them exactly,
    so that the rational model loses nothing. *)
Lemma backoff_exact n :
  exists z : Z, (0 <= z <= 30000 * 256)%Z /\ backoff n * 256 == inject_Z z.
Proof.
  assert (Hbig : forall m, backoff (9 + m) == 30000).
  { induction m as [|m IH].
    - reflexivity.
    - rewrite Nat.add_succ_r, <- backoff_succ, IH. reflexivity. }
  destruct (le_lt_dec 9 n) as [Hle|Hlt].
  - replace n with (9 + (n - 9))%nat by lia. exists (30000 * 256)%Z.
    split; [lia|]. rewrite Hbig. reflexivity.
  - destruct n as [|[|[|[|[|[|[|[|[|n]]]]]]]]];
      [ exists 256000%Z | exists 384000%Z | exists 576000%Z | exists 864000%Z
      | exists 1296000%Z | exists 1944000%Z | exists 2916000%Z
      | exists 4374000%Z | exists 6561000%Z | lia ];
      (split; [lia | vm_compute; reflexivity]).
Qed.

(** *** [init] on a live peer *)

(** C10.  Calling [init] while a peer object exists that is not destroyed
    changes nothing: the service (local id, stored user, registry, reconnect
    state), the runtime and the effects stay as they are, for every user
    and every callback; the callback is not registered, so the run that
    follows is the run that would have followed without the call. *)
Theorem init_live_peer_noop user onReady w :
  peer_alive (svc w) = true ->
  init user onReady w = w /\
  forall cb es, run es (step (Init user cb) w) = run es w.
Proof.
  intros Ha. unfold step, init. rewrite Ha. done.
Qed.

(** *** [send] retries once *)

Lemma setupConnection_frame c w :
  svc (setupConnection c w) = svc w /\ trace (setupConnection c w) = trace w /\
  calls (setupConnection c w) = calls w /\ throws (setupConnection c w) = throws w /\
  length (heap (setupConnection c w)) = length (heap w).
Proof.
  unfold setupConnection.
  destruct (heap w !! c) as [conn|]; [|done].
  destruct (connections (svc w) !! conn_peer conn) as [e|];
    [destruct (is_open w e)|]; cbn [with_heap svc trace calls throws heap];
    rewrite ?length_insert; done.
Qed.

Definition error_calls (errorType msg : jsstring) (w : World) : list Effect :=
  map (fun h => CallErrorHandler h errorType msg) (errorHandlers (svc w)).

(** With no usable connection registered for the recipient, [send] does
    not reach its recursive call. *)
Lemma send_no_connection fuel message w :
  isOnline (svc w) = true ->
  connections (svc w) !! (toNodeId (recipientId message)) = None ->
  let target := toNodeId (recipientId message) in
  send (S fuel) message w =
    match peer_connect target w with
    | (Some conn, w') =>
        Some (with_heap (fun h =>
                match h !! conn with
                | Some o => <[conn := add_conn_on_open (CHAT message) o]> h
                | None => h
                end) (setupConnection conn w'))
    | (None, w') =>
        Some (forEachError (js "send-fail")
                (js "Could not reach node " ++ recipientId message) w')
    end.
Proof. intros Ho Hc. cbn [send]. by rewrite Ho, Hc. Qed.

Lemma send_S fuel message w :
  send (S fuel) message w =
  if negb (isOnline (svc w)) then
    Some (forEachError (js "transport") (js "Signal dropped: Node is offline.") w)
  else
    let payload := CHAT message in
    let targetPeerId := toNodeId (recipientId message) in
    match
      match connections (svc w) !! targetPeerId with
      | Some conn => if is_open w conn then Some conn else None
      | None => None
      end
    with
    | None =>
        match peer_connect targetPeerId w with
        | (Some conn, w') =>
            Some (with_heap (fun h =>
                    match h !! conn with
                    | Some o => <[conn := add_conn_on_open payload o]> h
                    | None => h
                    end) (setupConnection conn w'))
        | (None, w') =>
            Some (forEachError (js "send-fail")
                    (js "Could not reach node " ++ recipientId message) w')
        end
    | Some conn =>
        let (threw, w') := conn_send conn payload w in
        if threw then
          send fuel message
            (forEachError (js "send-fail") (js "Transmission failed. Retrying...")
               (registry_delete targetPeerId w'))
        else Some w'
    end.
Proof. reflexivity. Qed.

Lemma send_fuel fuel message w :
  (2 <= fuel)%nat ->
  send fuel message w = send 2 message w /\ is_Some (send 2 message w).
Proof.
  intros Hf. destruct fuel as [|[|fuel]]; [lia|lia|]. clear Hf.
  cbn [send].
  destruct (negb (isOnline (svc w))) eqn:Eo; [by eauto|].
  apply negb_false_iff in Eo.
  destruct (match connections (svc w) !! _ with Some _ => _ | None => _ end)
    as [conn|].
  - destruct (conn_send conn (CHAT message) w) as [[] w1] eqn:Es; [|by eauto].
    set (w2 := forEachError _ _ _).
    assert (Ho : isOnline (svc w2) = true).
    { unfold conn_send, transport_call in Es. by simplify_eq. }
    assert (Hc : connections (svc w2)
                 !! (toNodeId (recipientId message)) = None).
    { subst w2. unfold forEachError, registry_delete.
      cbn [emit with_svc svc set_connections connections].
      apply lookup_delete_eq. }
    rewrite Ho, Hc. cbn [negb].
    split; [done|]. by destruct (peer_connect _ w2) as [[c|] w3].
  - split; [done|]. by destruct (peer_connect _ w) as [[c|] w1].
Qed.

(** The recursion of [send] is bounded for every message and every
    state: two units of fuel always give the result, and more fuel gives
    the same.  When the send on a registered open connection throws, the
    connection is evicted from the registry, [send-fail] is reported to the
    error handlers and the whole send runs once more; that retry finds no
    registered connection, asks the transport for a fresh one, and when
    this fails too reports [send-fail] and stops. *)
Lemma send_retries_once message w :
  let target := toNodeId (recipientId message) in
  (forall fuel, (2 <= fuel)%nat -> send fuel message w = send 2 message w) /\
  is_Some (send 2 message w) /\
  forall conn,
    isOnline (svc w) = true ->
    connections (svc w) !! target = Some conn ->
    is_open w conn = true ->
    throws w (calls w) = true ->
    exists w' retry,
      send 2 message w = Some w' /\
      connections (svc w') = delete target (connections (svc w)) /\
      trace w' = trace w ++ [ConnSendThrew conn (CHAT message)]
                 ++ error_calls (js "send-fail") (js "Transmission failed. Retrying...") w
                 ++ retry /\
      (retry = [PeerConnect target (length (heap w))] \/
       retry = PeerConnectThrew target
               :: error_calls (js "send-fail")
                    (js "Could not reach node " ++ recipientId message) w) /\
      (calls w' <= calls w + 2)%nat.
Proof.
  intros target. split; [|split].
  - intros fuel Hf. by apply send_fuel.
  - by apply (send_fuel 2).
  - intros conn Ho Hc Hop Ht.
    rewrite (send_S 1 message w). rewrite Ho. cbn [negb]. fold target.
    rewrite Hc, Hop.
    unfold conn_send at 1, transport_call. rewrite Ht.
    match goal with |- context [send 1 message ?x] => set (w2 := x) end.
    assert (Hc2 : connections (svc w2) = delete target (connections (svc w))) by done.
    assert (Ht2 : trace w2 = trace w ++ [ConnSendThrew conn (CHAT message)]
                   ++ error_calls (js "send-fail") (js "Transmission failed. Retrying...") w).
    { subst w2. unfold forEachError, registry_delete, error_calls.
      cbn [emit with_svc svc trace set_connections errorHandlers].
      by rewrite <- app_assoc. }
    assert (Hk2 : calls w2 = S (calls w)) by done.
    assert (Hh2 : heap w2 = heap w) by done.
    assert (Ho2 : isOnline (svc w2) = true) by done.
    assert (Hn2 : connections (svc w2)
                  !! (toNodeId (recipientId message)) = None).
    { rewrite Hc2. apply lookup_delete_eq. }
    rewrite (send_no_connection 0 message w2 Ho2 Hn2). fold target.
    assert (Herr : forall w3, svc w3 = svc w2 ->
              error_calls (js "send-fail")
                (js "Could not reach node " ++ recipientId message) w
              = map (fun h => CallErrorHandler h (js "send-fail")
                                (js "Could not reach node " ++ recipientId message))
                    (errorHandlers (svc w3))).
    { intros w3 ->. done. }
    unfold peer_connect.
    destruct (peer (svc w2)) as [p|].
    + unfold transport_call.
      destruct (throws w2 (calls w2)).
      * eexists _, _. split; [reflexivity|].
        unfold forEachError. cbn [emit svc trace calls].
        split; [done|]. split; [|split; [by right|]].
        -- rewrite Ht2, <- !app_assoc. cbn [app]. done.
        -- rewrite Hk2. lia.
      * cbn [heap].
        set (w3 := emit _ _).
        destruct (setupConnection_frame (length (heap w2)) w3)
          as (Es & Etr & Ecl & _).
        eexists _, _. split; [reflexivity|].
        cbn [with_heap svc trace calls]. rewrite Es, Etr, Ecl.
        split; [done|]. split; [|split; [by left|]].
        -- subst w3. cbn [emit with_heap trace heap]. rewrite Ht2, Hh2, <- !app_assoc. done.
        -- subst w3. cbn [emit with_heap calls]. rewrite Hk2. lia.
    + eexists _, _. split; [reflexivity|].
      unfold forEachError. cbn [emit svc trace calls].
      split; [done|]. split; [|split; [by right|]].
      * rewrite Ht2, <- !app_assoc. cbn [app]. done.
      * rewrite Hk2. lia.
Qed.

(** *** The registry on close *)

(** [cleanup] removes the entry under the transport id of the connection. *)
Lemma close_removes_peer_key c conn w :
  heap w !! c = Some conn -> conn_setup conn = true ->
  connections (svc (on_conn_close c w)) !! conn_peer conn = None.
Proof.
  intros Hc Hs. unfold on_conn_close, cleanup. rewrite Hc.
  cbn [with_heap heap].
  rewrite list_lookup_insert_eq by (by eapply lookup_lt_Some).
  cbn [set_conn_open conn_setup conn_peer]. rewrite Hs.
  unfold registry_delete. cbn [with_svc svc set_connections connections].
  apply lookup_delete_eq.
Qed.

Lemma heap_on_conn_data c m w : heap (on_conn_data c m w) = heap w.
Proof.
  unfold on_conn_data. destruct (heap w !! c) as [conn|]; [|done].
  destruct (conn_setup conn); [|done]. by destruct m.
Qed.

(** The [data] listener registers the connection under the re-keying id. *)
Lemma on_conn_data_rekeys c conn pk uname w :
  heap w !! c = Some conn -> conn_setup conn = true ->
  connections (svc (on_conn_data c (IDENTITY_EXCHANGE pk uname) w)) !! rekeyId uname
  = Some c.
Proof.
  intros Hc Hs. unfold on_conn_data. rewrite Hc, Hs.
  unfold forEachHandler, registry_set.
  cbn [emit with_svc svc set_connections connections].
  apply lookup_insert_eq.
Qed.

(** An entry that the [data] listener made under a key other than the
    transport id is still in the registry after the connection closed. *)
Lemma rekeyed_entry_survives c conn pk uname w :
  heap w !! c = Some conn -> conn_setup conn = true ->
  rekeyId uname <> conn_peer conn ->
  let w' := on_conn_close c (on_conn_data c (IDENTITY_EXCHANGE pk uname) w) in
  connections (svc w') !! (rekeyId uname) = Some c /\
  is_open w' c = false.
Proof.
  intros Hc Hs Hne w'. subst w'.
  unfold on_conn_data. rewrite Hc, Hs.
  unfold on_conn_close, forEachHandler, registry_set.
  cbn [emit with_svc heap]. rewrite Hc.
  unfold cleanup. cbn [with_heap heap].
  rewrite list_lookup_insert_eq by (by eapply lookup_lt_Some).
  cbn [set_conn_open conn_setup conn_peer]. rewrite Hs.
  unfold registry_delete, is_open. simpl.
  rewrite list_lookup_insert_eq by (by eapply lookup_lt_Some).
  split; [|done].
  rewrite lookup_delete_ne by done. apply lookup_insert_eq.
Qed.

(** *** Sample data *)

Definition alice : User :=
  {| uid := js "u1"; username := js "Alice"; publicKey := js "pkA" |}.

Definition bob : User :=
  {| uid := js "u2"; username := js "Bob"; publicKey := js "pkB" |}.

(** A transport on which no call throws. *)
Definition calm : nat -> bool := fun _ => false.

(** Alice is online and an inbound connection, announced by the transport
    under the id [remote], has opened. *)
Definition inbound_open (remote : jsstring) : World :=
  run [Init alice 0; PeerOpen (js "ST-alice"); PeerConnection remote; ConnOpen 0]
      (new_world calm).

Lemma inbound_open_heap remote :
  heap (inbound_open remote) !! 0%nat
  = Some {| conn_peer := remote; conn_open := true; conn_setup := true;
            conn_on_open := [] |}.
Proof. reflexivity. Qed.

Lemma inbound_open_registry remote :
  connections (svc (inbound_open remote)) = {[ remote := 0%nat ]}.
Proof. reflexivity. Qed.

#[local] Opaque inbound_open.

(** C7, at the failing input.  A peer whose transport id is [ST-bob]
    identifies itself as [Robert]; the [data] listener registers its
    connection a second time, under [ST-robert].  When the transport then
    signals [close], [cleanup] deletes the entry under [ST-bob] only: the
    entry under [ST-robert] still refers to the closed connection. *)
Theorem close_leaves_rekeyed_entry :
  let w := run [ConnData 0 (IDENTITY_EXCHANGE (js "pkB") (js "Robert"));
                ConnClosed 0] (inbound_open (js "ST-bob")) in
  connections (svc w) !! js "ST-bob" = None /\
  connections (svc w) !! js "ST-robert" = Some 0%nat /\
  is_open w 0 = false.
Proof.
  intros w. subst w.
  change (run [ConnData 0 (IDENTITY_EXCHANGE (js "pkB") (js "Robert"));
               ConnClosed 0] (inbound_open (js "ST-bob")))
    with (on_conn_close 0
            (on_conn_data 0 (IDENTITY_EXCHANGE (js "pkB") (js "Robert"))
               (inbound_open (js "ST-bob")))).
  pose proof (inbound_open_heap (js "ST-bob")) as Hh.
  assert (Hk : rekeyId (js "Robert") = js "ST-robert").
  { unfold rekeyId. rewrite toLowerCase_ascii; reflexivity. }
  split.
  - assert (Hd : heap (on_conn_data 0 (IDENTITY_EXCHANGE (js "pkB") (js "Robert"))
                         (inbound_open (js "ST-bob"))) !! 0%nat
                 = Some {| conn_peer := js "ST-bob"; conn_open := true;
                           conn_setup := true; conn_on_open := [] |}).
    { rewrite heap_on_conn_data. exact Hh. }
    apply (close_removes_peer_key 0 _ _ Hd eq_refl).
  - rewrite <- Hk.
    apply (rekeyed_entry_survives 0 _ (js "pkB") (js "Robert") _ Hh eq_refl).
    rewrite Hk. discriminate.
Qed.

(** C4, at the failing input.  A peer identifies itself with the username
    [" Carol "].  [init], [connectToPeer] and [send] derive the node id
    [ST-carol] for that username; the [data] listener, which lower-cases
    but does not trim, registers the connection under [ST- carol ]. *)
Theorem rekey_does_not_trim :
  let w := run [ConnData 0 (IDENTITY_EXCHANGE (js "pkC") (js " Carol "))]
               (inbound_open (js "ST-carol")) in
  toNodeId (js " Carol ") = js "ST-carol" /\
  rekeyId (js " Carol ") = js "ST- carol " /\
  connections (svc w) !! js "ST- carol " = Some 0%nat /\
  connections (svc (inbound_open (js "ST-carol"))) !! js "ST- carol " = None.
Proof.
  intros w. subst w.
  change (run [ConnData 0 (IDENTITY_EXCHANGE (js "pkC") (js " Carol "))]
              (inbound_open (js "ST-carol")))
    with (on_conn_data 0 (IDENTITY_EXCHANGE (js "pkC") (js " Carol "))
            (inbound_open (js "ST-carol"))).
  assert (Hk : rekeyId (js " Carol ") = js "ST- carol ").
  { unfold rekeyId. rewrite toLowerCase_ascii; reflexivity. }
  split; [|split; [exact Hk|split]].
  - unfold toNodeId. change (trim (js " Carol ")) with (js "Carol").
    rewrite toLowerCase_ascii; reflexivity.
  - rewrite <- Hk.
    apply (on_conn_data_rekeys 0 _ _ _ _ (inbound_open_heap (js "ST-carol")) eq_refl).
  - rewrite inbound_open_registry. by apply lookup_singleton_ne.
Qed.

(** *** No outbox *)

(** The attempts to put the envelope [m] on a connection. *)
Definition is_delivery (m : EncryptedMessage) (x : Effect) : bool :=
  match x with
  | ConnSend _ p | ConnSendThrew _ p => bool_decide (p = CHAT m)
  | _ => false
  end.

Definition deliveries (m : EncryptedMessage) (tr : list Effect) : nat :=
  length (List.filter (is_delivery m) tr).

(** The payloads parked on the connection objects, by reference: the only
    place where the service keeps a record it has not yet handed to the
    transport. *)
Definition parked (w : World) : list (list ProtocolMessage) :=
  fmap conn_on_open (heap w).

(** No connection other than [c] holds the envelope [m]. *)
Definition parked_only_at (m : EncryptedMessage) (c : nat) (w : World) : Prop :=
  forall c' l, parked w !! c' = Some l -> c' <> c -> CHAT m ∉ l.

(** [w'] has the parked payloads of [w], and on new connection objects
    only payloads other than [m]. *)
Definition extends (m : EncryptedMessage) (w w' : World) : Prop :=
  exists e, parked w' = parked w ++ e /\ Forall (fun l => CHAT m ∉ l) e.

Lemma deliveries_app m a b :
  deliveries m (a ++ b) = (deliveries m a + deliveries m b)%nat.
Proof. unfold deliveries. by rewrite List.filter_app, length_app. Qed.

Lemma deliveries_errors m ty msg l :
  deliveries m (map (fun h => CallErrorHandler h ty msg) l) = 0%nat.
Proof. induction l as [|h l IH]; simpl; done. Qed.

Lemma deliveries_handlers m p l :
  deliveries m (map (fun h => CallHandler h p) l) = 0%nat.
Proof. induction l as [|h l IH]; simpl; done. Qed.

Lemma deliveries_closes m l : deliveries m (map ConnClose l) = 0%nat.
Proof. induction l as [|h l IH]; simpl; done. Qed.

Lemma extends_refl m w : extends m w w.
Proof. exists []. by rewrite app_nil_r. Qed.

Lemma extends_eq m w w' : parked w' = parked w -> extends m w w'.
Proof. intros E. exists []. by rewrite app_nil_r. Qed.

Lemma extends_trans m w1 w2 w3 : extends m w1 w2 -> extends m w2 w3 -> extends m w1 w3.
Proof.
  intros (e1 & E1 & F1) (e2 & E2 & F2). exists (e1 ++ e2). split.
  - by rewrite E2, E1, app_assoc.
  - by apply Forall_app.
Qed.

Lemma parked_only_at_extends m c w w' :
  parked_only_at m c w -> extends m w w' -> parked_only_at m c w'.
Proof.
  intros Hc (e & E & F) c' l Hl Hne. rewrite E in Hl.
  apply lookup_app_Some in Hl as [Hl | [_ Hl]].
  - by eapply Hc.
  - rewrite Forall_forall in F. apply F. by eapply list_elem_of_lookup_2.
Qed.

Lemma parked_insert w i o o' :
  heap w !! i = Some o -> conn_on_open o' = conn_on_open o ->
  fmap conn_on_open (<[i := o']> (heap w)) = parked w.
Proof.
  intros Hi E. unfold parked. rewrite list_fmap_insert, E.
  apply list_insert_id. by rewrite list_lookup_fmap, Hi.
Qed.

(** The observation that the frame lemmas below preserve. *)
Definition outbox (m : EncryptedMessage) (w : World) : list (list ProtocolMessage) * nat :=
  (parked w, deliveries m (trace w)).

Lemma outbox_emit m es w :
  deliveries m es = 0%nat -> outbox m (emit es w) = outbox m w.
Proof.
  intros E. unfold outbox, parked. cbn [emit heap trace].
  by rewrite deliveries_app, E, Nat.add_0_r.
Qed.

Lemma outbox_forEachError m ty msg w : outbox m (forEachError ty msg w) = outbox m w.
Proof. apply outbox_emit, deliveries_errors. Qed.

Lemma outbox_forEachHandler m p w : outbox m (forEachHandler p w) = outbox m w.
Proof. apply outbox_emit, deliveries_handlers. Qed.

Lemma outbox_setupConnection m c w : outbox m (setupConnection c w) = outbox m w.
Proof.
  unfold setupConnection, outbox.
  destruct (heap w !! c) as [conn|] eqn:Hc; [|done].
  assert (E : parked (with_heap (<[c := set_conn_setup conn]>) w) = parked w).
  { unfold parked at 1. cbn [with_heap heap]. by apply (parked_insert w c conn). }
  destruct (connections (svc w) !! conn_peer conn) as [e|];
    [destruct (is_open w e)|]; try done; by rewrite E.
Qed.

Lemma outbox_init m user cb w : outbox m (init user cb w) = outbox m w.
Proof.
  unfold init. destruct (peer_alive (svc w)); [done|].
  unfold createPeer. by rewrite outbox_emit.
Qed.

Lemma outbox_handleReconnect m w : outbox m (handleReconnect w) = outbox m w.
Proof.
  unfold handleReconnect. destruct (reconnectTimeout (svc w)); [done|].
  unfold outbox, parked. cbn [heap trace].
  by rewrite deliveries_app, Nat.add_0_r.
Qed.

Lemma outbox_cleanup m c w : outbox m (cleanup c w) = outbox m w.
Proof.
  unfold cleanup. destruct (heap w !! c) as [conn|]; [|done].
  by destruct (conn_setup conn).
Qed.

Lemma outbox_on_conn_close m c w : outbox m (on_conn_close c w) = outbox m w.
Proof.
  unfold on_conn_close. destruct (heap w !! c) as [conn|] eqn:Hc; [|done].
  rewrite outbox_cleanup. unfold outbox. f_equal.
  unfold parked at 1. cbn [with_heap heap]. by apply (parked_insert w c conn).
Qed.

Lemma outbox_on_conn_data m c p w : outbox m (on_conn_data c p w) = outbox m w.
Proof.
  unfold on_conn_data. destruct (heap w !! c) as [conn|]; [|done].
  destruct (conn_setup conn); [|done].
  rewrite outbox_forEachHandler. by destruct p.
Qed.

Lemma outbox_on_peer_error m ty msg w : outbox m (on_peer_error ty msg w) = outbox m w.
Proof.
  unfold on_peer_error.
  repeat destruct (decide _); rewrite outbox_forEachError; try done.
  apply outbox_handleReconnect.
Qed.

Lemma outbox_reconnect_attempt m w : outbox m (reconnect_attempt w) = outbox m w.
Proof.
  unfold reconnect_attempt.
  set (w1 := match peer (svc w) with Some _ => _ | None => _ end).
  assert (E : outbox m w1 = outbox m w).
  { subst w1. destruct (peer (svc w)) as [p|].
    - destruct (peer_disconnected p && negb (peer_destroyed p));
        [by rewrite outbox_emit|].
      destruct (peer_destroyed p); [|done].
      destruct (myUser (svc w)); [apply outbox_init | done].
    - destruct (myUser (svc w)); [apply outbox_init | done]. }
  by rewrite <- E.
Qed.

Lemma parked_close_all cs h :
  fmap conn_on_open (foldl close_connection h cs) = fmap conn_on_open h.
Proof.
  revert h. induction cs as [|c cs IH]; intros h; simpl; [done|].
  rewrite IH. unfold close_connection.
  destruct (h !! c) as [o|] eqn:Hc; [|done].
  rewrite list_fmap_insert. apply list_insert_id.
  by rewrite list_lookup_fmap, Hc.
Qed.

Lemma outbox_destroy m w : outbox m (destroy w) = outbox m w.
Proof.
  unfold destroy, outbox, parked.
  destruct (reconnectTimeout (svc (with_svc (set_isDestroyed true) w))) as [t|];
    simpl; destruct (peer (svc w)); simpl;
    rewrite parked_close_all, ?deliveries_app, ?deliveries_closes;
    cbn [deliveries List.filter is_delivery length]; f_equal; lia.
Qed.

Lemma outbox_inv m w w' : outbox m w' = outbox m w ->
  parked w' = parked w /\ deliveries m (trace w') = deliveries m (trace w).
Proof. unfold outbox. by intros [= E1 E2]. Qed.

Lemma outbox_extends m w w' : outbox m w' = outbox m w ->
  extends m w w' /\ deliveries m (trace w') = deliveries m (trace w).
Proof. intros [E1 E2]%outbox_inv. split; [by apply extends_eq | done]. Qed.

Lemma outbox_conn_send m c p w :
  p <> CHAT m -> outbox m (conn_send c p w).2 = outbox m w.
Proof.
  intros Hp. unfold conn_send, transport_call. cbn [snd].
  rewrite outbox_emit; [done|].
  destruct (throws w (calls w)); cbn; by rewrite bool_decide_eq_false_2.
Qed.

Lemma outbox_run_on_open m c ms w :
  CHAT m ∉ ms -> outbox m (run_on_open c ms w) = outbox m w.
Proof.
  revert w. induction ms as [|p ms IH]; intros w Hn; cbn [run_on_open]; [done|].
  apply not_elem_of_cons in Hn as [Hp Hn].
  pose proof (outbox_conn_send m c p w (not_eq_sym Hp)) as E.
  destruct (conn_send c p w) as [[] w1]; cbn [snd] in E; [done|].
  by rewrite IH.
Qed.

Lemma outbox_on_conn_open m c w :
  (forall l, parked w !! c = Some l -> CHAT m ∉ l) ->
  outbox m (on_conn_open c w) = outbox m w.
Proof.
  intros Hl. unfold on_conn_open.
  destruct (heap w !! c) as [conn|] eqn:Hc; [|done].
  assert (Hn : CHAT m ∉ conn_on_open conn).
  { apply Hl. unfold parked. by rewrite list_lookup_fmap, Hc. }
  set (w0 := with_heap _ w).
  assert (E0 : outbox m w0 = outbox m w).
  { unfold outbox. f_equal. unfold parked at 1. subst w0. cbn [with_heap heap].
    by apply (parked_insert w c conn). }
  destruct (conn_setup conn).
  - destruct (myUser (svc w0)) as [u|].
    + pose proof (outbox_conn_send m c
                    (IDENTITY_EXCHANGE (publicKey u) (username u)) w0) as E.
      destruct (conn_send c _ w0) as [[] w1]; cbn [snd] in E.
      * rewrite E by done. done.
      * rewrite outbox_run_on_open by done.
        change (outbox m (registry_set (conn_peer conn) c w1)) with (outbox m w1).
        rewrite E by done. done.
    + by rewrite outbox_run_on_open.
  - by rewrite outbox_run_on_open.
Qed.

Lemma peer_connect_spec m target w :
  deliveries m (trace (peer_connect target w).2) = deliveries m (trace w) /\
  match (peer_connect target w).1 with
  | Some c => c = length (heap w) /\
              heap (peer_connect target w).2 = heap w ++ [new_connection target]
  | None => heap (peer_connect target w).2 = heap w
  end.
Proof.
  unfold peer_connect, transport_call.
  destruct (peer (svc w)); [destruct (throws w (calls w))|];
    cbn [fst snd emit with_heap heap trace];
    rewrite deliveries_app; cbn; split; (done || lia).
Qed.

Lemma extends_alloc m w w' l :
  CHAT m ∉ l -> parked w' = parked w ++ [l] -> extends m w w'.
Proof. intros Hl E. exists [l]. split; [done|]. by constructor. Qed.

Lemma connectToPeer_extends m u w :
  extends m w (connectToPeer u w) /\
  deliveries m (trace (connectToPeer u w)) = deliveries m (trace w).
Proof.
  unfold connectToPeer.
  destruct (decide _); [split; [apply extends_refl | done]|].
  destruct (match connections (svc w) !! _ with Some _ => _ | None => _ end);
    [split; [apply extends_refl | done]|].
  destruct (_ || _); [by apply outbox_extends, outbox_forEachError|].
  destruct (peer_connect_spec m (toNodeId u) w) as [Ed Eh].
  destruct (peer_connect (toNodeId u) w) as [[c|] w1]; cbn [fst snd] in *.
  - destruct Eh as [-> Eh].
    destruct (outbox_inv _ _ _ (outbox_setupConnection m (length (heap w)) w1)) as [E1 E2].
    split; [|by rewrite E2].
    apply (extends_alloc m _ _ []); [apply not_elem_of_nil|].
    rewrite E1. unfold parked. by rewrite Eh, fmap_app.
  - destruct (outbox_inv _ _ _ (outbox_forEachError m (js "connect-fail")
                  (js "Initialization of P2P channel failed.") w1)) as [E1 E2].
    split; [|by rewrite E2]. apply extends_eq. rewrite E1. unfold parked. by rewrite Eh.
Qed.

Lemma on_peer_connection_extends m remote w :
  extends m w (on_peer_connection remote w) /\
  deliveries m (trace (on_peer_connection remote w)) = deliveries m (trace w).
Proof.
  unfold on_peer_connection.
  destruct (peer (svc w)); [|split; [apply extends_refl | done]].
  set (w1 := with_heap _ w).
  destruct (outbox_inv _ _ _ (outbox_setupConnection m (length (heap w)) w1)) as [E1 E2].
  split; [|by rewrite E2].
  apply (extends_alloc m _ _ []); [apply not_elem_of_nil|].
  rewrite E1. unfold parked. subst w1. cbn [with_heap heap]. by rewrite fmap_app.
Qed.

Lemma send_extends m fuel m' w w' :
  m' <> m -> send fuel m' w = Some w' ->
  extends m w w' /\ deliveries m (trace w') = deliveries m (trace w).
Proof.
  intros Hm. revert w w'.
  induction fuel as [|fuel IH]; intros w w' E; [done|].
  rewrite send_S in E.
  destruct (negb (isOnline (svc w))).
  { apply (inj Some) in E. subst w'. by apply outbox_extends, outbox_forEachError. }
  cbv zeta in E.
  destruct (match connections (svc w) !! _ with Some _ => _ | None => _ end)
    as [conn|].
  - assert (Hp : CHAT m' <> CHAT m) by congruence.
    pose proof (outbox_conn_send m conn (CHAT m') w Hp) as Es.
    destruct (conn_send conn (CHAT m') w) as [[] w1]; cbn [snd] in Es.
    + apply IH in E as [Ex Ed].
      assert (Eo : outbox m (forEachError (js "send-fail")
                               (js "Transmission failed. Retrying...")
                               (registry_delete (toNodeId (recipientId m')) w1))
                   = outbox m w).
      { rewrite outbox_forEachError. exact Es. }
      apply outbox_extends in Eo as [Ex' Ed'].
      split; [by eapply extends_trans | by rewrite Ed].
    + apply (inj Some) in E. subst w'. by apply outbox_extends.
  - destruct (peer_connect_spec m (toNodeId (recipientId m')) w) as [Ed Eh].
    destruct (peer_connect (toNodeId (recipientId m')) w) as [[c|] w1];
      cbn [fst snd] in *; apply (inj Some) in E; subst w'.
    + destruct Eh as [-> Eh].
      destruct (outbox_inv _ _ _ (outbox_setupConnection m (length (heap w)) w1)) as [E1 E2].
      cbn [with_heap trace]. split; [|by rewrite E2].
      apply (extends_alloc m _ _ [CHAT m']).
      { rewrite list_elem_of_singleton. congruence. }
      unfold parked at 1. cbn [with_heap heap].
      assert (Hlen : length (heap (setupConnection (length (heap w)) w1))
                     = length (heap w1)) by apply setupConnection_frame.
      assert (Hlast : exists o, heap (setupConnection (length (heap w)) w1)
                                  !! length (heap w) = Some o
                                /\ conn_on_open o = []).
      { assert (Hp : parked (setupConnection (length (heap w)) w1)
                     !! length (heap w) = Some []).
        { rewrite E1. unfold parked. rewrite Eh, fmap_app.
          rewrite lookup_app_r by (by rewrite length_fmap).
          by rewrite length_fmap, Nat.sub_diag. }
        unfold parked in Hp. rewrite list_lookup_fmap in Hp.
        destruct (heap (setupConnection (length (heap w)) w1) !! length (heap w))
          as [o|]; [|done].
        exists o. split; [done|]. by injection Hp. }
      destruct Hlast as (o & Ho & Hoo). rewrite Ho.
      rewrite list_fmap_insert. cbn [add_conn_on_open conn_on_open].
      rewrite Hoo. cbn [app].
      change (fmap conn_on_open (heap (setupConnection (length (heap w)) w1)))
        with (parked (setupConnection (length (heap w)) w1)).
      rewrite E1. unfold parked. rewrite Eh, fmap_app. cbn [fmap list_fmap new_connection conn_on_open].
      replace (length (heap w)) with (length (fmap conn_on_open (heap w)) + 0)%nat
        by (rewrite length_fmap; lia).
      by rewrite insert_app_r.
    + destruct (outbox_inv _ _ _ (outbox_forEachError m (js "send-fail")
                    (js "Could not reach node " ++ recipientId m') w1)) as [E1 E2].
      split; [|by rewrite E2]. apply extends_eq. rewrite E1. unfold parked. by rewrite Eh.
Qed.

(** Events other than the opening of connection [c] and a further call of
    [send] with the envelope [m]. *)
Definition keeps_quiet (m : EncryptedMessage) (c : nat) (e : Event) : bool :=
  match e with
  | ConnOpen c' => negb (Nat.eqb c' c)
  | Send m' => negb (bool_decide (m' = m))
  | _ => true
  end.

Lemma step_quiet m c e w :
  keeps_quiet m c e = true -> parked_only_at m c w ->
  extends m w (step e w) /\
  deliveries m (trace (step e w)) = deliveries m (trace w).
Proof.
  intros He Hp. destruct e; cbn [step keeps_quiet] in *.
  - apply outbox_extends, outbox_init.
  - apply connectToPeer_extends.
  - apply negb_true_iff, bool_decide_eq_false in He.
    destruct (send 2 message w) as [w'|] eqn:E.
    + by eapply send_extends.
    + split; [apply extends_refl | done].
  - apply outbox_extends, outbox_destroy.
  - by apply outbox_extends.
  - by apply outbox_extends.
  - by apply outbox_extends.
  - by apply outbox_extends.
  - apply outbox_extends. unfold on_peer_open.
    destruct (peer (svc w)); [|done]. by rewrite outbox_emit.
  - apply on_peer_connection_extends.
  - apply outbox_extends, outbox_on_peer_error.
  - apply outbox_extends. unfold on_peer_disconnected.
    destruct (peer (svc w)); [|done]. by rewrite outbox_handleReconnect.
  - apply outbox_extends. unfold on_peer_close.
    destruct (peer (svc w)); [|done].
    cbn [with_svc svc set_isOnline set_peer isDestroyed].
    destruct (negb (isDestroyed (svc w))); [|done].
    by rewrite outbox_handleReconnect.
  - apply outbox_extends. by destruct (peer (svc w)).
  - apply outbox_extends, outbox_on_conn_open.
    intros l Hl. apply (Hp c0 l Hl).
    apply negb_true_iff, Nat.eqb_neq in He. done.
  - apply outbox_extends, outbox_on_conn_data.
  - apply outbox_extends, outbox_on_conn_close.
  - apply outbox_extends, outbox_cleanup.
  - apply outbox_extends. unfold fire_timer.
    destruct (timer_pending t w); [|done].
    by rewrite outbox_reconnect_attempt.
Qed.

Lemma run_quiet m c es w :
  forallb (keeps_quiet m c) es = true -> parked_only_at m c w ->
  deliveries m (trace (run es w)) = deliveries m (trace w).
Proof.
  revert w. induction es as [|e es IH]; intros w Hq Hp; [done|].
  cbn [forallb] in Hq. apply andb_prop in Hq as [He Hq].
  change (run (e :: es) w) with (run es (step e w)).
  destruct (step_quiet m c e w He Hp) as [Hx Hd].
  rewrite IH; [done | done |]. by eapply parked_only_at_extends.
Qed.

Lemma trace_peer_unavailable msg w :
  trace (step (PeerError (js "peer-unavailable") msg) w)
  = trace w ++ error_calls (js "peer-unavailable")
                 (js "Node " ++ remove_first (js "ST-") msg
                    ++ js " is currently offline or unreachable.") w.
Proof.
  cbn [step]. unfold on_peer_error.
  destruct (decide (js "peer-unavailable" = js "peer-unavailable")); [done|done].
Qed.

(** C9.  The local node is Online, no open connection to the recipient is
    registered and the transport accepts the connect request.  Then [send]
    changes nothing in the service: it asks the transport for a connection
    and leaves the envelope with the [open] listener of that connection
    object, nowhere else.  When the transport reports [peer-unavailable],
    every registered error handler is called with that error type.  And as
    long as that connection does not open (and the application does not
    call [send] with the same envelope again), no event whatever, another
    connection to the recipient opening included, makes the service hand
    the envelope to the transport. *)
Theorem offline_recipient_not_queued message w :
  isOnline (svc w) = true ->
  is_Some (peer (svc w)) ->
  (forall conn, connections (svc w) !! toNodeId (recipientId message) = Some conn ->
                is_open w conn = false) ->
  throws w (calls w) = false ->
  (forall l, l ∈ parked w -> CHAT message ∉ l) ->
  let target := toNodeId (recipientId message) in
  let c := length (heap w) in
  exists w1,
    send 2 message w = Some w1 /\
    svc w1 = svc w /\
    trace w1 = trace w ++ [PeerConnect target c] /\
    parked w1 = parked w ++ [[CHAT message]] /\
    (forall es msg,
       trace (step (PeerError (js "peer-unavailable") msg) (run es w1))
       = trace (run es w1)
         ++ error_calls (js "peer-unavailable")
              (js "Node " ++ remove_first (js "ST-") msg
                 ++ js " is currently offline or unreachable.") (run es w1)) /\
    (forall es, forallb (keeps_quiet message c) es = true ->
       deliveries message (trace (run es w1)) = deliveries message (trace w)).
Proof.
  intros Ho [p Hp] Hc Ht Hclean target c.
  rewrite send_S. rewrite Ho. cbn [negb]. cbv zeta. fold target.
  assert (Hu : match connections (svc w) !! target with
               | Some conn => if is_open w conn then Some conn else None
               | None => None
               end = None).
  { destruct (connections (svc w) !! target) as [conn|] eqn:E; [|done].
    by rewrite (Hc conn E). }
  rewrite Hu.
  unfold peer_connect, transport_call. rewrite Hp, Ht. cbn [heap]. fold c.
  set (w0 := emit _ _).
  destruct (setupConnection_frame c w0) as (Es & Etr & _).
  destruct (outbox_inv message _ _ (outbox_setupConnection message c w0)) as [Ep _].
  assert (Ep0 : parked w0 = parked w ++ [[]]).
  { unfold parked. subst w0. cbn [emit with_heap heap]. by rewrite fmap_app. }
  assert (Hlast : exists o, heap (setupConnection c w0) !! c = Some o
                            /\ conn_on_open o = []).
  { assert (Hl : parked (setupConnection c w0) !! c = Some []).
    { rewrite Ep, Ep0. rewrite lookup_app_r by (unfold parked, c; by rewrite length_fmap).
      unfold parked, c. by rewrite length_fmap, Nat.sub_diag. }
    unfold parked in Hl. rewrite list_lookup_fmap in Hl.
    destruct (heap (setupConnection c w0) !! c) as [o|]; [|done].
    exists o. split; [done|]. by injection Hl. }
  destruct Hlast as (o & Hoh & Hoo).
  eexists. split; [reflexivity|].
  assert (Hpk : parked (with_heap (fun h =>
                   match h !! c with
                   | Some o => <[c := add_conn_on_open (CHAT message) o]> h
                   | None => h
                   end) (setupConnection c w0)) = parked w ++ [[CHAT message]]).
  { unfold parked at 1. cbn [with_heap heap]. rewrite Hoh.
    rewrite list_fmap_insert. cbn [add_conn_on_open conn_on_open]. rewrite Hoo.
    change (fmap conn_on_open (heap (setupConnection c w0)))
      with (parked (setupConnection c w0)).
    rewrite Ep, Ep0. cbn [app].
    replace c with (length (parked w) + 0)%nat
      by (unfold parked, c; rewrite length_fmap; lia).
    by rewrite insert_app_r. }
  split; [cbn [with_heap svc]; by rewrite Es|].
  split; [cbn [with_heap trace]; by rewrite Etr|]. split; [exact Hpk|].
  split; [intros es msg; apply trace_peer_unavailable|].
  intros es Hq. rewrite (run_quiet message c es _ Hq).
  - cbn [with_heap trace]. rewrite Etr. subst w0. cbn [emit trace].
    rewrite deliveries_app.
    cbn [deliveries List.filter is_delivery length with_heap trace].
    apply Nat.add_0_r.
  - intros c' l Hl Hne. rewrite Hpk in Hl.
    apply lookup_app_Some in Hl as [Hl | [Hge Hl]].
    + apply Hclean. by eapply list_elem_of_lookup_2.
    + exfalso. apply Hne.
      assert (Hlen : length (parked w) = c) by (unfold parked, c; by rewrite length_fmap).
      rewrite Hlen in *.
      destruct (c' - c)%nat as [|k] eqn:Ek; [lia|]. by destruct k.
Qed.

End Session.

(* ===================================================================== *)
(** ** The session properties on concrete runs *)
(* ===================================================================== *)

(** An envelope from Alice to Bob. *)
Definition hello : EncryptedMessage :=
  {| mid := js "m1"; senderId := js "Alice"; recipientId := js "Bob";
     isGroup := false; encryptedContent := js "Y2lwaGVy";
     encryptedSessionKey := js "a2V5"; iv := js "aXY="; hmac := js "GCM-SECURE";
     timestamp := 1700000000000 |}.

(** Alice initialised; the transport has not yet reported [open]. *)
Definition connecting : World := run [Init alice 0] (new_world calm).

Lemma init_live_peer_noop_witness :
  init bob EmptyCallback connecting = connecting /\
  forall cb es, run es (step (Init bob cb) connecting) = run es connecting.
Proof. exact (init_live_peer_noop bob EmptyCallback connecting eq_refl). Defined.

(** Alice online, then the transport drops: one timer is pending. *)
Definition dropped : World :=
  run [Init alice 0; PeerOpen (js "ST-alice"); PeerDisconnected] (new_world calm).

Lemma dropped_reachable : reachable dropped.
Proof. exists calm. eexists. reflexivity. Qed.

Lemma dropped_timers : timers dropped = [(1%nat, 1000%Q)].
Proof. reflexivity. Qed.

(** Alice online; two drops, each followed by its reconnect attempt. *)
Definition online : World :=
  run [Init alice 0; PeerOpen (js "ST-alice")] (new_world calm).

Definition two_attempts : list Event :=
  [PeerDisconnected; TimerFire 1; PeerDisconnected; TimerFire 2].

Lemma online_floor : reconnectDelay (svc online) == 1000.
Proof. reflexivity. Qed.

Lemma online_reachable : reachable online.
Proof. exists calm. eexists. reflexivity. Qed.

(** While Alice is online no timer is pending and no handle is kept: each
    of the three drop events schedules one timer of 1000 ms.  Once it is
    pending, a further drop changes nothing. *)
Lemma one_reconnect_timer_witness :
  timers online = [] /\
  timers (step PeerDisconnected online) = [(1%nat, 1000%Q)] /\
  timers (step PeerClose online) = [(1%nat, 1000%Q)] /\
  timers (step (PeerError (js "network") (js "Lost connection to server.")) online)
  = [(1%nat, 1000%Q)] /\
  timers dropped = [(1%nat, 1000%Q)] /\
  recon (step PeerDisconnected dropped) = recon dropped /\
  recon (step PeerClose dropped) = recon dropped.
Proof.
  destruct (one_reconnect_timer online online_reachable) as (_ & Ho & _).
  destruct (one_reconnect_timer dropped dropped_reachable) as (_ & Hd & _).
  assert (Hp : is_Some (peer (svc online))) by (eexists; reflexivity).
  destruct (Ho PeerDisconnected eq_refl) as (_ & _ & _ & H1).
  destruct (Ho PeerClose eq_refl) as (_ & _ & _ & H2).
  destruct (Ho (PeerError (js "network") (js "Lost connection to server.")) eq_refl)
    as (_ & _ & _ & H3).
  destruct (Hd PeerDisconnected eq_refl) as (_ & H4 & _).
  destruct (Hd PeerClose eq_refl) as (_ & H5 & _).
  split; [exact (proj1 (H1 eq_refl Hp))|].
  split; [exact (proj1 (proj2 (H1 eq_refl Hp)))|].
  split; [exact (proj1 (proj2 (H2 eq_refl Hp)))|].
  split; [exact (proj1 (proj2 (H3 eq_refl Hp)))|].
  split; [reflexivity|].
  split; [apply H4; discriminate | apply H5; discriminate].
Defined.

(** Alice signs out while online: [destroy] runs, no timer was ever
    scheduled. *)
Definition signed_out : World :=
  run [Init alice 0; PeerOpen (js "ST-alice"); Destroy] (new_world calm).

(** The transport then signals [close] on the destroyed peer.  No timer
    is pending and the service keeps no handle, yet this drop schedules
    none: the [close] listener calls [handleReconnect] only when
    [isDestroyed] is unset. *)
Lemma close_after_destroy_schedules_nothing :
  reachable signed_out /\
  timers signed_out = [] /\ reconnectTimeout (svc signed_out) = None /\
  is_Some (peer (svc signed_out)) /\ isDestroyed (svc signed_out) = true /\
  is_drop PeerClose = true /\
  timers (step PeerClose signed_out) = [] /\
  trace (step PeerClose signed_out) = trace signed_out.
Proof.
  split; [exists calm; eexists; reflexivity|].
  split; [by vm_compute|]. split; [by vm_compute|].
  split; [eexists; by vm_compute|]. split; [by vm_compute|].
  split; [reflexivity|]. split; by vm_compute.
Qed.

Lemma two_attempts_count : attempts two_attempts online = 2%nat.
Proof. reflexivity. Qed.

Lemma reconnect_backoff_witness :
  reconnectDelay (svc (run two_attempts online))
    == Qmin (1000 * 1.5 ^ Z.of_nat (attempts two_attempts online)) 30000 /\
  (reconnectTimeout (svc (run two_attempts online)) = None ->
     timers (handleReconnect (run two_attempts online))
     = timers (run two_attempts online)
       ++ [(next_timer (run two_attempts online),
            reconnectDelay (svc (run two_attempts online)))]) /\
  (forall id, is_Some (peer (svc (run two_attempts online))) ->
     reconnectDelay (svc (step (PeerOpen id) (run two_attempts online))) = 1000%Q).
Proof. exact (reconnect_backoff online two_attempts online_floor eq_refl). Defined.

Lemma two_attempts_delay : reconnectDelay (svc (run two_attempts online)) == 2250.
Proof. reflexivity. Qed.

(** Alice online with an open connection to Bob, on a transport whose
    second call (the first [conn.send] of a chat record) throws. *)
Definition second_call_throws : nat -> bool := fun n => Nat.eqb n 1.

Definition talking : World :=
  run [Init alice 0; OnError 7; PeerOpen (js "ST-alice");
       PeerConnection (js "ST-bob"); ConnOpen 0]
      (new_world second_call_throws).

Lemma talking_online : isOnline (svc talking) = true.
Proof. reflexivity. Qed.

Lemma talking_registry :
  connections (svc talking) !! toNodeId (recipientId hello) = Some 0%nat.
Proof. vm_compute. reflexivity. Qed.

Lemma talking_open : is_open talking 0 = true.
Proof. reflexivity. Qed.

Lemma talking_throws : throws talking (calls talking) = true.
Proof. reflexivity. Qed.

Lemma send_retries_once_witness :
  exists w' retry,
    send 2 hello talking = Some w' /\
    connections (svc w')
    = delete (toNodeId (recipientId hello)) (connections (svc talking)) /\
    trace w' = trace talking ++ [ConnSendThrew 0 (CHAT hello)]
               ++ error_calls (js "send-fail") (js "Transmission failed. Retrying...")
                    talking
               ++ retry /\
    (retry = [PeerConnect (toNodeId (recipientId hello)) (length (heap talking))] \/
     retry = PeerConnectThrew (toNodeId (recipientId hello))
             :: error_calls (js "send-fail")
                  (js "Could not reach node " ++ recipientId hello) talking) /\
    (calls w' <= calls talking + 2)%nat.
Proof.
  exact (proj2 (proj2 (send_retries_once hello talking)) 0%nat
           talking_online talking_registry talking_open talking_throws).
Defined.

(** Alice online, one error handler registered, no connection. *)
Definition alone : World :=
  run [Init alice 0; OnError 7; PeerOpen (js "ST-alice")] (new_world calm).

Lemma alone_no_connection conn :
  connections (svc alone) !! toNodeId (recipientId hello) = Some conn ->
  is_open alone conn = false.
Proof.
  change (connections (svc alone)) with (∅ : gmap jsstring nat).
  by rewrite lookup_empty.
Qed.

Lemma alone_nothing_parked l : l ∈ parked alone -> CHAT hello ∉ l.
Proof. change (parked alone) with (@nil (list ProtocolMessage)). by intros ?%elem_of_nil. Qed.

Lemma offline_recipient_not_queued_witness :
  exists w1,
    send 2 hello alone = Some w1 /\
    svc w1 = svc alone /\
    trace w1 = trace alone
               ++ [PeerConnect (toNodeId (recipientId hello)) (length (heap alone))] /\
    parked w1 = parked alone ++ [[CHAT hello]] /\
    (forall es msg,
       trace (step (PeerError (js "peer-unavailable") msg) (run es w1))
       = trace (run es w1)
         ++ error_calls (js "peer-unavailable")
              (js "Node " ++ remove_first (js "ST-") msg
                 ++ js " is currently offline or unreachable.") (run es w1)) /\
    (forall es, forallb (keeps_quiet hello (length (heap alone))) es = true ->
       deliveries hello (trace (run es w1)) = deliveries hello (trace alone)).
Proof.
  exact (offline_recipient_not_queued hello alone eq_refl
           (ex_intro _ _ eq_refl) alone_no_connection eq_refl alone_nothing_parked).
Defined.

(** Bob comes back: an inbound connection from him opens and identifies
    itself.  Alice's error handler has heard of the failure; the envelope
    was never handed to the transport. *)
Lemma offline_then_reachable :
  let w := run [Send hello; PeerError (js "peer-unavailable")
                             (js "Could not connect to peer ST-bob");
                PeerConnection (js "ST-bob"); ConnOpen 1;
                ConnData 1 (IDENTITY_EXCHANGE (js "pkB") (js "Bob"))] alone in
  trace w =
  [NewPeer (js "ST-alice"); CallOnReady (AppCallback 0) (js "ST-alice");
   PeerConnect (js "ST-bob") 0;
   CallErrorHandler 7 (js "peer-unavailable")
     (js "Node Could not connect to peer bob is currently offline or unreachable.");
   ConnSend 1 (IDENTITY_EXCHANGE (js "pkA") (js "Alice"))].
Proof. vm_compute. reflexivity. Qed.

(* ===================================================================== *)
(** ** Errors and byte buffers *)
(* ===================================================================== *)

(** The exceptions that the platform calls of [cryptoService.ts] throw:
    four kinds of [DOMException], and the [RangeError] of the engine. *)
Inductive DOMException :=
| InvalidCharacterError
| OperationError
| DataError
| InvalidAccessError
| RangeError.

(** A call takes a bounded number of arguments; the bound depends on the
    engine.  The spread [f(...array)] of an array with more elements
    throws [RangeError].  Engines in use accept tens of thousands of
    arguments (JavaScriptCore 65536); the properties below rely on
    4096. *)
Class Engine := {
  max_arguments : N;
  max_arguments_min : 4096 <= max_arguments
}.

(** The elements of a buffer can be spread into one call. *)
Definition fits `{Engine} (buffer : bytes) : Prop :=
  N.of_nat (length buffer) <= max_arguments.

Inductive result (A : Type) :=
| Ok (a : A)
| Err (e : DOMException).
Arguments Ok {A} a.
Arguments Err {A} e.

(** The elements of a [Uint8Array]. *)
Definition is_bytes (bs : bytes) : bool := forallb (fun b => b <? 256) bs.

Lemma is_bytes_app a b : is_bytes (a ++ b) = is_bytes a && is_bytes b.
Proof. apply forallb_app. Qed.

Lemma is_bytes_lt bs b : is_bytes bs = true -> In b bs -> b < 256.
Proof.
  unfold is_bytes. rewrite forallb_forall. intros Hb Hi.
  apply N.ltb_lt. by apply Hb.
Qed.

Ltac Zify.zify_post_hook ::= Z.to_euclidean_division_equations.

(* ===================================================================== *)
(** ** Base64 ([btoa], [atob]) *)
(* ===================================================================== *)

Definition b64_alphabet : jsstring :=
  js "ABCDEFGHIJKLMNOPQRSTUVWXYZabcdefghijklmnopqrstuvwxyz0123456789+/".

Definition b64_char (i : N) : N := nth (N.to_nat i) b64_alphabet 0.

Definition b64_index (c : N) : option N :=
  if (65 <=? c) && (c <=? 90) then Some (c - 65)
  else if (97 <=? c) && (c <=? 122) then Some (c - 71)
  else if (48 <=? c) && (c <=? 57) then Some (c + 4)
  else if c =? 43 then Some 62
  else if c =? 47 then Some 63
  else None.

(** The 6-bit groups of a byte sequence, the last one filled with zero
    bits (RFC 4648, section 4). *)
Fixpoint sextets (bs : bytes) : list N :=
  match bs with
  | [] => []
  | [a] => [a / 4; (a mod 4) * 16]
  | [a; b] => [a / 4; (a mod 4) * 16 + b / 16; (b mod 16) * 4]
  | a :: b :: c :: rest =>
      a / 4 :: (a mod 4) * 16 + b / 16 :: (b mod 16) * 4 + c / 64 :: c mod 64
        :: sextets rest
  end.

(** The ['='] characters that complete the last group of four. *)
Definition padding (n : nat) : jsstring :=
  match (n mod 3)%nat with
  | 1%nat => [61; 61]
  | 2%nat => [61]
  | _ => []
  end.

Definition base64_encode (bs : bytes) : jsstring :=
  map b64_char (sextets bs) ++ padding (length bs).

(** [btoa(s)]: throws on a code unit above U+00FF. *)
Definition btoa (s : jsstring) : result jsstring :=
  if forallb (fun c => c <=? 255) s then Ok (base64_encode s)
  else Err InvalidCharacterError.

Definition is_ascii_whitespace (c : N) : bool :=
  existsb (N.eqb c) [9; 10; 12; 13; 32].

(** One or two trailing ['='] are dropped. *)
Definition strip_padding (s : jsstring) : jsstring :=
  match rev s with
  | 61 :: 61 :: r => rev r
  | 61 :: r => rev r
  | _ => s
  end.

(** Bytes from 6-bit groups; the bits left over at the end are
    discarded. *)
Fixpoint unsextets (l : list N) : bytes :=
  match l with
  | a :: b :: c :: d :: rest =>
      a * 4 + b / 16 :: (b mod 16) * 16 + c / 4 :: (c mod 4) * 64 + d
        :: unsextets rest
  | [a; b; c] => [a * 4 + b / 16; (b mod 16) * 16 + c / 4]
  | [a; b] => [a * 4 + b / 16]
  | _ => []
  end.

Fixpoint b64_indices (s : jsstring) : option (list N) :=
  match s with
  | [] => Some []
  | c :: s' =>
      match b64_index c, b64_indices s' with
      | Some i, Some l => Some (i :: l)
      | _, _ => None
      end
  end.

(** [atob(data)]: the forgiving-base64 decode of the HTML standard. *)
Definition atob (data : jsstring) : result jsstring :=
  let s := List.filter (fun c => negb (is_ascii_whitespace c)) data in
  let s := if (length s mod 4 =? 0)%nat then strip_padding s else s in
  if (length s mod 4 =? 1)%nat then Err InvalidCharacterError
  else
    match b64_indices s with
    | Some l => Ok (unsextets l)
    | None => Err InvalidCharacterError
    end.

(** [bufferToBase64]: [btoa(String.fromCharCode(...new Uint8Array(buffer)))].
    The bytes of the buffer are the arguments of one call. *)
Definition bufferToBase64 `{Engine} (buffer : bytes) : result jsstring :=
  if N.of_nat (length buffer) <=? max_arguments then btoa buffer
  else Err RangeError.

(** [base64ToBuffer]: [atob], then one byte per character. *)
Definition base64ToBuffer (base64 : jsstring) : result bytes :=
  match atob base64 with
  | Ok binaryString => Ok (map (fun c => c mod 256) binaryString)
  | Err e => Err e
  end.

Lemma list_ind3 {A} (P : list A -> Prop) :
  P [] -> (forall a, P [a]) -> (forall a b, P [a; b]) ->
  (forall a b c l, P l -> P (a :: b :: c :: l)) ->
  forall l, P l.
Proof.
  intros H0 H1 H2 H3.
  assert (Hall : forall l, P l /\ (forall a, P (a :: l)) /\ (forall a b, P (a :: b :: l))).
  { induction l as [|x l (IH0 & IH1 & IH2)]; [by auto|].
    split; [apply IH1|]. split; [intros a; apply IH2|]. intros a b. by apply H3. }
  intros l. apply Hall.
Qed.

Lemma b64_index_char i : i < 64 -> b64_index (b64_char i) = Some i.
Proof.
  intros Hi. rewrite <- (N2Nat.id i) at 2. unfold b64_char.
  assert (Hn : (N.to_nat i < 64)%nat) by lia.
  clear Hi. revert Hn. generalize (N.to_nat i). clear i. intros n Hn.
  do 64 (destruct n as [|n]; [reflexivity|]). lia.
Qed.

Lemma b64_char_plain i :
  i < 64 -> b64_char i <> 61 /\ is_ascii_whitespace (b64_char i) = false.
Proof.
  intros Hi. unfold b64_char.
  assert (Hn : (N.to_nat i < 64)%nat) by lia.
  clear Hi. revert Hn. generalize (N.to_nat i). clear i. intros n Hn.
  do 64 (destruct n as [|n]; [by split|]). lia.
Qed.

Definition is_sextets (l : list N) : Prop := Forall (fun i => i < 64) l.

Lemma sextets_range bs : is_bytes bs = true -> is_sextets (sextets bs).
Proof.
  unfold is_sextets. induction bs as [| a | a b | a b c l IH] using list_ind3;
    cbn [sextets is_bytes forallb]; rewrite ?andb_true_iff, ?N.ltb_lt;
    intros H; repeat constructor; try lia.
  apply IH. tauto.
Qed.

Lemma unsextets_sextets bs : is_bytes bs = true -> unsextets (sextets bs) = bs.
Proof.
  induction bs as [| a | a b | a b c l IH] using list_ind3;
    cbn [sextets unsextets is_bytes forallb]; rewrite ?andb_true_iff, ?N.ltb_lt;
    intros H.
  - done.
  - f_equal. lia.
  - f_equal; [lia|]. f_equal. lia.
  - rewrite IH by tauto. f_equal; [lia|]. f_equal; [lia|]. f_equal. lia.
Qed.

Lemma b64_indices_chars l :
  is_sextets l -> b64_indices (map b64_char l) = Some l.
Proof.
  induction 1 as [|i l Hi Hl IH]; cbn [map b64_indices]; [done|].
  by rewrite b64_index_char, IH.
Qed.

Lemma length_sextets bs :
  length (sextets bs)
  = (4 * (length bs / 3)
     + match (length bs mod 3)%nat with 0 => 0 | 1 => 2 | _ => 3 end)%nat.
Proof.
  induction bs as [| a | a b | a b c l IH] using list_ind3; try reflexivity.
  cbn [sextets length]. rewrite IH.
  set (n := length l).
  replace (S (S (S n))) with (n + 1 * 3)%nat by lia.
  rewrite Nat.div_add, Nat.Div0.mod_add by lia. lia.
Qed.

Lemma rev_chars_head l :
  is_sextets l ->
  match rev (map b64_char l) with
  | [] => True
  | c :: _ => c <> 61
  end.
Proof.
  intros Hl. destruct (rev (map b64_char l)) as [|c r] eqn:E; [done|].
  assert (Hin : In c (map b64_char l)).
  { apply in_rev. rewrite E. by left. }
  apply in_map_iff in Hin as (i & <- & Hi).
  unfold is_sextets in Hl. rewrite Forall_forall in Hl.
  apply b64_char_plain, Hl. by apply list_elem_of_In.
Qed.

Lemma strip_padding_encode bs :
  is_bytes bs = true -> strip_padding (base64_encode bs) = map b64_char (sextets bs).
Proof.
  intros Hb. pose proof (rev_chars_head _ (sextets_range bs Hb)) as Hh.
  unfold base64_encode, strip_padding, padding.
  assert (Hne : (length bs mod 3 <> 0)%nat -> sextets bs <> []).
  { intros Hm E. apply (f_equal (@length N)) in E. rewrite length_sextets in E.
    cbn [length] in E. destruct (length bs mod 3)%nat as [|[|k]]; lia. }
  destruct (length bs mod 3)%nat as [|[|[|k]]] eqn:Em.
  - rewrite app_nil_r.
    destruct (rev (map b64_char (sextets bs))) as [|c r]; [done|].
    destruct (N.eq_dec c 61) as [->|Hc]; [done|].
    destruct c as [|p]; [done|].
    do 6 (destruct p as [p|p|]; try done).
  - rewrite rev_app_distr. cbn [rev app]. by rewrite rev_involutive.
  - rewrite rev_app_distr. cbn [rev app].
    destruct (rev (map b64_char (sextets bs))) as [|c r] eqn:E.
    + exfalso. apply Hne; [lia|].
      apply (f_equal (@rev N)) in E. rewrite rev_involutive in E.
      by apply map_eq_nil in E.
    + destruct (N.eq_dec c 61) as [->|Hc]; [done|].
      rewrite <- E, rev_involutive.
      destruct c as [|p]; [done|].
      do 6 (destruct p as [p|p|]; try done).
  - pose proof (Nat.mod_upper_bound (length bs) 3). lia.
Qed.

Lemma no_whitespace_encode bs :
  is_bytes bs = true ->
  List.filter (fun c => negb (is_ascii_whitespace c)) (base64_encode bs)
  = base64_encode bs.
Proof.
  intros Hb. apply forallb_filter_id. unfold base64_encode.
  rewrite forallb_app. apply andb_true_iff. split.
  - pose proof (sextets_range bs Hb) as Hs. unfold is_sextets in Hs.
    induction Hs as [|i l Hi Hl IH]; cbn [map forallb]; [done|].
    rewrite IH. by rewrite (proj2 (b64_char_plain i Hi)).
  - unfold padding. by destruct (length bs mod 3)%nat as [|[|[|k]]].
Qed.

Lemma length_encode bs : (length (base64_encode bs) mod 4 = 0)%nat.
Proof.
  unfold base64_encode, padding.
  rewrite length_app, length_map, length_sextets.
  pose proof (Nat.mod_upper_bound (length bs) 3).
  set (q := (length bs / 3)%nat).
  destruct (length bs mod 3)%nat as [|[|[|k]]]; cbn [length]; [| | |lia].
  - replace (4 * q + 0 + 0)%nat with (0 + q * 4)%nat by lia.
    by rewrite Nat.Div0.mod_add.
  - replace (4 * q + 2 + 2)%nat with (0 + (q + 1) * 4)%nat by lia.
    by rewrite Nat.Div0.mod_add.
  - replace (4 * q + 3 + 1)%nat with (0 + (q + 1) * 4)%nat by lia.
    by rewrite Nat.Div0.mod_add.
Qed.

(** A byte sequence comes back from its Base64 text. *)
Lemma atob_encode bs : is_bytes bs = true -> atob (base64_encode bs) = Ok bs.
Proof.
  intros Hb. unfold atob. rewrite no_whitespace_encode by done.
  rewrite length_encode. cbn [Nat.eqb].
  rewrite strip_padding_encode by done.
  assert (Hl : (length (map b64_char (sextets bs)) mod 4 =? 1)%nat = false).
  { rewrite length_map, length_sextets. apply Nat.eqb_neq.
    pose proof (Nat.mod_upper_bound (length bs) 3).
    set (q := (length bs / 3)%nat).
    destruct (length bs mod 3)%nat as [|[|[|k]]]; [| | |lia].
    - replace (4 * q + 0)%nat with (0 + q * 4)%nat by lia.
      by rewrite Nat.Div0.mod_add.
    - replace (4 * q + 2)%nat with (2 + q * 4)%nat by lia.
      by rewrite Nat.Div0.mod_add.
    - replace (4 * q + 3)%nat with (3 + q * 4)%nat by lia.
      by rewrite Nat.Div0.mod_add. }
  rewrite Hl, b64_indices_chars by (by apply sextets_range).
  by rewrite unsextets_sextets.
Qed.

Lemma is_bytes_le bs : forallb (fun c => c <=? 255) bs = is_bytes bs.
Proof.
  unfold is_bytes. induction bs as [|c bs IH]; cbn [forallb]; [done|].
  rewrite IH. f_equal. destruct (N.leb_spec c 255), (N.ltb_spec c 256); lia.
Qed.

Lemma bufferToBase64_bytes `{Engine} buffer :
  is_bytes buffer = true -> fits buffer ->
  bufferToBase64 buffer = Ok (base64_encode buffer).
Proof.
  intros Hb Hf. unfold bufferToBase64, btoa.
  rewrite (proj2 (N.leb_le _ _) Hf). by rewrite is_bytes_le, Hb.
Qed.

Lemma bufferToBase64_too_long `{Engine} buffer :
  ~ fits buffer -> bufferToBase64 buffer = Err RangeError.
Proof.
  intros Hf. unfold bufferToBase64.
  destruct (N.leb_spec (N.of_nat (length buffer)) max_arguments); [done | done].
Qed.

(** Buffers of at most 4096 bytes fit on every engine. *)
Lemma fits_small `{Engine} buffer : (length buffer <= 4096)%nat -> fits buffer.
Proof. intros Hl. unfold fits. pose proof max_arguments_min. lia. Qed.

Lemma map_mod_bytes bs : is_bytes bs = true -> map (fun c => c mod 256) bs = bs.
Proof.
  induction bs as [|b bs IH]; cbn [map is_bytes forallb]; [done|].
  rewrite andb_true_iff, N.ltb_lt. intros [Hb Hbs].
  rewrite N.mod_small by done. f_equal. by apply IH.
Qed.

(** Round trip of the two buffer helpers of [cryptoService.ts]. *)
Lemma base64_roundtrip `{Engine} buffer :
  is_bytes buffer = true -> fits buffer ->
  exists s, bufferToBase64 buffer = Ok s /\ base64ToBuffer s = Ok buffer.
Proof.
  intros Hb Hf. exists (base64_encode buffer). split.
  - by apply bufferToBase64_bytes.
  - unfold base64ToBuffer. rewrite atob_encode by done.
    by rewrite map_mod_bytes.
Qed.

(* ===================================================================== *)
(** ** UTF-8 ([TextEncoder], [TextDecoder]) *)
(* ===================================================================== *)

(** Code units of a JavaScript string. *)
Definition is_string (s : jsstring) : bool := forallb (fun c => c <? 65536) s.

Definition is_lead (c : N) : bool := (0xD800 <=? c) && (c <=? 0xDBFF).
Definition is_trail (c : N) : bool := (0xDC00 <=? c) && (c <=? 0xDFFF).

(** [String.prototype.isWellFormed]: no unpaired surrogate. *)
Fixpoint isWellFormed (s : jsstring) : bool :=
  match s with
  | [] => true
  | c :: s' =>
      if is_lead c then
        match s' with
        | d :: s'' => is_trail d && isWellFormed s''
        | [] => false
        end
      else negb (is_trail c) && isWellFormed s'
  end.

(** The scalar values of a string: a surrogate pair is one code point, an
    unpaired surrogate becomes U+FFFD (conversion to a [USVString]). *)
Fixpoint code_points (s : jsstring) : list N :=
  match s with
  | [] => []
  | c :: s' =>
      if is_lead c then
        match s' with
        | d :: s'' =>
            if is_trail d
            then 0x10000 + (c - 0xD800) * 0x400 + (d - 0xDC00) :: code_points s''
            else 0xFFFD :: code_points s'
        | [] => [0xFFFD]
        end
      else if is_trail c then 0xFFFD :: code_points s'
      else c :: code_points s'
  end.

(** The UTF-8 bytes of a scalar value. *)
Definition utf8_encode (c : N) : bytes :=
  if c <=? 0x7F then [c]
  else if c <=? 0x7FF then [0xC0 + c / 64; 0x80 + c mod 64]
  else if c <=? 0xFFFF then
    [0xE0 + c / 4096; 0x80 + (c / 64) mod 64; 0x80 + c mod 64]
  else
    [0xF0 + c / 262144; 0x80 + (c / 4096) mod 64; 0x80 + (c / 64) mod 64;
     0x80 + c mod 64].

(** [new TextEncoder().encode(text)] *)
Definition TextEncoder_encode (text : jsstring) : bytes :=
  flat_map utf8_encode (code_points text).

(** The state of the UTF-8 decoder of the Encoding standard. *)
Record Utf8State := {
  u_code_point : N;
  u_seen : N;
  u_needed : N;
  u_lower : N;
  u_upper : N
}.

Definition utf8_start : Utf8State :=
  {| u_code_point := 0; u_seen := 0; u_needed := 0;
     u_lower := 0x80; u_upper := 0xBF |}.

(** A byte read while no sequence is open. *)
Definition utf8_lead (b : N) : list N * Utf8State :=
  if b <=? 0x7F then ([b], utf8_start)
  else if (0xC2 <=? b) && (b <=? 0xDF) then
    ([], {| u_code_point := b mod 32; u_seen := 0; u_needed := 1;
            u_lower := 0x80; u_upper := 0xBF |})
  else if (0xE0 <=? b) && (b <=? 0xEF) then
    ([], {| u_code_point := b mod 16; u_seen := 0; u_needed := 2;
            u_lower := if b =? 0xE0 then 0xA0 else 0x80;
            u_upper := if b =? 0xED then 0x9F else 0xBF |})
  else if (0xF0 <=? b) && (b <=? 0xF4) then
    ([], {| u_code_point := b mod 8; u_seen := 0; u_needed := 3;
            u_lower := if b =? 0xF0 then 0x90 else 0x80;
            u_upper := if b =? 0xF4 then 0x8F else 0xBF |})
  else ([0xFFFD], utf8_start).

(** One byte: the code points it completes (U+FFFD for an error, after
    which the byte is read again as a lead byte) and the next state. *)
Definition utf8_step (st : Utf8State) (b : N) : list N * Utf8State :=
  if u_needed st =? 0 then utf8_lead b
  else if negb ((u_lower st <=? b) && (b <=? u_upper st)) then
    let (out, st') := utf8_lead b in (0xFFFD :: out, st')
  else
    let cp := u_code_point st * 64 + b mod 64 in
    if u_seen st + 1 =? u_needed st then ([cp], utf8_start)
    else ([], {| u_code_point := cp; u_seen := u_seen st + 1;
                 u_needed := u_needed st; u_lower := 0x80; u_upper := 0xBF |}).

Fixpoint utf8_decode (st : Utf8State) (bs : bytes) : list N :=
  match bs with
  | [] => if u_needed st =? 0 then [] else [0xFFFD]
  | b :: bs' =>
      let (out, st') := utf8_step st b in
      out ++ utf8_decode st' bs'
  end.

(** The UTF-16 code units of a scalar value. *)
Definition utf16_encode (c : N) : jsstring :=
  if c <? 0x10000 then [c]
  else [0xD800 + (c - 0x10000) / 0x400; 0xDC00 + (c - 0x10000) mod 0x400].

(** A leading U+FEFF is dropped ([ignoreBOM] is false by default). *)
Definition drop_bom (cps : list N) : list N :=
  match cps with
  | 0xFEFF :: rest => rest
  | _ => cps
  end.

(** [new TextDecoder().decode(buffer)] *)
Definition TextDecoder_decode (buffer : bytes) : jsstring :=
  flat_map utf16_encode (drop_bom (utf8_decode utf8_start buffer)).

Example encode_hello : TextEncoder_encode (js "hello") = [104; 101; 108; 108; 111].
Proof. reflexivity. Qed.

(** U+20AC, and U+1F600 as a surrogate pair. *)
Example encode_euro_smile :
  TextEncoder_encode [0x20AC; 0xD83D; 0xDE00]
  = [0xE2; 0x82; 0xAC; 0xF0; 0x9F; 0x98; 0x80].
Proof. reflexivity. Qed.

Example decode_euro_smile :
  TextDecoder_decode [0xE2; 0x82; 0xAC; 0xF0; 0x9F; 0x98; 0x80]
  = [0x20AC; 0xD83D; 0xDE00].
Proof. reflexivity. Qed.

(** Unicode scalar values: code points other than surrogates. *)
Definition is_scalar (c : N) : Prop :=
  (c < 0xD800 \/ 0xE000 <= c) /\ c < 0x110000.

Ltac bool_props :=
  repeat match goal with
  | H : (_ && _) = true |- _ => apply andb_prop in H as [? ?]
  | H : (_ && _) = false |- _ => apply andb_false_iff in H as [?|?]
  | H : negb _ = true |- _ => apply negb_true_iff in H
  | H : negb _ = false |- _ => apply negb_false_iff in H
  | H : (_ <=? _) = true |- _ => apply N.leb_le in H
  | H : (_ <=? _) = false |- _ => apply N.leb_gt in H
  | H : (_ <? _) = true |- _ => apply N.ltb_lt in H
  | H : (_ <? _) = false |- _ => apply N.ltb_ge in H
  | H : (_ =? _) = true |- _ => apply N.eqb_eq in H
  | H : (_ =? _) = false |- _ => apply N.eqb_neq in H
  end.

(** Decide the outermost test of the goal by arithmetic. *)
Ltac decide_test :=
  match goal with
  | |- context [if ?b then _ else _] =>
      first
        [ replace b with true by (symmetry; rewrite ?andb_true_iff, ?negb_true_iff,
                                    ?andb_false_iff, ?N.leb_le, ?N.leb_gt,
                                    ?N.eqb_eq, ?N.eqb_neq; lia)
        | replace b with false by (symmetry; rewrite ?andb_false_iff, ?negb_false_iff,
                                     ?andb_true_iff, ?N.leb_le, ?N.leb_gt,
                                     ?N.eqb_eq, ?N.eqb_neq; lia) ]
  end.

Lemma utf8_lead_1 c : c <= 0x7F -> utf8_lead c = ([c], utf8_start).
Proof. intros Hc. unfold utf8_lead. by decide_test. Qed.

Lemma utf8_lead_2 c :
  0x80 <= c <= 0x7FF ->
  utf8_lead (0xC0 + c / 64)
  = ([], {| u_code_point := c / 64; u_seen := 0; u_needed := 1;
            u_lower := 0x80; u_upper := 0xBF |}).
Proof.
  intros Hc. unfold utf8_lead. do 2 decide_test. do 2 f_equal. lia.
Qed.

Lemma utf8_lead_3 c :
  0x800 <= c <= 0xFFFF ->
  utf8_lead (0xE0 + c / 4096)
  = ([], {| u_code_point := c / 4096; u_seen := 0; u_needed := 2;
            u_lower := if c <? 0x1000 then 0xA0 else 0x80;
            u_upper := if (0xD000 <=? c) && (c <? 0xE000) then 0x9F else 0xBF |}).
Proof.
  intros Hc. unfold utf8_lead. do 3 decide_test. do 2 f_equal.
  - lia.
  - destruct (N.ltb_spec c 0x1000), (N.eqb_spec (0xE0 + c / 4096) 0xE0); (done || lia).
  - destruct (N.leb_spec 0xD000 c), (N.ltb_spec c 0xE000),
      (N.eqb_spec (0xE0 + c / 4096) 0xED); cbn [andb]; (done || lia).
Qed.

Lemma utf8_lead_4 c :
  0x10000 <= c < 0x110000 ->
  utf8_lead (0xF0 + c / 262144)
  = ([], {| u_code_point := c / 262144; u_seen := 0; u_needed := 3;
            u_lower := if c <? 0x40000 then 0x90 else 0x80;
            u_upper := if 0x100000 <=? c then 0x8F else 0xBF |}).
Proof.
  intros Hc. unfold utf8_lead. do 4 decide_test. do 2 f_equal.
  - lia.
  - destruct (N.ltb_spec c 0x40000), (N.eqb_spec (0xF0 + c / 262144) 0xF0); (done || lia).
  - destruct (N.leb_spec 0x100000 c), (N.eqb_spec (0xF0 + c / 262144) 0xF4); (done || lia).
Qed.

(** A continuation byte inside the expected range. *)
Lemma utf8_step_cont st b :
  u_needed st <> 0 -> u_lower st <= b <= u_upper st ->
  utf8_step st b
  = if u_seen st + 1 =? u_needed st
    then ([u_code_point st * 64 + b mod 64], utf8_start)
    else ([], {| u_code_point := u_code_point st * 64 + b mod 64;
                 u_seen := u_seen st + 1; u_needed := u_needed st;
                 u_lower := 0x80; u_upper := 0xBF |}).
Proof.
  intros Hn Hb. unfold utf8_step.
  apply N.eqb_neq in Hn. rewrite Hn.
  destruct Hb as [H1%N.leb_le H2%N.leb_le]. by rewrite H1, H2.
Qed.

(** The decoder reads back what [utf8_encode] wrote. *)
Lemma utf8_decode_encode c rest :
  is_scalar c ->
  utf8_decode utf8_start (utf8_encode c ++ rest) = c :: utf8_decode utf8_start rest.
Proof.
  intros [Hs Hc]. unfold utf8_encode.
  destruct (N.leb_spec c 0x7F) as [H1|H1].
  { cbn [app utf8_decode]. unfold utf8_step. cbn [utf8_start u_needed N.eqb].
    by rewrite utf8_lead_1. }
  destruct (N.leb_spec c 0x7FF) as [H2|H2].
  { cbn [app utf8_decode]. unfold utf8_step at 1. cbn [utf8_start u_needed N.eqb].
    rewrite utf8_lead_2 by lia. cbn [app].
    rewrite utf8_step_cont by (cbn; lia).
    cbn [u_seen u_needed u_code_point].
    change (0 + 1 =? 1) with true. cbn [app]. f_equal. lia. }
  destruct (N.leb_spec c 0xFFFF) as [H3|H3].
  { cbn [app utf8_decode]. unfold utf8_step at 1. cbn [utf8_start u_needed N.eqb].
    rewrite utf8_lead_3 by lia. cbn [app].
    rewrite utf8_step_cont.
    2:{ cbn. lia. }
    2:{ cbn [u_lower u_upper].
        destruct (N.ltb_spec c 0x1000), (N.leb_spec 0xD000 c), (N.ltb_spec c 0xE000);
          cbn [andb]; lia. }
    cbn [u_seen u_needed u_code_point].
    change (0 + 1 =? 2) with false. cbn [app].
    rewrite utf8_step_cont by (cbn; lia).
    cbn [u_seen u_needed u_code_point].
    change (0 + 1 + 1 =? 2) with true. cbn [app]. f_equal. lia. }
  cbn [app utf8_decode]. unfold utf8_step at 1. cbn [utf8_start u_needed N.eqb].
  rewrite utf8_lead_4 by lia. cbn [app].
  rewrite utf8_step_cont.
  2:{ cbn. lia. }
  2:{ cbn [u_lower u_upper].
      destruct (N.ltb_spec c 0x40000), (N.leb_spec 0x100000 c); lia. }
  cbn [u_seen u_needed u_code_point].
  change (0 + 1 =? 3) with false. cbn [app].
  rewrite utf8_step_cont by (cbn; lia).
  cbn [u_seen u_needed u_code_point].
  change (0 + 1 + 1 =? 3) with false. cbn [app].
  rewrite utf8_step_cont by (cbn; lia).
  cbn [u_seen u_needed u_code_point].
  change (0 + 1 + 1 + 1 =? 3) with true. cbn [app]. f_equal. lia.
Qed.

Lemma utf8_decode_flat cps :
  Forall is_scalar cps ->
  utf8_decode utf8_start (flat_map utf8_encode cps) = cps.
Proof.
  induction 1 as [|c cps Hc Hcps IH]; [done|].
  cbn [flat_map]. by rewrite utf8_decode_encode, IH.
Qed.

(** Induction that follows the recursion of [code_points]. *)
Lemma string_ind2 (P : jsstring -> Prop) :
  P [] -> (forall c, P [c]) ->
  (forall c d s, P s -> P (d :: s) -> P (c :: d :: s)) ->
  forall s, P s.
Proof.
  intros H0 H1 H2.
  assert (Hall : forall s, P s /\ forall c, P (c :: s)).
  { induction s as [|d s [IH0 IH1]]; [by auto|].
    split; [apply IH1|]. intros c. apply H2; [done | apply IH1]. }
  intros s. apply Hall.
Qed.

Lemma code_points_scalar s :
  is_string s = true -> Forall is_scalar (code_points s).
Proof.
  induction s as [| c | c d s IH0 IH1] using string_ind2.
  - constructor.
  - cbn [is_string forallb code_points]. rewrite andb_true_r, N.ltb_lt. intros Hc.
    unfold is_lead, is_trail.
    destruct (N.leb_spec 0xD800 c), (N.leb_spec c 0xDBFF), (N.leb_spec 0xDC00 c),
      (N.leb_spec c 0xDFFF); cbn [andb]; (constructor; [|constructor]);
      unfold is_scalar; lia.
  - intros Hs.
    assert (Hc : c < 65536 /\ d < 65536 /\ is_string s = true /\ is_string (d :: s) = true).
    { cbn [is_string forallb] in Hs. rewrite !andb_true_iff, !N.ltb_lt in Hs.
      cbn [is_string forallb]. rewrite andb_true_iff, N.ltb_lt. tauto. }
    destruct Hc as (Hc & Hd & Hs0 & Hs1).
    specialize (IH0 Hs0). specialize (IH1 Hs1).
    change (code_points (c :: d :: s)) with
      (if is_lead c then
         if is_trail d
         then 0x10000 + (c - 0xD800) * 0x400 + (d - 0xDC00) :: code_points s
         else 0xFFFD :: code_points (d :: s)
       else if is_trail c then 0xFFFD :: code_points (d :: s)
       else c :: code_points (d :: s)).
    unfold is_lead, is_trail.
    destruct (N.leb_spec 0xD800 c), (N.leb_spec c 0xDBFF), (N.leb_spec 0xDC00 c),
      (N.leb_spec c 0xDFFF), (N.leb_spec 0xDC00 d), (N.leb_spec d 0xDFFF);
      cbn [andb]; constructor; try done; unfold is_scalar; lia.
Qed.

Lemma utf16_code_points s :
  is_string s = true -> isWellFormed s = true ->
  flat_map utf16_encode (code_points s) = s.
Proof.
  induction s as [| c | c d s IH0 IH1] using string_ind2.
  - done.
  - cbn [is_string forallb isWellFormed code_points].
    rewrite andb_true_r, N.ltb_lt. intros Hc.
    destruct (is_lead c); [done|].
    destruct (is_trail c); [done|]. intros _.
    cbn [flat_map app]. unfold utf16_encode.
    apply N.ltb_lt in Hc. by rewrite Hc.
  - intros Hs.
    assert (Hc : c < 65536 /\ d < 65536 /\ is_string s = true /\ is_string (d :: s) = true).
    { cbn [is_string forallb] in Hs. rewrite !andb_true_iff, !N.ltb_lt in Hs.
      cbn [is_string forallb]. rewrite andb_true_iff, N.ltb_lt. tauto. }
    destruct Hc as (Hc & Hd & Hs0 & Hs1).
    change (isWellFormed (c :: d :: s)) with
      (if is_lead c then is_trail d && isWellFormed s
       else negb (is_trail c) && isWellFormed (d :: s)).
    change (code_points (c :: d :: s)) with
      (if is_lead c then
         if is_trail d
         then 0x10000 + (c - 0xD800) * 0x400 + (d - 0xDC00) :: code_points s
         else 0xFFFD :: code_points (d :: s)
       else if is_trail c then 0xFFFD :: code_points (d :: s)
       else c :: code_points (d :: s)).
    destruct (is_lead c) eqn:El.
    + destruct (is_trail d) eqn:Et; [|done]. cbn [andb]. intros Hw.
      cbn [flat_map]. rewrite (IH0 Hs0 Hw).
      unfold is_lead, is_trail in *. bool_props.
      unfold utf16_encode.
      replace (0x10000 + (c - 0xD800) * 0x400 + (d - 0xDC00) <? 0x10000) with false
        by (symmetry; apply N.ltb_ge; lia).
      cbn [app]. f_equal; [lia|]. f_equal. lia.
    + destruct (is_trail c) eqn:Et; [done|]. cbn [negb andb]. intros Hw.
      cbn [flat_map]. rewrite (IH1 Hs1 Hw).
      unfold utf16_encode. apply N.ltb_lt in Hc. by rewrite Hc.
Qed.

(** What [TextDecoder] drops from the front of a text. *)
Definition strip_bom (s : jsstring) : jsstring :=
  match s with
  | 0xFEFF :: s' => s'
  | _ => s
  end.

Lemma drop_bom_code_points s :
  is_string s = true -> drop_bom (code_points s) = code_points (strip_bom s).
Proof.
  destruct s as [|c s]; [done|].
  destruct (N.eq_dec c 0xFEFF) as [->|Hne]; [by destruct s|].
  intros Hs.
  assert (Hstrip : strip_bom (c :: s) = c :: s).
  { unfold strip_bom. destruct c as [|p]; [done|].
    do 16 (destruct p as [p|p|]; try done). }
  rewrite Hstrip.
  assert (Hhead : forall x l, x <> 0xFEFF -> drop_bom (x :: l) = x :: l).
  { intros x l Hx. unfold drop_bom. destruct x as [|p]; [done|].
    do 16 (destruct p as [p|p|]; try done). }
  cbn [code_points].
  destruct (is_lead c) eqn:El.
  - unfold is_lead in El. bool_props.
    destruct s as [|d s]; [by apply Hhead|].
    destruct (is_trail d); apply Hhead; [lia | done].
  - destruct (is_trail c); by apply Hhead.
Qed.

Lemma strip_bom_well_formed s :
  is_string s = true -> isWellFormed s = true ->
  is_string (strip_bom s) = true /\ isWellFormed (strip_bom s) = true.
Proof.
  intros Hs Hw. destruct s as [|c s]; [done|].
  destruct (N.eq_dec c 0xFEFF) as [->|Hne].
  - cbn [strip_bom]. cbn [is_string forallb] in Hs. apply andb_prop in Hs as [_ Hs].
    split; [done|]. by destruct s.
  - assert (Hstrip : strip_bom (c :: s) = c :: s).
    { unfold strip_bom. destruct c as [|p]; [done|].
      do 16 (destruct p as [p|p|]; try done). }
    by rewrite Hstrip.
Qed.

(** Text through [TextEncoder] and back through [TextDecoder]: a
    well-formed string returns without its leading U+FEFF, if it had one,
    and unchanged otherwise. *)
Lemma text_roundtrip s :
  is_string s = true -> isWellFormed s = true ->
  TextDecoder_decode (TextEncoder_encode s) = strip_bom s.
Proof.
  intros Hs Hw. unfold TextDecoder_decode, TextEncoder_encode.
  rewrite utf8_decode_flat by (by apply code_points_scalar).
  rewrite drop_bom_code_points by done.
  destruct (strip_bom_well_formed s Hs Hw) as [Hs' Hw'].
  by apply utf16_code_points.
Qed.

(** The bytes that [TextEncoder] produces. *)
Lemma TextEncoder_bytes s : is_string s = true -> is_bytes (TextEncoder_encode s) = true.
Proof.
  intros Hs. unfold TextEncoder_encode.
  pose proof (code_points_scalar s Hs) as Hc.
  induction Hc as [|c cps [Hsc Hlt] Hcps IH]; [done|].
  cbn [flat_map]. rewrite is_bytes_app, IH, andb_true_r.
  unfold utf8_encode, is_bytes.
  destruct (N.leb_spec c 0x7F); [|destruct (N.leb_spec c 0x7FF);
                                  [|destruct (N.leb_spec c 0xFFFF)]];
    cbn [forallb]; rewrite ?andb_true_iff, ?N.ltb_lt; repeat split; lia.
Qed.

(* ===================================================================== *)
(** ** The Web Crypto interface *)
(* ===================================================================== *)

(** The random source behind [crypto.getRandomValues] and the key
    generators: an unbounded supply of numbers. *)
Definition RNG := nat -> N.

(** [crypto.getRandomValues(new Uint8Array(n))] *)
Definition getRandomValues (n : nat) (rng : RNG) : bytes * RNG :=
  (map (fun i => rng i mod 256) (seq 0 n), fun i => rng (n + i)%nat).

(** The primitives of [window.crypto.subtle] that the service calls, with
    the facts about them that the properties below rest on.  Keys of
    AES-GCM are their raw bytes.  The facts are those of the symbolic
    model of cryptography: decryption inverts encryption; a ciphertext is
    16 bytes longer than its plaintext (the tag); a ciphertext with one
    altered byte is rejected (for AES-GCM this holds under every key whose
    hash subkey is not zero); key export and import are inverse; the
    encodings of the keys of RSA-2048 and its ciphertexts have bounded
    length.  What happens to a ciphertext under another key is left
    open: no key commitment is assumed. *)
Class WebCrypto := {
  sha256 : bytes -> bytes;
  sha256_length : forall m, length (sha256 m) = 32%nat;
  sha256_bytes : forall m, is_bytes (sha256 m) = true;

  aes_gcm_encrypt : bytes -> bytes -> bytes -> bytes;
  aes_gcm_decrypt : bytes -> bytes -> bytes -> option bytes;
  aes_gcm_bytes : forall k iv pt,
    is_bytes k = true -> is_bytes iv = true -> is_bytes pt = true ->
    is_bytes (aes_gcm_encrypt k iv pt) = true;
  aes_gcm_length : forall k iv pt,
    length (aes_gcm_encrypt k iv pt) = (length pt + 16)%nat;
  aes_gcm_correct : forall k iv pt,
    aes_gcm_decrypt k iv (aes_gcm_encrypt k iv pt) = Some pt;
  aes_gcm_authentic : forall k iv pt i b,
    is_bytes pt = true -> b < 256 ->
    (i < length (aes_gcm_encrypt k iv pt))%nat ->
    aes_gcm_encrypt k iv pt !! i <> Some b ->
    aes_gcm_decrypt k iv (<[i := b]> (aes_gcm_encrypt k iv pt)) = None;

  RSAPublicKey : Type;
  RSAPrivateKey : Type;
  rsa_generateKey : RNG -> RSAPublicKey * RSAPrivateKey * RNG;
  rsa_oaep_encrypt : RSAPublicKey -> bytes -> RNG -> option (bytes * RNG);
  rsa_oaep_decrypt : RSAPrivateKey -> bytes -> option bytes;
  rsa_oaep_correct : forall rng0 rng m,
    (length m <= 190)%nat -> is_bytes m = true ->
    exists c rng',
      rsa_oaep_encrypt (rsa_generateKey rng0).1.1 m rng = Some (c, rng') /\
      is_bytes c = true /\ length c = 256%nat /\
      rsa_oaep_decrypt (rsa_generateKey rng0).1.2 c = Some m;

  export_spki : RSAPublicKey -> bytes;
  import_spki : bytes -> option RSAPublicKey;
  spki_bytes : forall pk, is_bytes (export_spki pk) = true;
  spki_length : forall pk, (length (export_spki pk) <= 1024)%nat;
  spki_roundtrip : forall pk, import_spki (export_spki pk) = Some pk;

  export_pkcs8 : RSAPrivateKey -> bytes;
  import_pkcs8 : bytes -> option RSAPrivateKey;
  pkcs8_bytes : forall sk, is_bytes (export_pkcs8 sk) = true;
  pkcs8_length : forall sk, (length (export_pkcs8 sk) <= 4000)%nat;
  pkcs8_roundtrip : forall sk, import_pkcs8 (export_pkcs8 sk) = Some sk
}.

(** An AES-GCM [CryptoKey]: the key bytes and whether [exportKey] may
    read them. *)
Record AesKey := {
  aes_raw : bytes;
  aes_extractable : bool
}.

(** *** Asynchronous calls: a state and error monad *)

Definition Crypto (A : Type) : Type := RNG -> result (A * RNG).

Definition ret {A} (a : A) : Crypto A := fun rng => Ok (a, rng).

Definition bind {A B} (c : Crypto A) (f : A -> Crypto B) : Crypto B :=
  fun rng =>
    match c rng with
    | Ok (a, rng') => f a rng'
    | Err e => Err e
    end.

Definition throw {A} (e : DOMException) : Crypto A := fun _ => Err e.

Definition lift {A} (r : result A) : Crypto A :=
  fun rng => match r with Ok a => Ok (a, rng) | Err e => Err e end.

(** [None] of a primitive is the exception [e]. *)
Definition orThrow {A} (o : option A) (e : DOMException) : Crypto A :=
  match o with Some a => ret a | None => throw e end.

Declare Scope crypto_scope.
Delimit Scope crypto_scope with crypto.
Notation "x <- c ;; k" := (bind c (fun x => k))
  (at level 100, c at next level, right associativity) : crypto_scope.
Local Open Scope crypto_scope.

Section CryptoService.
Context `{Engine} `{WebCrypto}.

(** *** HMAC-SHA-256 (RFC 2104) and PBKDF2 (RFC 8018) *)

Definition xor_bytes (a b : bytes) : bytes := zip_with N.lxor a b.

(** The key as one block of 64 bytes: hashed when longer, filled with
    zero bytes when shorter. *)
Definition hmac_block (key : bytes) : bytes :=
  let k0 := if (64 <? length key)%nat then sha256 key else key in
  k0 ++ repeat 0 (64 - length k0).

Definition hmac_sha256 (key msg : bytes) : bytes :=
  let k := hmac_block key in
  sha256 (map (N.lxor 0x5c) k ++ sha256 (map (N.lxor 0x36) k ++ msg)).

(** The block [F(P, S, c, 1)] of PBKDF2: the exclusive-or of [c] iterated
    HMAC values.  A 256-bit key needs this one block. *)
Definition pbkdf2_block (P S : bytes) (c : N) : bytes :=
  let U1 := hmac_sha256 P (S ++ [0; 0; 0; 1]) in
  snd (N.iter (c - 1)
         (fun UT : bytes * bytes =>
            let U' := hmac_sha256 P (fst UT) in (U', xor_bytes (snd UT) U'))
         (U1, U1)).

(** *** [cryptoService.ts] *)

Definition deriveKeyFromPassword (password salt : jsstring) : Crypto AesKey :=
  let passwordKey := TextEncoder_encode password in
  ret {| aes_raw := take 32 (pbkdf2_block passwordKey (TextEncoder_encode salt) 100000);
         aes_extractable := false |}.

Definition generateRSAKeyPair : Crypto (jsstring * RSAPrivateKey) :=
  fun rng =>
    let '(pk, sk, rng') := rsa_generateKey rng in
    (publicKey <- lift (bufferToBase64 (export_spki pk)) ;;
     ret (publicKey, sk)) rng'.

(** [crypto.getRandomValues(new Uint8Array(12))] *)
Definition fresh_iv : Crypto bytes := fun rng => Ok (getRandomValues 12 rng).

Definition protectPrivateKey (privateKey : RSAPrivateKey) (masterKey : AesKey)
  : Crypto (jsstring * jsstring) :=
  let exported := export_pkcs8 privateKey in
  iv <- fresh_iv ;;
  let encrypted := aes_gcm_encrypt (aes_raw masterKey) iv exported in
  data <- lift (bufferToBase64 encrypted) ;;
  iv64 <- lift (bufferToBase64 iv) ;;
  ret (data, iv64).

Definition recoverPrivateKey (encryptedData : jsstring) (masterKey : AesKey)
  (iv : jsstring) : Crypto RSAPrivateKey :=
  ivb <- lift (base64ToBuffer iv) ;;
  data <- lift (base64ToBuffer encryptedData) ;;
  decrypted <- orThrow (aes_gcm_decrypt (aes_raw masterKey) ivb data) OperationError ;;
  orThrow (import_pkcs8 decrypted) DataError.

Definition generateAESKey : Crypto AesKey :=
  fun rng =>
    let (raw, rng') := getRandomValues 32 rng in
    Ok ({| aes_raw := raw; aes_extractable := true |}, rng').

Definition encryptWithAES (text : jsstring) (key : AesKey)
  : Crypto (jsstring * jsstring) :=
  iv <- fresh_iv ;;
  let encrypted := aes_gcm_encrypt (aes_raw key) iv (TextEncoder_encode text) in
  ciphertext <- lift (bufferToBase64 encrypted) ;;
  iv64 <- lift (bufferToBase64 iv) ;;
  ret (ciphertext, iv64).

Definition decryptWithAES (ciphertext : jsstring) (key : AesKey) (iv : jsstring)
  : Crypto jsstring :=
  ivb <- lift (base64ToBuffer iv) ;;
  data <- lift (base64ToBuffer ciphertext) ;;
  decrypted <- orThrow (aes_gcm_decrypt (aes_raw key) ivb data) OperationError ;;
  ret (TextDecoder_decode decrypted).

(** [importKey("raw", bytes, "AES-GCM", true, ...)]: 128, 192 or 256 bits. *)
Definition importKey_raw_aes (raw : bytes) : Crypto AesKey :=
  if existsb (Nat.eqb (length raw)) [16; 24; 32]%nat
  then ret {| aes_raw := raw; aes_extractable := true |}
  else throw DataError.

Definition encryptKeyWithRSA (aesKey : AesKey) (publicKeyStr : jsstring)
  : Crypto jsstring :=
  spki <- lift (base64ToBuffer publicKeyStr) ;;
  publicKey <- orThrow (import_spki spki) DataError ;;
  rawAesKey <- (if aes_extractable aesKey then ret (aes_raw aesKey)
                else throw InvalidAccessError) ;;
  encrypted <- (fun rng => match rsa_oaep_encrypt publicKey rawAesKey rng with
                           | Some r => Ok r
                           | None => Err OperationError
                           end) ;;
  lift (bufferToBase64 encrypted).

Definition decryptKeyWithRSA (encryptedKeyStr : jsstring) (privateKey : RSAPrivateKey)
  : Crypto AesKey :=
  data <- lift (base64ToBuffer encryptedKeyStr) ;;
  decryptedRaw <- orThrow (rsa_oaep_decrypt privateKey data) OperationError ;;
  importKey_raw_aes decryptedRaw.

Definition computeHash (text : jsstring) : Crypto jsstring :=
  lift (bufferToBase64 (sha256 (TextEncoder_encode text))).

(** *** Sealing and opening an envelope ([App.tsx]) *)

(** The three awaited calls of [sendMessage] and the record it builds. *)
Definition seal (inputText : jsstring) (sender recipient : User)
  (id : jsstring) (now : N) : Crypto EncryptedMessage :=
  sessionKey <- generateAESKey ;;
  sealed <- encryptWithAES inputText sessionKey ;;
  wrapped <- encryptKeyWithRSA sessionKey (publicKey recipient) ;;
  ret {| mid := id;
         senderId := username sender;
         recipientId := username recipient;
         isGroup := false;
         encryptedContent := fst sealed;
         encryptedSessionKey := wrapped;
         iv := snd sealed;
         hmac := js "GCM-SECURE";
         timestamp := now |}.

Inductive SendOutcome :=
| NotSent
| Dispatched (msg : EncryptedMessage)
| EncryptionLayerError.

(** [sendMessage]: nothing happens on blank input or without recipient or
    user; an exception of the crypto layer is caught and logged. *)
Definition sendMessage (inputText : jsstring) (activeRecipient authUser : option User)
  (id : jsstring) (now : N) (rng : RNG) : SendOutcome :=
  match trim inputText, activeRecipient, authUser with
  | _ :: _, Some recipient, Some user =>
      match seal inputText user recipient id now rng with
      | Ok (msg, _) => Dispatched msg
      | Err _ => EncryptionLayerError
      end
  | _, _, _ => NotSent
  end.

Inductive ReceiveOutcome :=
| Ignored
| Delivered (msg : EncryptedMessage) (decryptedContent : jsstring)
| IntegrityViolation.

(** The [CHAT] branch of the handler that [App] registers with
    [socketService.onMessage]: unwrap the session key, decrypt, append the
    message; an exception is caught and logged as integrity violation. *)
Definition receiveChat (privateKey : option RSAPrivateKey) (data : EncryptedMessage)
  (rng : RNG) : ReceiveOutcome :=
  match privateKey with
  | None => Ignored
  | Some sk =>
      match (aesKey <- decryptKeyWithRSA (encryptedSessionKey data) sk ;;
             decryptWithAES (encryptedContent data) aesKey (iv data)) rng with
      | Ok (decrypted, _) => Delivered data decrypted
      | Err _ => IntegrityViolation
      end
  end.

Definition with_encryptedContent (s : jsstring) (m : EncryptedMessage) : EncryptedMessage :=
  {| mid := mid m; senderId := senderId m; recipientId := recipientId m;
     isGroup := isGroup m; encryptedContent := s;
     encryptedSessionKey := encryptedSessionKey m; iv := iv m; hmac := hmac m;
     timestamp := timestamp m |}.

Definition with_hmac (s : jsstring) (m : EncryptedMessage) : EncryptedMessage :=
  {| mid := mid m; senderId := senderId m; recipientId := recipientId m;
     isGroup := isGroup m; encryptedContent := encryptedContent m;
     encryptedSessionKey := encryptedSessionKey m; iv := iv m; hmac := s;
     timestamp := timestamp m |}.

(** *** Facts about the helpers *)

Lemma bind_ok {A B} (c : Crypto A) (f : A -> Crypto B) rng a rng' :
  c rng = Ok (a, rng') -> bind c f rng = f a rng'.
Proof. unfold bind. by intros ->. Qed.

Lemma bind_err {A B} (c : Crypto A) (f : A -> Crypto B) rng e :
  c rng = Err e -> bind c f rng = Err e.
Proof. unfold bind. by intros ->. Qed.

Lemma lift_ok {A} (r : result A) a rng : r = Ok a -> lift r rng = Ok (a, rng).
Proof. by intros ->. Qed.

Lemma getRandomValues_bytes n rng : is_bytes (getRandomValues n rng).1 = true.
Proof.
  unfold getRandomValues, is_bytes. cbn [fst].
  apply forallb_forall. intros x Hx. apply in_map_iff in Hx as (i & <- & _).
  apply N.ltb_lt. by apply N.mod_lt.
Qed.

Lemma getRandomValues_length n rng : length (getRandomValues n rng).1 = n.
Proof. unfold getRandomValues. cbn [fst]. by rewrite length_map, length_seq. Qed.

Lemma base64ToBuffer_encode bs :
  is_bytes bs = true -> base64ToBuffer (base64_encode bs) = Ok bs.
Proof.
  intros Hb. unfold base64ToBuffer. rewrite atob_encode by done.
  by rewrite map_mod_bytes.
Qed.

Lemma base64ToBuffer_is_bytes s l : base64ToBuffer s = Ok l -> is_bytes l = true.
Proof.
  unfold base64ToBuffer. destruct (atob s) as [b|e]; [|done].
  intros [= <-]. unfold is_bytes. apply forallb_forall.
  intros x Hx. apply in_map_iff in Hx as (y & <- & _).
  apply N.ltb_lt. by apply N.mod_lt.
Qed.

(** A byte written into a decoded buffer is a byte. *)
Lemma altered_byte s (ct : bytes) i b :
  base64ToBuffer s = Ok (<[i := b]> ct) -> (i < length ct)%nat -> b < 256.
Proof.
  intros Hs Hi. apply base64ToBuffer_is_bytes in Hs.
  apply (is_bytes_lt _ b Hs). apply list_elem_of_In.
  apply (list_elem_of_lookup_2 _ i). by apply list_lookup_insert_eq.
Qed.

(** The ciphertext of a text, its UTF-8 bytes and the 16 bytes of the
    tag, can be spread into one call. *)
Definition sendable (text : jsstring) : Prop :=
  N.of_nat (length (TextEncoder_encode text)) + 16 <= max_arguments.

Lemma sendable_fits text k nonce :
  sendable text <-> fits (aes_gcm_encrypt k nonce (TextEncoder_encode text)).
Proof. unfold sendable, fits. rewrite aes_gcm_length. lia. Qed.

Lemma fits_nonce n rng : (n <= 4096)%nat -> fits (getRandomValues n rng).1.
Proof. intros Hn. apply fits_small. by rewrite getRandomValues_length. Qed.

(** What [encryptWithAES] returns. *)
Lemma encryptWithAES_ok text key rng :
  is_string text = true -> is_bytes (aes_raw key) = true -> sendable text ->
  encryptWithAES text key rng
  = Ok ((base64_encode (aes_gcm_encrypt (aes_raw key) (getRandomValues 12 rng).1
                          (TextEncoder_encode text)),
         base64_encode (getRandomValues 12 rng).1),
        (getRandomValues 12 rng).2).
Proof.
  intros Hs Hk Hf. unfold encryptWithAES, fresh_iv.
  erewrite bind_ok; [|by rewrite (surjective_pairing (getRandomValues 12 rng))].
  erewrite bind_ok.
  2:{ apply lift_ok, bufferToBase64_bytes; [|by apply sendable_fits].
      apply aes_gcm_bytes;
        [done | apply getRandomValues_bytes | by apply TextEncoder_bytes]. }
  erewrite bind_ok.
  2:{ apply lift_ok, bufferToBase64_bytes;
        [apply getRandomValues_bytes | apply fits_nonce; lia]. }
  done.
Qed.

(** Beyond the argument limit [encryptWithAES] throws at
    [bufferToBase64], after the encryption. *)
Lemma encryptWithAES_too_long text key rng :
  ~ sendable text -> encryptWithAES text key rng = Err RangeError.
Proof.
  intros Hf. unfold encryptWithAES, fresh_iv.
  erewrite bind_ok; [|by rewrite (surjective_pairing (getRandomValues 12 rng))].
  erewrite bind_err; [done|]. unfold lift.
  rewrite bufferToBase64_too_long; [done|].
  intros Hfit. by apply Hf, (sendable_fits text (aes_raw key) (getRandomValues 12 rng).1).
Qed.

(** [decryptWithAES] on Base64 text of a ciphertext and of a nonce. *)
Lemma decryptWithAES_encoded ct key ivb rng :
  is_bytes ct = true -> is_bytes ivb = true ->
  decryptWithAES (base64_encode ct) key (base64_encode ivb) rng
  = match aes_gcm_decrypt (aes_raw key) ivb ct with
    | Some pt => Ok (TextDecoder_decode pt, rng)
    | None => Err OperationError
    end.
Proof.
  intros Hc Hi. unfold decryptWithAES.
  erewrite bind_ok; [|by apply lift_ok, base64ToBuffer_encode].
  erewrite bind_ok; [|by apply lift_ok, base64ToBuffer_encode].
  by destruct (aes_gcm_decrypt (aes_raw key) ivb ct).
Qed.

(** X19.  For a text whose ciphertext is within the argument limit of the
    engine, [decryptWithAES] on what [encryptWithAES] returned, under a
    key with the same raw bytes and with any state of the random source,
    gives the text back, without a leading U+FEFF if it had one.  For a
    longer text [encryptWithAES] throws [RangeError] and returns
    nothing. *)
Lemma encrypt_decrypt_AES text key rng :
  is_string text = true -> isWellFormed text = true ->
  is_bytes (aes_raw key) = true ->
  (sendable text ->
   exists ciphertext iv64 rng',
     encryptWithAES text key rng = Ok ((ciphertext, iv64), rng') /\
     forall key' rng2, aes_raw key' = aes_raw key ->
       decryptWithAES ciphertext key' iv64 rng2 = Ok (strip_bom text, rng2)) /\
  (~ sendable text -> encryptWithAES text key rng = Err RangeError).
Proof.
  intros Hs Hw Hk. split; [|apply encryptWithAES_too_long].
  intros Hf. eexists _, _, _. split; [by apply encryptWithAES_ok|].
  intros key' rng2 Ek.
  rewrite decryptWithAES_encoded.
  - rewrite Ek, aes_gcm_correct. by rewrite text_roundtrip.
  - apply aes_gcm_bytes; [done | apply getRandomValues_bytes | by apply TextEncoder_bytes].
  - apply getRandomValues_bytes.
Qed.

Lemma generateRSAKeyPair_ok rng0 :
  generateRSAKeyPair rng0
  = Ok ((base64_encode (export_spki (rsa_generateKey rng0).1.1),
         (rsa_generateKey rng0).1.2),
        (rsa_generateKey rng0).2).
Proof.
  unfold generateRSAKeyPair.
  destruct (rsa_generateKey rng0) as [[pk sk] rng']. cbn [fst snd].
  erewrite bind_ok.
  2:{ apply lift_ok, bufferToBase64_bytes; [apply spki_bytes|].
      apply fits_small. pose proof (spki_length pk). lia. }
  done.
Qed.

(** Wrapping a 256-bit session key for a generated key pair, and
    unwrapping it with the private half. *)
Lemma wrap_unwrap_key key rng0 rng :
  aes_extractable key = true -> length (aes_raw key) = 32%nat ->
  is_bytes (aes_raw key) = true ->
  exists wrapped rng',
    encryptKeyWithRSA key (base64_encode (export_spki (rsa_generateKey rng0).1.1)) rng
    = Ok (wrapped, rng') /\
    forall rng2,
      decryptKeyWithRSA wrapped (rsa_generateKey rng0).1.2 rng2
      = Ok ({| aes_raw := aes_raw key; aes_extractable := true |}, rng2).
Proof.
  intros He Hl Hb.
  destruct (rsa_oaep_correct rng0 rng (aes_raw key))
    as (c & rng' & Henc & Hc & Hlc & Hdec); [lia | done |].
  exists (base64_encode c), rng'. split.
  - unfold encryptKeyWithRSA.
    erewrite bind_ok; [|apply lift_ok, base64ToBuffer_encode, spki_bytes].
    rewrite spki_roundtrip. cbn [orThrow].
    erewrite bind_ok; [|reflexivity].
    rewrite He. erewrite bind_ok; [|reflexivity].
    erewrite bind_ok; [|by rewrite Henc].
    apply lift_ok, bufferToBase64_bytes; [done|]. apply fits_small. lia.
  - intros rng2. unfold decryptKeyWithRSA.
    erewrite bind_ok; [|by apply lift_ok, base64ToBuffer_encode].
    rewrite Hdec. cbn [orThrow]. erewrite bind_ok; [|reflexivity].
    unfold importKey_raw_aes. by rewrite Hl.
Qed.

(** The sealed envelope, field by field. *)
Lemma seal_ok inputText sender recipient id now rng0 rng :
  publicKey recipient = base64_encode (export_spki (rsa_generateKey rng0).1.1) ->
  is_string inputText = true -> sendable inputText ->
  let key := (getRandomValues 32 rng).1 in
  let rng1 := (getRandomValues 32 rng).2 in
  let nonce := (getRandomValues 12 rng1).1 in
  let ct := aes_gcm_encrypt key nonce (TextEncoder_encode inputText) in
  exists wrapped rng',
    seal inputText sender recipient id now rng
    = Ok ({| mid := id; senderId := username sender;
             recipientId := username recipient; isGroup := false;
             encryptedContent := base64_encode ct;
             encryptedSessionKey := wrapped;
             iv := base64_encode nonce;
             hmac := js "GCM-SECURE"; timestamp := now |}, rng') /\
    is_bytes ct = true /\
    forall rng2,
      decryptKeyWithRSA wrapped (rsa_generateKey rng0).1.2 rng2
      = Ok ({| aes_raw := key; aes_extractable := true |}, rng2).
Proof.
  intros Hpk Hs Hf key rng1 nonce ct.
  assert (Hkb : is_bytes key = true) by apply getRandomValues_bytes.
  assert (Hkl : length key = 32%nat) by apply getRandomValues_length.
  destruct (wrap_unwrap_key {| aes_raw := key; aes_extractable := true |} rng0
              (getRandomValues 12 rng1).2 eq_refl Hkl Hkb)
    as (wrapped & rng' & Hwrap & Hunwrap).
  exists wrapped, rng'. split; [|split; [|exact Hunwrap]].
  - unfold seal.
    erewrite bind_ok.
    2:{ unfold generateAESKey.
        by rewrite (surjective_pairing (getRandomValues 32 rng)). }
    erewrite bind_ok; [|by apply encryptWithAES_ok].
    rewrite Hpk. erewrite bind_ok; [|exact Hwrap]. done.
  - apply aes_gcm_bytes; [done | apply getRandomValues_bytes | by apply TextEncoder_bytes].
Qed.

(** Beyond the argument limit [seal] throws [RangeError]; [sendMessage]
    catches it and dispatches nothing. *)
Lemma seal_too_long inputText sender recipient id now rng :
  ~ sendable inputText ->
  seal inputText sender recipient id now rng = Err RangeError.
Proof.
  intros Hf. unfold seal.
  erewrite bind_ok.
  2:{ unfold generateAESKey. by rewrite (surjective_pairing (getRandomValues 32 rng)). }
  erewrite bind_err; [done|]. by apply encryptWithAES_too_long.
Qed.

(** C1, as the code has it.  A well-formed plaintext (no unpaired
    surrogate) whose ciphertext is within the argument limit of the
    engine, sealed for a generated RSA-OAEP key pair and opened with the
    private half, is delivered as it was, except that [TextDecoder] drops a
    leading U+FEFF; a plaintext that does not begin with U+FEFF comes back
    exactly.  A longer plaintext is not sealed at all: [bufferToBase64]
    throws [RangeError] on its ciphertext. *)
Theorem seal_open_roundtrip inputText sender recipient id now rng0 rng sk rng1 :
  generateRSAKeyPair rng0 = Ok ((publicKey recipient, sk), rng1) ->
  is_string inputText = true -> isWellFormed inputText = true ->
  (sendable inputText ->
   exists msg rng',
     seal inputText sender recipient id now rng = Ok (msg, rng') /\
     (forall rng2, receiveChat (Some sk) msg rng2 = Delivered msg (strip_bom inputText)) /\
     (hd_error inputText <> Some 0xFEFF -> strip_bom inputText = inputText)) /\
  (~ sendable inputText ->
   seal inputText sender recipient id now rng = Err RangeError).
Proof.
  intros Hgen Hs Hw. split; [|by apply seal_too_long].
  intros Hf. rewrite generateRSAKeyPair_ok in Hgen.
  injection Hgen as Hpk Hsk _.
  destruct (seal_ok inputText sender recipient id now rng0 rng (eq_sym Hpk) Hs Hf)
    as (wrapped & rng' & Hseal & Hct & Hunwrap).
  eexists _, rng'. split; [exact Hseal|]. split.
  - intros rng2. unfold receiveChat.
    cbn [encryptedSessionKey encryptedContent iv].
    erewrite bind_ok; [|rewrite <- Hsk; apply Hunwrap].
    rewrite decryptWithAES_encoded by (done || apply getRandomValues_bytes).
    cbn [aes_raw]. rewrite aes_gcm_correct. by rewrite text_roundtrip.
  - intros Hhd. destruct inputText as [|c s]; [done|].
    unfold strip_bom. destruct c as [|p]; [done|].
    do 16 (destruct p as [p|p|]; try done).
Qed.

(** What the receive side does with an altered ciphertext.  It rejects an
    envelope whose ciphertext, the bytes carried in [encryptedContent],
    has one byte altered, and one whose [encryptedContent] is no Base64
    text. *)
Lemma tamper_detection inputText sender recipient id now rng0 rng sk rng1 :
  generateRSAKeyPair rng0 = Ok ((publicKey recipient, sk), rng1) ->
  is_string inputText = true -> isWellFormed inputText = true ->
  sendable inputText ->
  exists msg rng' ct,
    seal inputText sender recipient id now rng = Ok (msg, rng') /\
    base64ToBuffer (encryptedContent msg) = Ok ct /\
    (forall s' i b rng2,
       (i < length ct)%nat -> ct !! i <> Some b ->
       base64ToBuffer s' = Ok (<[i := b]> ct) ->
       receiveChat (Some sk) (with_encryptedContent s' msg) rng2 = IntegrityViolation) /\
    (forall s' e rng2,
       base64ToBuffer s' = Err e ->
       receiveChat (Some sk) (with_encryptedContent s' msg) rng2 = IntegrityViolation).
Proof.
  intros Hgen Hs Hw Hf. rewrite generateRSAKeyPair_ok in Hgen.
  injection Hgen as Hpk Hsk _.
  destruct (seal_ok inputText sender recipient id now rng0 rng (eq_sym Hpk) Hs Hf)
    as (wrapped & rng' & Hseal & Hct & Hunwrap).
  rewrite Hsk in Hunwrap.
  eexists _, rng', _. split; [exact Hseal|].
  cbn [encryptedContent].
  split; [by apply base64ToBuffer_encode|]. split.
  - intros s' i b rng2 Hi Hb Hs'. unfold receiveChat.
    cbn [with_encryptedContent encryptedSessionKey encryptedContent iv].
    erewrite bind_ok; [|apply Hunwrap].
    unfold decryptWithAES.
    erewrite bind_ok;
      [|apply lift_ok, base64ToBuffer_encode, getRandomValues_bytes].
    erewrite bind_ok; [|apply lift_ok, Hs'].
    cbn [aes_raw]. rewrite aes_gcm_authentic; [done | by apply TextEncoder_bytes | | done | done].
    by eapply altered_byte.
  - intros s' e rng2 Hs'. unfold receiveChat.
    cbn [with_encryptedContent encryptedSessionKey encryptedContent iv].
    erewrite bind_ok; [|apply Hunwrap].
    unfold decryptWithAES.
    erewrite bind_ok;
      [|apply lift_ok, base64ToBuffer_encode, getRandomValues_bytes].
    erewrite bind_err; [done|]. unfold lift. by rewrite Hs'.
Qed.

(** *** The master key *)

Lemma lxor_byte a b : a < 256 -> b < 256 -> N.lxor a b < 256.
Proof.
  intros Ha Hb.
  destruct (N.eq_dec (N.lxor a b) 0) as [->|Hne]; [lia|].
  change 256 with (2 ^ 8). apply N.log2_lt_pow2; [lia|].
  pose proof (N.log2_lxor a b) as Hl.
  assert (N.log2 a < 8).
  { destruct (N.eq_dec a 0) as [->|]; [done|]. apply N.log2_lt_pow2; lia. }
  assert (N.log2 b < 8).
  { destruct (N.eq_dec b 0) as [->|]; [done|]. apply N.log2_lt_pow2; lia. }
  lia.
Qed.

Lemma xor_bytes_bytes a b :
  is_bytes a = true -> is_bytes b = true -> is_bytes (xor_bytes a b) = true.
Proof.
  revert b. induction a as [|x a IH]; intros [|y b]; cbn; try done.
  rewrite !andb_true_iff, !N.ltb_lt. intros [Hx Ha] [Hy Hb].
  split; [by apply lxor_byte | by apply IH].
Qed.

Lemma hmac_sha256_digest key msg :
  length (hmac_sha256 key msg) = 32%nat /\ is_bytes (hmac_sha256 key msg) = true.
Proof. unfold hmac_sha256. split; [apply sha256_length | apply sha256_bytes]. Qed.

Lemma pbkdf2_block_digest P S c :
  length (pbkdf2_block P S c) = 32%nat /\ is_bytes (pbkdf2_block P S c) = true.
Proof.
  unfold pbkdf2_block.
  apply (N.iter_invariant (c - 1) _ _
           (fun UT => (length (fst UT) = 32%nat /\ is_bytes (fst UT) = true) /\
                      (length (snd UT) = 32%nat /\ is_bytes (snd UT) = true))).
  - intros [U T] [[HU1 HU2] [HT1 HT2]]. cbn [fst snd] in *.
    pose proof (hmac_sha256_digest P U) as [Hl Hb].
    split; [done|]. split.
    + unfold xor_bytes. rewrite length_zip_with. lia.
    + by apply xor_bytes_bytes.
  - cbn [fst snd]. pose proof (hmac_sha256_digest P (S ++ [0; 0; 0; 1])). tauto.
Qed.

(** The derived key has 256 bits, whatever the password, and deriving it
    draws nothing from the random source. *)
Lemma deriveKeyFromPassword_key password salt :
  exists m, (forall rng, deriveKeyFromPassword password salt rng = Ok (m, rng)) /\
            length (aes_raw m) = 32%nat /\ is_bytes (aes_raw m) = true /\
            aes_extractable m = false.
Proof.
  eexists. split; [reflexivity|]. cbn [aes_raw aes_extractable].
  destruct (pbkdf2_block_digest (TextEncoder_encode password)
              (TextEncoder_encode salt) 100000) as [Hl Hb].
  rewrite firstn_all2 by lia.
  split; [exact Hl | split; [exact Hb | reflexivity]].
Qed.



(** *** What the round trips leave out *)









(** Sealing for a generated key pair and receiving with its private half:
    the envelope carries the label ['GCM-SECURE'] and is delivered with the
    decoded plaintext. *)
Lemma seal_receive inputText sender recipient id now rng0 rng sk rng1 :
  generateRSAKeyPair rng0 = Ok ((publicKey recipient, sk), rng1) ->
  is_string inputText = true -> isWellFormed inputText = true ->
  sendable inputText ->
  exists msg rng',
    seal inputText sender recipient id now rng = Ok (msg, rng') /\
    hmac msg = js "GCM-SECURE" /\
    forall rng2, receiveChat (Some sk) msg rng2 = Delivered msg (strip_bom inputText).
Proof.
  intros Hgen Hs Hw Hf. rewrite generateRSAKeyPair_ok in Hgen.
  injection Hgen as Hpk Hsk _.
  destruct (seal_ok inputText sender recipient id now rng0 rng (eq_sym Hpk) Hs Hf)
    as (wrapped & rng' & Hseal & Hct & Hunwrap).
  eexists _, rng'. split; [exact Hseal|]. split; [reflexivity|].
  intros rng2. unfold receiveChat.
  cbn [encryptedSessionKey encryptedContent iv].
  erewrite bind_ok; [|rewrite <- Hsk; apply Hunwrap].
  rewrite decryptWithAES_encoded by (done || apply getRandomValues_bytes).
  cbn [aes_raw]. rewrite aes_gcm_correct. by rewrite text_roundtrip.
Qed.

(** A plaintext that begins with U+FEFF is delivered without it. *)
Lemma seal_open_bom text sender recipient id now rng0 rng sk rng1 :
  generateRSAKeyPair rng0 = Ok ((publicKey recipient, sk), rng1) ->
  is_string text = true -> isWellFormed text = true ->
  sendable (0xFEFF :: text) ->
  exists msg rng',
    seal (0xFEFF :: text) sender recipient id now rng = Ok (msg, rng') /\
    forall rng2, receiveChat (Some sk) msg rng2 = Delivered msg text.
Proof.
  intros Hgen Hs Hw Hf.
  destruct (seal_receive (0xFEFF :: text) sender recipient id now rng0 rng sk rng1)
    as (msg & rng' & Hseal & _ & Hopen); try done.
  by exists msg, rng'.
Qed.

(** The receive side never reads the [hmac] field. *)
Lemma receiveChat_ignores_hmac privateKey h msg rng :
  receiveChat privateKey (with_hmac h msg) rng
  = match receiveChat privateKey msg rng with
    | Delivered _ text => Delivered (with_hmac h msg) text
    | outcome => outcome
    end.
Proof.
  destruct privateKey as [sk|]; [|done]. unfold receiveChat.
  cbn [with_hmac encryptedSessionKey encryptedContent iv].
  by destruct (bind _ _ rng) as [[text rng']|e].
Qed.

End CryptoService.

(* ===================================================================== *)
(** ** An executable model of the interface *)
(* ===================================================================== *)

(** The facts assumed of Web Crypto are consistent: the primitives below
    satisfy them all.  They compute, so that the service runs on concrete
    inputs.  They protect nothing and stand for the real primitives only
    through those facts. *)

From Stdlib Require Strings.Byte.

(** An engine with the argument limit of JavaScriptCore. *)
Lemma model_limit : 4096 <= 65536.
Proof. lia. Qed.

#[export] Instance ModelEngine : Engine :=
  {| max_arguments := 65536; max_arguments_min := model_limit |}.

Definition add_bytes (a b : bytes) : bytes :=
  zip_with (fun x y => (x + y) mod 256) a b.

(** A digest of 32 bytes: the first 32 bytes of the message, to which are
    added, byte by byte, its third group of 32 bytes or, for a message
    whose byte 32 is [0x36] (the inner message of HMAC under a short
    key), its length. *)
Definition model_sha256 (m : bytes) : bytes :=
  add_bytes (take 32 (m ++ repeat 0 32))
    (if nth 32 m 0 =? 0x36 then repeat (N.of_nat (length m)) 32
     else take 32 (drop 64 m ++ repeat 0 32)).

Definition byte_sum (l : bytes) : N := fold_right N.add 0 l mod 256.

(** A tag of 16 bytes over plaintext, nonce and key. *)
Definition model_tag (k nonce pt : bytes) : bytes :=
  [byte_sum pt; byte_sum nonce] ++ take 14 (k ++ repeat 0 14).

Definition model_encrypt (k nonce pt : bytes) : bytes := pt ++ model_tag k nonce pt.

Definition model_decrypt (k nonce c : bytes) : option bytes :=
  let n := (length c - 16)%nat in
  if (16 <=? length c)%nat then
    if decide (drop n c = model_tag k nonce (take n c)) then Some (take n c) else None
  else None.

Definition model_key := Byte.byte.

Definition model_export (k : model_key) : bytes := [Byte.to_N k].

Definition model_import (bs : bytes) : option model_key :=
  match bs with
  | [x] => Byte.of_N x
  | _ => None
  end.

Definition model_generateKey (rng : RNG) : model_key * model_key * RNG :=
  let key := match Byte.of_N (rng 0%nat mod 256) with
             | Some x => x
             | None => Byte.x00
             end in
  (key, key, (getRandomValues 1 rng).2).

(** A ciphertext of 256 bytes: the key, the length of the message, the
    message, zero bytes. *)
Definition model_rsa_encrypt (pk : model_key) (m : bytes) (rng : RNG)
  : option (bytes * RNG) :=
  if (length m <=? 190)%nat
  then Some (Byte.to_N pk :: N.of_nat (length m) :: m ++ repeat 0 (254 - length m), rng)
  else None.

Definition model_rsa_decrypt (sk : model_key) (c : bytes) : option bytes :=
  match c with
  | a :: n :: rest =>
      if decide (a = Byte.to_N sk) then Some (take (N.to_nat n) rest) else None
  | _ => None
  end.

Lemma model_sha256_length m : length (model_sha256 m) = 32%nat.
Proof.
  unfold model_sha256, add_bytes. rewrite length_zip_with, length_take, length_app,
    repeat_length.
  destruct (nth 32 m 0 =? 54);
    rewrite ?repeat_length, ?length_take, ?length_app, ?repeat_length; lia.
Qed.

Lemma model_sha256_bytes m : is_bytes (model_sha256 m) = true.
Proof.
  unfold model_sha256, add_bytes, is_bytes. apply forallb_forall.
  intros x Hx. apply list_elem_of_In, elem_of_zip_with in Hx as (a & b & -> & _).
  apply N.ltb_lt. by apply N.mod_lt.
Qed.

Lemma length_model_tag k nonce pt : length (model_tag k nonce pt) = 16%nat.
Proof.
  unfold model_tag. cbn [app length]. rewrite length_take, length_app, repeat_length. lia.
Qed.

Lemma model_encrypt_length k nonce pt :
  length (model_encrypt k nonce pt) = (length pt + 16)%nat.
Proof. unfold model_encrypt. by rewrite length_app, length_model_tag. Qed.

Lemma is_bytes_take n l : is_bytes l = true -> is_bytes (take n l) = true.
Proof.
  intros Hl. rewrite <- (take_drop n l), is_bytes_app in Hl.
  by apply andb_prop in Hl as [? _].
Qed.

Lemma is_bytes_repeat x n : x < 256 -> is_bytes (repeat x n) = true.
Proof.
  intros Hx. unfold is_bytes. apply forallb_forall. intros y Hy.
  apply repeat_spec in Hy as ->. by apply N.ltb_lt.
Qed.

Lemma model_encrypt_bytes k nonce pt :
  is_bytes k = true -> is_bytes nonce = true -> is_bytes pt = true ->
  is_bytes (model_encrypt k nonce pt) = true.
Proof.
  intros Hk Hn Hp. unfold model_encrypt, model_tag.
  rewrite !is_bytes_app, Hp. cbn [andb].
  rewrite is_bytes_take by (by rewrite is_bytes_app, Hk, is_bytes_repeat).
  unfold byte_sum. cbn [is_bytes forallb].
  rewrite !andb_true_iff, !N.ltb_lt. repeat split; by apply N.mod_lt.
Qed.

Lemma model_decrypt_encrypt k nonce pt :
  model_decrypt k nonce (model_encrypt k nonce pt) = Some pt.
Proof.
  unfold model_decrypt. rewrite model_encrypt_length.
  replace (length pt + 16 - 16)%nat with (length pt) by lia.
  replace (16 <=? length pt + 16)%nat with true by (symmetry; apply Nat.leb_le; lia).
  unfold model_encrypt. rewrite take_app_length, drop_app_length.
  by rewrite decide_True.
Qed.

Lemma sum_insert (l : list N) i x b :
  l !! i = Some x ->
  fold_right N.add 0 (<[i := b]> l) + x = fold_right N.add 0 l + b.
Proof.
  revert i. induction l as [|y l IH]; intros [|i] Hi; try done.
  - injection Hi as ->. cbn [insert list_insert fold_right].
    generalize (fold_right N.add 0 l). intros t. lia.
  - cbn in Hi. cbn [insert list_insert fold_right]. specialize (IH i Hi).
    unfold insert in *. revert IH.
    generalize (fold_right N.add 0 (list_insert i b l)), (fold_right N.add 0 l).
    intros t t' IH. lia.
Qed.

Lemma byte_sum_insert (l : list N) i x b :
  l !! i = Some x -> x < 256 -> b < 256 -> b <> x ->
  byte_sum (<[i := b]> l) <> byte_sum l.
Proof.
  intros Hi Hx Hb Hne. unfold byte_sum.
  pose proof (sum_insert l i x b Hi) as E. revert E.
  generalize (fold_right N.add 0 (<[i := b]> l)), (fold_right N.add 0 l).
  intros t t' E. lia.
Qed.

Lemma model_decrypt_altered k nonce pt i b :
  is_bytes pt = true -> b < 256 ->
  (i < length (model_encrypt k nonce pt))%nat ->
  model_encrypt k nonce pt !! i <> Some b ->
  model_decrypt k nonce (<[i := b]> (model_encrypt k nonce pt)) = None.
Proof.
  intros Hp Hb Hi Hne. unfold model_decrypt. unfold bytes in *.
  rewrite length_insert, model_encrypt_length.
  rewrite model_encrypt_length in Hi.
  replace (length pt + 16 - 16)%nat with (length pt) by lia.
  replace (16 <=? length pt + 16)%nat with true by (symmetry; apply Nat.leb_le; lia).
  unfold model_encrypt in *. unfold bytes in *.
  destruct (decide (i < length pt)%nat) as [Hlt|Hge].
  - rewrite take_insert_lt, drop_insert_lt by done.
    rewrite take_app_length, drop_app_length.
    destruct (pt !! i) as [x|] eqn:Ex; [|by apply lookup_ge_None in Ex; lia].
    rewrite lookup_app_l, Ex in Hne by done.
    destruct (decide _) as [E|]; [|done]. exfalso.
    unfold model_tag in E. injection E as E.
    symmetry in E. revert E. apply byte_sum_insert with x; [done | | done | congruence].
    apply (is_bytes_lt pt x Hp). apply list_elem_of_In. by eapply list_elem_of_lookup_2.
  - rewrite take_insert_ge, drop_insert_ge by lia.
    rewrite take_app_length, drop_app_length.
    rewrite lookup_app_r in Hne by lia.
    destruct (decide _) as [E|]; [|done]. exfalso. apply Hne.
    rewrite <- E at 1. apply list_lookup_insert_eq. rewrite length_model_tag. lia.
Qed.


Lemma model_export_bytes k : is_bytes (model_export k) = true.
Proof.
  unfold model_export, is_bytes. cbn [forallb]. rewrite andb_true_r.
  apply N.ltb_lt. pose proof (Byte.to_N_bounded k). lia.
Qed.

Lemma model_export_length k : (length (model_export k) <= 1024)%nat.
Proof. cbn. lia. Qed.

Lemma model_export_length' k : (length (model_export k) <= 4000)%nat.
Proof. cbn. lia. Qed.

Lemma model_import_export k : model_import (model_export k) = Some k.
Proof. apply Byte.of_to_N. Qed.

Lemma model_rsa_correct rng0 rng m :
  (length m <= 190)%nat -> is_bytes m = true ->
  exists c rng',
    model_rsa_encrypt (model_generateKey rng0).1.1 m rng = Some (c, rng') /\
    is_bytes c = true /\ length c = 256%nat /\
    model_rsa_decrypt (model_generateKey rng0).1.2 c = Some m.
Proof.
  intros Hl Hb. unfold model_generateKey. cbn [fst snd].
  set (key := match Byte.of_N _ with Some x => x | None => Byte.x00 end).
  eexists _, rng. split; [|split; [|split]].
  - unfold model_rsa_encrypt. by rewrite (proj2 (Nat.leb_le _ _) Hl).
  - cbn [is_bytes forallb]. fold (is_bytes (m ++ repeat 0 (254 - length m))).
    rewrite is_bytes_app, Hb, is_bytes_repeat by lia.
    rewrite !andb_true_iff, !N.ltb_lt. pose proof (Byte.to_N_bounded key).
    repeat split; lia.
  - cbn [length]. rewrite length_app, repeat_length. lia.
  - unfold model_rsa_decrypt. rewrite decide_True by done.
    by rewrite Nat2N.id, take_app_length.
Qed.

#[export] Instance ModelCrypto : WebCrypto := {|
  sha256 := model_sha256;
  sha256_length := model_sha256_length;
  sha256_bytes := model_sha256_bytes;
  aes_gcm_encrypt := model_encrypt;
  aes_gcm_decrypt := model_decrypt;
  aes_gcm_bytes := model_encrypt_bytes;
  aes_gcm_length := model_encrypt_length;
  aes_gcm_correct := model_decrypt_encrypt;
  aes_gcm_authentic := model_decrypt_altered;
  RSAPublicKey := model_key;
  RSAPrivateKey := model_key;
  rsa_generateKey := model_generateKey;
  rsa_oaep_encrypt := model_rsa_encrypt;
  rsa_oaep_decrypt := model_rsa_decrypt;
  rsa_oaep_correct := model_rsa_correct;
  export_spki := model_export;
  import_spki := model_import;
  spki_bytes := model_export_bytes;
  spki_length := model_export_length;
  spki_roundtrip := model_import_export;
  export_pkcs8 := model_export;
  import_pkcs8 := model_import;
  pkcs8_bytes := model_export_bytes;
  pkcs8_length := model_export_length';
  pkcs8_roundtrip := model_import_export
|}.

(** *** Key derivation in the model

    Under a password of at most 32 bytes the model HMAC depends on its
    message through the length alone, so the 100000 rounds of PBKDF2 come
    down to two HMAC values. *)






(* ===================================================================== *)
(** ** Concrete runs of the crypto layer *)
(* ===================================================================== *)

(** A fixed stream of random values. *)
Definition dice : RNG := fun n => N.of_nat (37 * n + 11).

(** Frank's key pair, generated from [dice]; Erin writes to Frank. *)
Definition frank_key : @RSAPrivateKey ModelCrypto := (rsa_generateKey dice).1.2.

Definition erin : User :=
  {| uid := js "u5"; username := js "erin"; publicKey := js "pkE" |}.

Definition frank : User :=
  {| uid := js "u6"; username := js "frank";
     publicKey := base64_encode (export_spki (rsa_generateKey dice).1.1) |}.

Lemma frank_pair :
  generateRSAKeyPair dice = Ok ((publicKey frank, frank_key), (rsa_generateKey dice).2).
Proof. exact (generateRSAKeyPair_ok dice). Qed.

Lemma hello_sendable : sendable (js "hello").
Proof. vm_compute. intros E. discriminate E. Qed.

(** A text of 65521 letters: with the 16 bytes of the tag its ciphertext
    is one byte beyond the limit of the model engine. *)
Definition long_text : jsstring := repeat 97 (N.to_nat 65521).

Lemma long_text_string : is_string long_text = true /\ isWellFormed long_text = true.
Proof. split; by vm_compute. Qed.

Lemma long_text_too_long : ~ sendable long_text.
Proof. vm_compute. intros E. by apply E. Qed.

Lemma seal_open_roundtrip_witness :
  generateRSAKeyPair dice = Ok ((publicKey frank, frank_key), (rsa_generateKey dice).2) /\
  (exists msg rng',
     seal (js "hello") erin frank (js "m1") 1700000000000 dice = Ok (msg, rng') /\
     (forall rng2, receiveChat (Some frank_key) msg rng2
                   = Delivered msg (strip_bom (js "hello"))) /\
     (hd_error (js "hello") <> Some 0xFEFF -> strip_bom (js "hello") = js "hello")) /\
  seal long_text erin frank (js "m1") 1700000000000 dice = Err RangeError.
Proof.
  split; [exact frank_pair|]. split.
  - exact (proj1 (seal_open_roundtrip (js "hello") erin frank (js "m1") 1700000000000
                    dice dice frank_key _ frank_pair eq_refl eq_refl) hello_sendable).
  - exact (proj2 (seal_open_roundtrip long_text erin frank (js "m1") 1700000000000
                    dice dice frank_key _ frank_pair
                    (proj1 long_text_string) (proj2 long_text_string))
             long_text_too_long).
Defined.

(** A message that begins with U+FEFF passes the guard of [sendMessage],
    is sealed in full, and is delivered without its first character. *)
Lemma leading_bom_is_dropped :
  exists msg rng',
    sendMessage (0xFEFF :: js "hi") (Some frank) (Some erin) (js "m2") 1700000000000 dice
    = Dispatched msg /\
    seal (0xFEFF :: js "hi") erin frank (js "m2") 1700000000000 dice = Ok (msg, rng') /\
    receiveChat (Some frank_key) msg rng' = Delivered msg (js "hi") /\
    js "hi" <> 0xFEFF :: js "hi".
Proof.
  assert (Hf : sendable (0xFEFF :: js "hi")) by (vm_compute; intros E; discriminate E).
  destruct (seal_open_bom (js "hi") erin frank (js "m2") 1700000000000
              dice dice frank_key _ frank_pair eq_refl eq_refl Hf)
    as (msg & rng' & Hseal & Hopen).
  exists msg, rng'. split; [|split; [exact Hseal | split; [apply Hopen | discriminate]]].
  unfold sendMessage.
  change (trim (0xFEFF :: js "hi")) with (js "hi").
  cbn [js]. by rewrite Hseal.
Qed.

Lemma tamper_detection_witness :
  generateRSAKeyPair dice = Ok ((publicKey frank, frank_key), (rsa_generateKey dice).2) /\
  exists msg rng' ct,
    seal (js "hello") erin frank (js "m3") 1700000000000 dice = Ok (msg, rng') /\
    base64ToBuffer (encryptedContent msg) = Ok ct /\
    (forall s' i b rng2,
       (i < length ct)%nat -> ct !! i <> Some b ->
       base64ToBuffer s' = Ok (<[i := b]> ct) ->
       receiveChat (Some frank_key) (with_encryptedContent s' msg) rng2
       = IntegrityViolation) /\
    (forall s' e rng2,
       base64ToBuffer s' = Err e ->
       receiveChat (Some frank_key) (with_encryptedContent s' msg) rng2
       = IntegrityViolation).
Proof.
  split; [exact frank_pair|].
  exact (tamper_detection (js "hello") erin frank (js "m3") 1700000000000
           dice dice frank_key _ frank_pair eq_refl eq_refl hello_sendable).
Defined.

(** C2, at the failing input.  Erin seals ['hello'] for Frank; the
    envelope carries [hmac: 'GCM-SECURE'].  In transit the last character
    of that field is replaced, the envelope arrives with
    [hmac: 'GCM-SECURF'].  The receive side, [decryptKeyWithRSA] followed
    by [decryptWithAES], does not fail: it never reads the field, and the
    altered envelope is delivered with the plaintext ['hello']. *)
Theorem altered_hmac_is_accepted :
  exists msg rng',
    seal (js "hello") erin frank (js "m3") 1700000000000 dice = Ok (msg, rng') /\
    hmac msg = js "GCM-SECURE" /\
    hmac (with_hmac (js "GCM-SECURF") msg) <> hmac msg /\
    receiveChat (Some frank_key) (with_hmac (js "GCM-SECURF") msg) rng'
    = Delivered (with_hmac (js "GCM-SECURF") msg) (js "hello").
Proof.
  destruct (seal_receive (js "hello") erin frank (js "m3") 1700000000000
              dice dice frank_key _ frank_pair eq_refl eq_refl hello_sendable)
    as (msg & rng' & Hseal & Hh & Hopen).
  exists msg, rng'. split; [exact Hseal|]. split; [exact Hh|]. split.
  - cbn [with_hmac hmac]. rewrite Hh. discriminate.
  - by rewrite receiveChat_ignores_hmac, Hopen.
Qed.



(* ===================================================================== *)
(** ** More about the session manager *)
(* ===================================================================== *)

Ltac fields :=
  repeat first
    [ progress (cbn [svc heap timers next_timer throws calls trace
                     peer connections handlers errorHandlers myId myUser isOnline
                     reconnectDelay reconnectTimeout isDestroyed
                     with_svc with_heap with_timers emit transport_call
                     set_peer set_connections set_handlers set_errorHandlers
                     set_identity set_isOnline set_reconnectDelay
                     set_reconnectTimeout set_isDestroyed fst snd] in * )
    | case_match
    | done
    | congruence ].

Ltac project :=
  cbn [svc heap timers next_timer throws calls trace
       peer connections handlers errorHandlers myId myUser isOnline
       reconnectDelay reconnectTimeout isDestroyed
       with_svc with_heap with_timers emit transport_call
       set_peer set_connections set_handlers set_errorHandlers
       set_identity set_isOnline set_reconnectDelay
       set_reconnectTimeout set_isDestroyed fst snd] in *.

Section SessionFrames.
Context `{CaseMapping}.

(** Everything of the node except its connection registry, the connection
    objects and the log of effects. *)
Definition node_state (w : World) :=
  (peer (svc w), handlers (svc w), errorHandlers (svc w), myId (svc w),
   myUser (svc w), isOnline (svc w), isDestroyed (svc w), recon w, next_timer w).

Lemma node_setupConnection c w : node_state (setupConnection c w) = node_state w.
Proof. unfold node_state, recon, setupConnection. fields. Qed.

Lemma node_peer_connect target w : node_state (peer_connect target w).2 = node_state w.
Proof. unfold node_state, recon, peer_connect. fields. Qed.

Lemma node_conn_send c m w : node_state (conn_send c m w).2 = node_state w.
Proof. unfold node_state, recon, conn_send. fields. Qed.

Lemma node_forEachError ty msg w : node_state (forEachError ty msg w) = node_state w.
Proof. done. Qed.

Lemma node_registry_set k c w : node_state (registry_set k c w) = node_state w.
Proof. done. Qed.

Lemma node_registry_delete k w : node_state (registry_delete k w) = node_state w.
Proof. done. Qed.

Lemma node_with_heap f w : node_state (with_heap f w) = node_state w.
Proof. done. Qed.

Lemma node_run_on_open c ms w : node_state (run_on_open c ms w) = node_state w.
Proof.
  revert w. induction ms as [|m ms IH]; intros w; cbn [run_on_open]; [done|].
  pose proof (node_conn_send c m w) as E.
  destruct (conn_send c m w) as [[] w']; cbn [snd] in E; [done|].
  by rewrite IH.
Qed.

Lemma node_connectToPeer u w : node_state (connectToPeer u w) = node_state w.
Proof.
  unfold connectToPeer.
  destruct (decide _); [done|].
  destruct (match connections (svc w) !! _ with Some _ => _ | None => _ end); [done|].
  destruct (_ || _); [done|].
  pose proof (node_peer_connect (toNodeId u) w) as E.
  destruct (peer_connect _ w) as [[c|] w1]; cbn [snd] in E.
  - by rewrite node_setupConnection.
  - by rewrite node_forEachError.
Qed.

Lemma node_send fuel m w w' : send fuel m w = Some w' -> node_state w' = node_state w.
Proof.
  revert w w'. induction fuel as [|fuel IH]; intros w w' E; cbn [send] in E; [done|].
  destruct (negb (isOnline (svc w))); [by injection E as <-|].
  destruct (match connections (svc w) !! _ with Some _ => _ | None => _ end)
    as [conn|].
  - pose proof (node_conn_send conn (CHAT m) w) as Es.
    destruct (conn_send conn (CHAT m) w) as [[] w1]; cbn [snd] in Es.
    + apply IH in E. by rewrite E.
    + congruence.
  - pose proof (node_peer_connect (toNodeId (recipientId m)) w) as Ec.
    destruct (peer_connect _ w) as [[c|] w1]; cbn [snd] in Ec; injection E as <-.
    + by rewrite node_with_heap, node_setupConnection.
    + by rewrite node_forEachError.
Qed.

Lemma node_on_conn_open c w : node_state (on_conn_open c w) = node_state w.
Proof.
  unfold on_conn_open.
  destruct (heap w !! c) as [conn|]; [|done].
  set (w0 := with_heap _ w).
  assert (E0 : node_state w0 = node_state w) by done.
  destruct (conn_setup conn).
  - destruct (myUser (svc w0)) as [u|].
    + pose proof (node_conn_send c (IDENTITY_EXCHANGE (publicKey u) (username u)) w0) as E.
      destruct (conn_send c _ w0) as [[] w1]; cbn [snd] in E; [congruence|].
      by rewrite node_run_on_open, node_registry_set, E.
    + by rewrite node_run_on_open.
  - by rewrite node_run_on_open.
Qed.

Lemma node_on_conn_data c m w : node_state (on_conn_data c m w) = node_state w.
Proof. unfold node_state, recon, on_conn_data, forEachHandler, registry_set. fields. Qed.

Lemma node_cleanup c w : node_state (cleanup c w) = node_state w.
Proof. unfold node_state, recon, cleanup, registry_delete. fields. Qed.

Lemma node_on_conn_close c w : node_state (on_conn_close c w) = node_state w.
Proof.
  unfold on_conn_close. destruct (heap w !! c); [|done].
  by rewrite node_cleanup.
Qed.

Lemma node_on_peer_connection r w : node_state (on_peer_connection r w) = node_state w.
Proof.
  unfold on_peer_connection. destruct (peer (svc w)); [|done].
  by rewrite node_setupConnection.
Qed.

(** The events that concern a single link to another node. *)
Definition is_link_event (e : Event) : bool :=
  match e with
  | ConnectToPeer _ | Send _ | PeerConnection _
  | ConnOpen _ | ConnData _ _ | ConnClosed _ | ConnError _ => true
  | _ => false
  end.

(** X1.  [connectToPeer], [send], an inbound connection and the [open],
    [data], [close] and [error] listeners of a connection change nothing
    of the node but its registry, the connection objects and the effects:
    the peer object, both handler sets, [myId], [myUser], [isOnline],
    [isDestroyed] and the whole reconnect state stay as they are. *)
Theorem link_events_frame e w :
  is_link_event e = true -> node_state (step e w) = node_state w.
Proof.
  intros He. destruct e; try discriminate He; cbn [step].
  - apply node_connectToPeer.
  - destruct (send 2 message w) as [w'|] eqn:E; [|done].
    by eapply node_send.
  - apply node_on_peer_connection.
  - apply node_on_conn_open.
  - apply node_on_conn_data.
  - apply node_on_conn_close.
  - apply node_cleanup.
Qed.

End SessionFrames.

Lemma link_events_frame_witness :
  node_state (step (Send hello) talking) = node_state talking.
Proof. exact (link_events_frame (Send hello) talking eq_refl). Defined.

Section SessionInvariants.
Context `{CaseMapping}.

Local Open Scope Q_scope.

Definition delay_in_range (w : World) : Prop :=
  1000 <= reconnectDelay (svc w) /\ reconnectDelay (svc w) <= 30000.

Lemma step_delay_in_range e w : delay_in_range w -> delay_in_range (step e w).
Proof.
  unfold delay_in_range. intros [Hlo Hhi]. rewrite step_delay.
  destruct e; try done.
  - destruct (peer (svc w)); [split; lra | done].
  - destruct (timer_pending t w); [|done]. unfold maxReconnectDelay. split.
    + apply Q.min_glb; lra.
    + apply Q.le_min_r.
Qed.

(** X2.  In every reachable state the reconnect delay lies between the
    floor of 1000 ms and the ceiling of 30000 ms. *)
Theorem reconnectDelay_in_range w :
  reachable w ->
  1000 <= reconnectDelay (svc w) /\ reconnectDelay (svc w) <= 30000.
Proof.
  intros (oracle & es & ->).
  assert (Hrun : forall es w, delay_in_range w -> delay_in_range (run es w)).
  { clear. induction es as [|e es IH]; intros w Hw; [done|].
    apply (IH (step e w)). by apply step_delay_in_range. }
  apply Hrun. split; cbn; lra.
Qed.

Lemma backoff_ceiling m : backoff (9 + m) == 30000.
Proof.
  induction m as [|m IH].
  - reflexivity.
  - rewrite Nat.add_succ_r, <- backoff_succ, IH. reflexivity.
Qed.

(** X3.  From the floor delay, a run without Online transition that makes
    nine or more reconnect attempts ends with the delay at the ceiling of
    30000 ms, where it stays. *)
Theorem backoff_reaches_ceiling w es :
  reconnectDelay (svc w) == 1000 -> no_open es = true ->
  (9 <= attempts es w)%nat ->
  reconnectDelay (svc (run es w)) == 30000.
Proof.
  intros Hd Hn Ha.
  rewrite (run_backoff es w 0) by (by rewrite ?backoff_0).
  replace (0 + attempts es w)%nat with (9 + (attempts es w - 9))%nat by lia.
  apply backoff_ceiling.
Qed.

Local Close Scope Q_scope.

(** *** The timer handle that [destroy] leaves behind *)

(** No timeout is pending, yet the service holds a handle. *)
Definition stale (t : nat) (w : World) : Prop :=
  timers w = [] /\ reconnectTimeout (svc w) = Some t.

Lemma stale_recon t w w' : recon w' = recon w -> stale t w -> stale t w'.
Proof. unfold recon, stale. intros [= E1 E2 _]. by rewrite E1, E2. Qed.

Lemma stale_handleReconnect t w w1 :
  timers w1 = timers w -> reconnectTimeout (svc w1) = reconnectTimeout (svc w) ->
  stale t w -> stale t (handleReconnect w1).
Proof.
  intros E1 E2 [Ht Hs].
  rewrite (recon_handleReconnect_pending w1 t) by congruence.
  split; congruence.
Qed.

Lemma remove_timer_absent t l :
  existsb (fun e : nat * Q => Nat.eqb (fst e) t) (remove_timer t l) = false.
Proof.
  unfold remove_timer. induction l as [|[t' d] l IH]; [done|].
  cbn [List.filter fst]. destruct (Nat.eqb t' t) eqn:E; cbn [negb]; [done|].
  cbn [existsb fst]. by rewrite E, IH.
Qed.

(** What [destroy] does to each field. *)
Lemma destroy_fields w :
  peer (svc (destroy w)) = set_peer_flags true true <$> peer (svc w) /\
  connections (svc (destroy w)) = ∅ /\
  handlers (svc (destroy w)) = handlers (svc w) /\
  errorHandlers (svc (destroy w)) = errorHandlers (svc w) /\
  myId (svc (destroy w)) = myId (svc w) /\
  myUser (svc (destroy w)) = myUser (svc w) /\
  isOnline (svc (destroy w)) = false /\
  isDestroyed (svc (destroy w)) = true /\
  reconnectDelay (svc (destroy w)) = reconnectDelay (svc w) /\
  reconnectTimeout (svc (destroy w)) = reconnectTimeout (svc w) /\
  next_timer (destroy w) = next_timer w /\
  timers (destroy w) = match reconnectTimeout (svc w) with
                       | Some t => remove_timer t (timers w)
                       | None => timers w
                       end /\
  heap (destroy w)
  = foldl close_connection (heap w) (map snd (map_to_list (connections (svc w)))).
Proof.
  unfold destroy.
  destruct (reconnectTimeout (svc w)) as [t|] eqn:Et;
    destruct (peer (svc w)) as [p|] eqn:Ep;
    cbn [svc heap timers next_timer with_svc with_heap with_timers emit
         set_isDestroyed set_connections set_peer set_isOnline
         peer connections handlers errorHandlers myId myUser isOnline
         reconnectDelay reconnectTimeout isDestroyed];
    rewrite ?Et, ?Ep;
    cbn [svc heap timers next_timer with_svc with_heap with_timers emit
         set_isDestroyed set_connections set_peer set_isOnline
         peer connections handlers errorHandlers myId myUser isOnline
         reconnectDelay reconnectTimeout isDestroyed fmap option_fmap option_map];
    rewrite ?Ep;
    cbn [svc heap timers next_timer with_svc with_heap with_timers emit
         set_isDestroyed set_connections set_peer set_isOnline
         peer connections handlers errorHandlers myId myUser isOnline
         reconnectDelay reconnectTimeout isDestroyed fmap option_fmap option_map];
    repeat split; assumption.
Qed.

Lemma stale_destroy t w : stale t w -> stale t (destroy w).
Proof.
  intros [Ht Hs]. destruct (destroy_fields w) as (_&_&_&_&_&_&_&_&_& Er &_& Etm &_).
  split; [|congruence]. rewrite Etm, Hs, Ht. done.
Qed.

Lemma stale_step t e w : stale t w -> stale t (step e w).
Proof.
  intros Hs. destruct e; cbn [step].
  - eapply stale_recon; [apply recon_init | done].
  - eapply stale_recon; [apply recon_connectToPeer | done].
  - destruct (send 2 message w) as [w'|] eqn:E; [|done].
    eapply stale_recon; [by eapply recon_send | done].
  - by apply stale_destroy.
  - done.
  - done.
  - done.
  - done.
  - unfold on_peer_open. by destruct (peer (svc w)).
  - eapply stale_recon; [apply recon_on_peer_connection | done].
  - unfold on_peer_error. repeat destruct (decide _); try done.
    unfold forEachError. by apply (stale_handleReconnect t w w).
  - unfold on_peer_disconnected. destruct (peer (svc w)); [|done].
    by apply (stale_handleReconnect t w).
  - unfold on_peer_close. destruct (peer (svc w)); [|done].
    cbn [with_svc svc set_isOnline set_peer isDestroyed].
    destruct (negb (isDestroyed (svc w))); [|done].
    by apply (stale_handleReconnect t w).
  - by destruct (peer (svc w)).
  - eapply stale_recon; [apply recon_on_conn_open | done].
  - eapply stale_recon; [apply recon_on_conn_data | done].
  - eapply stale_recon; [apply recon_on_conn_close | done].
  - eapply stale_recon; [apply recon_cleanup | done].
  - unfold fire_timer, timer_pending. destruct Hs as [Ht Hs]. by rewrite Ht.
Qed.

(** X4.  [destroy] cancels a pending reconnect timeout with [clearTimeout]
    and keeps its handle in [reconnectTimeout].  From then on
    [handleReconnect] returns at its guard: whatever happens afterwards, a
    new [init] included, no reconnect timeout is pending ever again and the
    handle stays. *)
Theorem destroy_disables_reconnect t w es :
  reachable w -> reconnectTimeout (svc w) = Some t ->
  timers (run es (destroy w)) = [] /\
  reconnectTimeout (svc (run es (destroy w))) = Some t.
Proof.
  intros Hr Ht.
  assert (Hs : stale t (destroy w)).
  { destruct (destroy_fields w) as (_&_&_&_&_&_&_&_&_& Er &_& Etm &_).
    split; [|congruence]. rewrite Etm, Ht.
    destruct (reachable_timer_inv w Hr) as [Hn | (t' & d & Hn & Hs)].
    - by rewrite Hn.
    - rewrite Hn. replace t' with t by congruence. apply remove_timer_single. }
  revert Hs. generalize (destroy w). clear.
  induction es as [|e es IH]; intros w Hs; [exact Hs|].
  apply (IH (step e w)). by apply stale_step.
Qed.

End SessionInvariants.

Lemma reconnectDelay_in_range_witness :
  (1000 <= reconnectDelay (svc dropped))%Q /\ (reconnectDelay (svc dropped) <= 30000)%Q.
Proof. exact (reconnectDelay_in_range dropped dropped_reachable). Defined.

(** Nine drops, each followed by its reconnect attempt. *)
Definition nine_attempts : list Event :=
  flat_map (fun t => [PeerDisconnected; TimerFire t]) (seq 1 9).

Lemma backoff_reaches_ceiling_witness :
  (reconnectDelay (svc (run nine_attempts online)) == 30000)%Q.
Proof.
  apply (backoff_reaches_ceiling online nine_attempts); [reflexivity | reflexivity|].
  vm_compute. lia.
Defined.

(** After a drop and [destroy], Alice signs in again and the transport
    drops once more: no timer. *)
Lemma destroy_disables_reconnect_witness :
  timers (run [Init alice 0; PeerOpen (js "ST-alice"); PeerDisconnected]
            (destroy dropped)) = [] /\
  reconnectTimeout
    (svc (run [Init alice 0; PeerOpen (js "ST-alice"); PeerDisconnected]
            (destroy dropped))) = Some 1%nat.
Proof.
  exact (destroy_disables_reconnect 1 dropped
           [Init alice 0; PeerOpen (js "ST-alice"); PeerDisconnected]
           dropped_reachable eq_refl).
Defined.

Section SessionTeardown.
Context `{CaseMapping}.

(** [conn.open] of the object behind a reference of a heap. *)
Definition open_in (h : list DataConnection) (c : nat) : bool :=
  match h !! c with Some o => conn_open o | None => false end.

Lemma open_in_close_same h c : open_in (close_connection h c) c = false.
Proof.
  unfold open_in, close_connection. destruct (h !! c) as [o|] eqn:E.
  - rewrite list_lookup_insert_eq by (by eapply lookup_lt_Some). done.
  - by rewrite E.
Qed.

Lemma open_in_close_other h c c' :
  open_in h c = false -> open_in (close_connection h c') c = false.
Proof.
  intros Hc. destruct (decide (c = c')) as [->|Hne]; [apply open_in_close_same|].
  unfold open_in, close_connection in *. destruct (h !! c') as [o|]; [|done].
  by rewrite list_lookup_insert_ne.
Qed.

Lemma open_in_close_all h cs c :
  open_in h c = false \/ In c cs -> open_in (foldl close_connection h cs) c = false.
Proof.
  revert h. induction cs as [|c' cs IH]; intros h [Hc|Hin]; cbn [foldl].
  - done.
  - destruct Hin.
  - apply IH. left. by apply open_in_close_other.
  - apply IH. destruct Hin as [->|Hin]; [left; apply open_in_close_same | by right].
Qed.

(** X5.  [destroy] empties the registry, leaves the node offline with a
    destroyed peer, closes every connection that was registered, under
    whatever key, and leaves no reconnect timeout pending. *)
Theorem destroy_clears w :
  connections (svc (destroy w)) = ∅ /\
  isOnline (svc (destroy w)) = false /\
  isDestroyed (svc (destroy w)) = true /\
  peer_alive (svc (destroy w)) = false /\
  (forall id c, connections (svc w) !! id = Some c -> is_open (destroy w) c = false) /\
  (forall t, reconnectTimeout (svc w) = Some t -> timer_pending t (destroy w) = false).
Proof.
  destruct (destroy_fields w)
    as (Ep & Ec & _ & _ & _ & _ & Eo & Ed & _ & _ & _ & Et & Eh).
  split; [exact Ec|]. split; [exact Eo|]. split; [exact Ed|]. split; [|split].
  - unfold peer_alive. rewrite Ep. by destruct (peer (svc w)).
  - intros id c Hc. unfold is_open. rewrite Eh.
    apply (open_in_close_all (heap w)). right.
    apply (in_map snd _ (id, c)). apply list_elem_of_In.
    by apply elem_of_map_to_list.
  - intros t Ht. unfold timer_pending. rewrite Et, Ht. apply remove_timer_absent.
Qed.


End SessionTeardown.


Section SessionIdentity.
Context `{CaseMapping}.

(** The id of the node, the user it stands for and the id of its peer. *)
Definition ident (w : World) : jsstring * option User * option jsstring :=
  (myId (svc w), myUser (svc w), peer_id <$> peer (svc w)).

(** The node id is derived from the stored user, and the peer carries it. *)
Definition ident_ok (i : jsstring * option User * option jsstring) : Prop :=
  match i with
  | (id, Some u, p) => id = toNodeId (username u) /\ (p = None \/ p = Some id)
  | (_, None, p) => p = None
  end.

Lemma ident_node w w' : node_state w' = node_state w -> ident w' = ident w.
Proof. unfold node_state, ident. intros [= -> _ _ -> -> _ _ _ _]. done. Qed.

Lemma ident_handleReconnect w : ident (handleReconnect w) = ident w.
Proof. unfold handleReconnect. by destruct (reconnectTimeout (svc w)). Qed.

Lemma ident_destroy w : ident (destroy w) = ident w.
Proof.
  destruct (destroy_fields w) as (Ep & _ & _ & _ & Ei & Eu & _).
  unfold ident. rewrite Ep, Ei, Eu. by destruct (peer (svc w)).
Qed.

Lemma ident_init user cb w :
  ident (init user cb w)
  = if peer_alive (svc w) then ident w
    else (toNodeId (username user), Some user, Some (toNodeId (username user))).
Proof. unfold init. by destruct (peer_alive (svc w)). Qed.

Lemma ident_reconnect_attempt w :
  ident (reconnect_attempt w) = ident w \/
  exists u, myUser (svc w) = Some u /\
    ident (reconnect_attempt w)
    = (toNodeId (username u), Some u, Some (toNodeId (username u))).
Proof.
  unfold reconnect_attempt.
  assert (Hagain : forall u, myUser (svc w) = Some u ->
            ident (init u EmptyCallback w) = ident w \/
            ident (init u EmptyCallback w)
            = (toNodeId (username u), Some u, Some (toNodeId (username u)))).
  { intros u _. rewrite ident_init. destruct (peer_alive (svc w)); [by left | by right]. }
  destruct (peer (svc w)) as [p|] eqn:Ep.
  - destruct (peer_disconnected p && negb (peer_destroyed p)).
    + left. unfold ident. project. by rewrite Ep.
    + destruct (peer_destroyed p); [|by left].
      destruct (myUser (svc w)) as [u|] eqn:Eu; [|by left].
      destruct (Hagain u eq_refl) as [E|E]; [by left|].
      right. by exists u.
  - destruct (myUser (svc w)) as [u|] eqn:Eu; [|by left].
    destruct (Hagain u eq_refl) as [E|E]; [by left|].
    right. by exists u.
Qed.

Lemma step_ident_ok e w : ident_ok (ident w) -> ident_ok (ident (step e w)).
Proof.
  intros Hi.
  assert (Hfresh : forall u, ident_ok (toNodeId (username u), Some u,
                                       Some (toNodeId (username u)))).
  { intros u. split; [done | by right]. }
  destruct e; cbn [step].
  - rewrite ident_init. by destruct (peer_alive (svc w)).
  - by rewrite (ident_node w) by apply node_connectToPeer.
  - destruct (send 2 message w) as [w'|] eqn:E; [|done].
    by rewrite (ident_node w) by (by eapply node_send).
  - by rewrite ident_destroy.
  - done.
  - done.
  - done.
  - done.
  - unfold on_peer_open. by destruct (peer (svc w)).
  - by rewrite (ident_node w) by apply node_on_peer_connection.
  - unfold on_peer_error. repeat destruct (decide _); try done.
    unfold forEachError.
    change (ident (emit ?l ?w0)) with (ident w0). by rewrite ident_handleReconnect.
  - unfold on_peer_disconnected. destruct (peer (svc w)) as [p|] eqn:Ep; [|done].
    rewrite ident_handleReconnect. unfold ident in *. project. by rewrite Ep in Hi.
  - unfold on_peer_close. destruct (peer (svc w)) as [p|] eqn:Ep; [|done].
    project. destruct (negb (isDestroyed (svc w)));
      rewrite ?ident_handleReconnect; unfold ident in *; project; by rewrite Ep in Hi.
  - destruct (peer (svc w)) as [p|] eqn:Ep; [|done].
    unfold ident in *. project. by rewrite Ep in Hi.
  - by rewrite (ident_node w) by apply node_on_conn_open.
  - by rewrite (ident_node w) by apply node_on_conn_data.
  - by rewrite (ident_node w) by apply node_on_conn_close.
  - by rewrite (ident_node w) by apply node_cleanup.
  - unfold fire_timer. destruct (timer_pending t w); [|done].
    set (w0 := with_timers (remove_timer t) w).
    change (ident w) with (ident w0) in Hi.
    destruct (ident_reconnect_attempt w0) as [-> | (u & _ & ->)]; [done | apply Hfresh].
Qed.

Lemma reachable_ident_ok w : reachable w -> ident_ok (ident w).
Proof.
  intros (oracle & es & ->). generalize (new_world oracle) (eq_refl : ident_ok (ident (new_world oracle))).
  induction es as [|e es IH]; intros w Hw; [done|].
  apply (IH (step e w)). by apply step_ident_ok.
Qed.

(** X7.  In every reachable state with a stored user, [myId] is the node
    id derived from that user's name, and the peer object, if there is
    one, was created under that id: also after [destroy], after another
    [init] and after the re-creation by a reconnect attempt. *)
Theorem node_id_of_user w u :
  reachable w -> myUser (svc w) = Some u ->
  myId (svc w) = toNodeId (username u) /\
  forall p, peer (svc w) = Some p -> peer_id p = toNodeId (username u).
Proof.
  intros Hr Hu. pose proof (reachable_ident_ok w Hr) as Hi.
  unfold ident in Hi. rewrite Hu in Hi. cbn [ident_ok] in Hi.
  destruct Hi as [Hid Hp]. split; [done|].
  intros p Ep. rewrite Ep in Hp. cbn in Hp.
  destruct Hp as [Hp|Hp]; [done|]. injection Hp as ->. done.
Qed.

(** X8.  [connectToPeer] with any spelling of the local user's own name
    (letter case, surrounding white space) returns at its first guard: the
    state is unchanged, nothing is reported and the transport is not
    called. *)
Theorem connectToPeer_self w u target :
  reachable w -> myUser (svc w) = Some u ->
  normalize target = normalize (username u) ->
  connectToPeer target w = w.
Proof.
  intros Hr Hu Hn. pose proof (reachable_ident_ok w Hr) as Hi.
  unfold ident in Hi. rewrite Hu in Hi. cbn [ident_ok] in Hi.
  destruct Hi as [Hid _]. unfold connectToPeer.
  assert (E : toNodeId target = myId (svc w)).
  { rewrite Hid. unfold toNodeId. unfold normalize in Hn. by rewrite Hn. }
  by rewrite decide_True.
Qed.

End SessionIdentity.

Lemma talking_reachable : reachable talking.
Proof. exists second_call_throws. eexists. reflexivity. Qed.

Lemma node_id_of_user_witness :
  myId (svc talking) = toNodeId (username alice) /\
  forall p, peer (svc talking) = Some p -> peer_id p = toNodeId (username alice).
Proof. exact (node_id_of_user talking alice talking_reachable eq_refl). Defined.

Lemma connectToPeer_self_witness : connectToPeer (js " ALICE ") talking = talking.
Proof.
  exact (connectToPeer_self talking alice (js " ALICE ") talking_reachable eq_refl eq_refl).
Defined.

Section SessionLinks.
Context `{CaseMapping}.

(** The two requests of the application that need the transport. *)
Definition is_request (e : Event) : bool :=
  match e with
  | Send _ | ConnectToPeer _ => true
  | _ => false
  end.

(** X9.  While the node is offline, [send] and [connectToPeer] never call
    the transport: the service, the connection objects and the count of
    transport calls stay as they are, and the only effect is at most one
    round of calls of the error handlers. *)
Theorem offline_requests_stay_local e w :
  is_request e = true -> isOnline (svc w) = false ->
  svc (step e w) = svc w /\ heap (step e w) = heap w /\
  calls (step e w) = calls w /\
  (trace (step e w) = trace w \/
   exists errorType msg, trace (step e w) = trace w ++ error_calls errorType msg w).
Proof.
  intros He Ho. destruct e; try discriminate He; cbn [step].
  - unfold connectToPeer. destruct (decide _); [by auto|].
    destruct (match connections (svc w) !! _ with Some _ => _ | None => _ end);
      [by auto|].
    rewrite Ho. cbn [negb]. rewrite orb_true_r.
    repeat split. right. by eexists _, _.
  - cbn [send]. rewrite Ho. cbn [negb].
    repeat split. right. by eexists _, _.
Qed.

(** X10.  A second inbound connection from a peer whose registered
    connection is open gets no listener.  When it opens, nothing is sent
    on it and the registry keeps the first connection; a record arriving
    on it, an identity exchange included, reaches no handler; and when it
    closes, the entry of the first connection stays. *)
Theorem duplicate_inbound_ignored remote c w :
  is_Some (peer (svc w)) ->
  connections (svc w) !! remote = Some c -> is_open w c = true ->
  let c' := length (heap w) in
  let w1 := on_peer_connection remote w in
  w1 = with_heap (fun h => h ++ [new_connection remote]) w /\
  svc (on_conn_open c' w1) = svc w /\
  trace (on_conn_open c' w1) = trace w /\
  calls (on_conn_open c' w1) = calls w /\
  (forall m, on_conn_data c' m w1 = w1) /\
  connections (svc (on_conn_close c' w1)) !! remote = Some c /\
  is_open (on_conn_close c' w1) c = true.
Proof.
  intros [p Hp] Hc Ho c' w1.
  assert (Hlt : (c < length (heap w))%nat).
  { unfold is_open in Ho. destruct (heap w !! c) eqn:E; [|done].
    by eapply lookup_lt_Some. }
  assert (Hnew : (heap w ++ [new_connection remote]) !! c' = Some (new_connection remote)).
  { unfold c'. rewrite lookup_app_r by lia. by rewrite Nat.sub_diag. }
  assert (Hold : forall h, (heap w ++ h) !! c = heap w !! c).
  { intros h. by rewrite lookup_app_l. }
  assert (E1 : w1 = with_heap (fun h => h ++ [new_connection remote]) w).
  { unfold w1, on_peer_connection. rewrite Hp. unfold setupConnection.
    cbn [with_heap heap svc]. fold c'. rewrite Hnew.
    cbn [new_connection conn_peer]. rewrite Hc.
    unfold is_open. cbn [heap with_heap]. rewrite Hold.
    unfold is_open in Ho. by rewrite Ho. }
  split; [exact E1|]. rewrite E1. clear E1 w1.
  unfold on_conn_open, on_conn_data, on_conn_close, cleanup.
  cbn [with_heap heap svc]. rewrite Hnew.
  cbn [new_connection conn_setup conn_on_open run_on_open with_heap heap svc trace calls].
  rewrite list_lookup_insert_eq by (rewrite length_app; cbn [length]; lia).
  cbn [set_conn_open conn_setup].
  repeat split; try done.
  unfold is_open. cbn [new_connection conn_setup heap with_heap].
  rewrite list_lookup_insert_ne by (unfold c'; lia).
  rewrite Hold. exact Ho.
Qed.

Lemma run_on_open_calm c ms w :
  (forall k, (k < length ms)%nat -> throws w (calls w + k)%nat = false) ->
  svc (run_on_open c ms w) = svc w /\ heap (run_on_open c ms w) = heap w /\
  throws (run_on_open c ms w) = throws w /\
  calls (run_on_open c ms w) = (calls w + length ms)%nat /\
  trace (run_on_open c ms w) = trace w ++ map (ConnSend c) ms.
Proof.
  revert w. induction ms as [|m ms IH]; intros w Hk; cbn [run_on_open].
  - cbn [length map]. rewrite Nat.add_0_r, app_nil_r. done.
  - unfold conn_send, transport_call.
    assert (Ht0 : throws w (calls w) = false).
    { rewrite <- (Nat.add_0_r (calls w)). apply Hk. cbn [length]. lia. }
    rewrite Ht0. cbv beta iota zeta.
    set (w' := emit _ _).
    destruct (IH w') as (Es & Eh & Et & Ec & Etr).
    { intros k Hlt. subst w'. cbn [emit throws calls].
      replace (S (calls w) + k)%nat with (calls w + S k)%nat by lia.
      apply Hk. cbn [length]. lia. }
    rewrite Es, Eh, Et, Ec, Etr. subst w'. cbn [emit svc heap throws calls trace length map].
    rewrite <- app_assoc. repeat split. lia.
Qed.

(** X11.  When a connection that carries the listeners of the service
    opens and the transport accepts the calls, the service first sends its
    identity record, with the public key and the name of the stored user as
    they are, registers the connection under [conn.peer], and then sends
    every record that [send] left with the connection, in order. *)
Theorem open_sends_identity_then_queue c conn u w :
  heap w !! c = Some conn -> conn_setup conn = true ->
  myUser (svc w) = Some u ->
  (forall k, (k <= length (conn_on_open conn))%nat ->
             throws w (calls w + k)%nat = false) ->
  let w' := on_conn_open c w in
  trace w' = trace w
             ++ ConnSend c (IDENTITY_EXCHANGE (publicKey u) (username u))
                :: map (ConnSend c) (conn_on_open conn) /\
  connections (svc w') = <[conn_peer conn := c]> (connections (svc w)) /\
  is_open w' c = true.
Proof.
  intros Hc Hs Hu Hk w'. subst w'. unfold on_conn_open. rewrite Hc, Hs.
  cbn [with_heap svc]. rewrite Hu.
  unfold conn_send, transport_call. project.
  assert (Ht0 : throws w (calls w) = false).
  { rewrite <- (Nat.add_0_r (calls w)). apply Hk. lia. }
  rewrite Ht0. cbv beta iota zeta.
  set (w1 := registry_set _ _ _).
  destruct (run_on_open_calm c (conn_on_open conn) w1) as (Es & Eh & _ & _ & Etr).
  { intros k Hlt. subst w1. unfold registry_set. cbn [with_svc emit throws calls].
    replace (S (calls w) + k)%nat with (calls w + S k)%nat by lia.
    apply Hk. lia. }
  split; [|split].
  - rewrite Etr. subst w1. unfold registry_set. cbn [with_svc emit trace].
    by rewrite <- app_assoc.
  - rewrite Es. done.
  - unfold is_open. rewrite Eh. subst w1. unfold registry_set.
    cbn [with_svc emit heap].
    rewrite list_lookup_insert_eq by (by eapply lookup_lt_Some). done.
Qed.

End SessionLinks.

Lemma offline_requests_stay_local_witness :
  svc (step (Send hello) dropped) = svc dropped /\
  heap (step (Send hello) dropped) = heap dropped /\
  calls (step (Send hello) dropped) = calls dropped /\
  (trace (step (Send hello) dropped) = trace dropped \/
   exists errorType msg,
     trace (step (Send hello) dropped) = trace dropped ++ error_calls errorType msg dropped).
Proof. exact (offline_requests_stay_local (Send hello) dropped eq_refl eq_refl). Defined.

Lemma talking_bob : connections (svc talking) !! js "ST-bob" = Some 0%nat.
Proof. vm_compute. reflexivity. Qed.

Lemma duplicate_inbound_ignored_witness :
  let c' := length (heap talking) in
  let w1 := on_peer_connection (js "ST-bob") talking in
  w1 = with_heap (fun h => h ++ [new_connection (js "ST-bob")]) talking /\
  svc (on_conn_open c' w1) = svc talking /\
  trace (on_conn_open c' w1) = trace talking /\
  calls (on_conn_open c' w1) = calls talking /\
  (forall m, on_conn_data c' m w1 = w1) /\
  connections (svc (on_conn_close c' w1)) !! js "ST-bob" = Some 0%nat /\
  is_open (on_conn_close c' w1) 0 = true.
Proof.
  exact (duplicate_inbound_ignored (js "ST-bob") 0 talking
           (ex_intro _ _ eq_refl) talking_bob talking_open).
Defined.

(** Alice, online and without connection, has sent [hello]: the envelope
    waits on the connection that the transport is setting up. *)
Definition waiting : World := run [Send hello] alone.

Definition to_bob : DataConnection :=
  {| conn_peer := js "ST-bob"; conn_open := false; conn_setup := true;
     conn_on_open := [CHAT hello] |}.

Lemma waiting_heap : heap waiting !! 0%nat = Some to_bob.
Proof. vm_compute. reflexivity. Qed.

Lemma open_sends_identity_then_queue_witness :
  let w' := on_conn_open 0 waiting in
  trace w' = trace waiting
             ++ ConnSend 0 (IDENTITY_EXCHANGE (publicKey alice) (username alice))
                :: map (ConnSend 0) (conn_on_open to_bob) /\
  connections (svc w') = <[conn_peer to_bob := 0%nat]> (connections (svc waiting)) /\
  is_open w' 0 = true.
Proof.
  exact (open_sends_identity_then_queue 0 to_bob alice waiting
           waiting_heap eq_refl eq_refl (fun k _ => eq_refl)).
Defined.

Section SessionHandlers.
Context `{CaseMapping}.

Lemma set_add_NoDup h l : NoDup l -> NoDup (set_add h l).
Proof.
  intros Hl. unfold set_add. destruct (existsb (Nat.eqb h) l) eqn:E; [done|].
  apply NoDup_app. split; [done|]. split; [|apply NoDup_singleton].
  intros x Hx ->%list_elem_of_singleton.
  assert (Ht : existsb (Nat.eqb h) l = true).
  { apply existsb_exists. exists h. split; [by apply list_elem_of_In | apply Nat.eqb_refl]. }
  congruence.
Qed.

Lemma set_add_elem h l : h ∈ set_add h l.
Proof.
  unfold set_add. destruct (existsb (Nat.eqb h) l) eqn:E.
  - apply existsb_exists in E as (x & Hx & ->%Nat.eqb_eq). by apply list_elem_of_In.
  - apply elem_of_app. right. by apply list_elem_of_singleton.
Qed.

Lemma set_add_again h l : set_add h (set_add h l) = set_add h l.
Proof.
  unfold set_add at 1.
  assert (Ht : existsb (Nat.eqb h) (set_add h l) = true).
  { apply existsb_exists. exists h.
    split; [apply list_elem_of_In, set_add_elem | apply Nat.eqb_refl]. }
  by rewrite Ht.
Qed.

Lemma set_delete_NoDup h l : NoDup l -> NoDup (set_delete h l).
Proof.
  unfold set_delete. induction 1 as [|x l Hx Hl IH]; cbn [List.filter].
  - constructor.
  - destruct (negb (x =? h)%nat); [|done]. constructor; [|done].
    intros Hin. apply Hx. apply list_elem_of_In in Hin.
    apply filter_In in Hin as [Hin _]. by apply list_elem_of_In.
Qed.

Lemma set_delete_absent h l : h ∉ set_delete h l.
Proof.
  unfold set_delete. intros Hin. apply list_elem_of_In, filter_In in Hin as [_ Hh].
  by rewrite Nat.eqb_refl in Hh.
Qed.

(** The two handler sets. *)
Definition subscribers (w : World) : list nat * list nat :=
  (handlers (svc w), errorHandlers (svc w)).

Lemma subscribers_node w w' : node_state w' = node_state w -> subscribers w' = subscribers w.
Proof. unfold node_state, subscribers. intros [= _ -> -> _ _ _ _ _ _]. done. Qed.

Lemma subscribers_handleReconnect w : subscribers (handleReconnect w) = subscribers w.
Proof. unfold handleReconnect. by destruct (reconnectTimeout (svc w)). Qed.

Lemma subscribers_init u cb w : subscribers (init u cb w) = subscribers w.
Proof. unfold init. by destruct (peer_alive (svc w)). Qed.

(** Only the four subscription calls change the handler sets. *)
Lemma step_subscribers e w :
  subscribers (step e w) =
  match e with
  | OnMessage h => (set_add h (handlers (svc w)), errorHandlers (svc w))
  | OffMessage h => (set_delete h (handlers (svc w)), errorHandlers (svc w))
  | OnError h => (handlers (svc w), set_add h (errorHandlers (svc w)))
  | OffError h => (handlers (svc w), set_delete h (errorHandlers (svc w)))
  | _ => subscribers w
  end.
Proof.
  destruct e; cbn [step]; try done.
  - apply subscribers_init.
  - apply subscribers_node, node_connectToPeer.
  - destruct (send 2 message w) as [w'|] eqn:E; [|done].
    by eapply subscribers_node, node_send.
  - destruct (destroy_fields w) as (_ & _ & Eh & Ee & _).
    unfold subscribers. by rewrite Eh, Ee.
  - unfold on_peer_open. by destruct (peer (svc w)).
  - apply subscribers_node, node_on_peer_connection.
  - unfold on_peer_error. repeat destruct (decide _); try done.
    unfold forEachError.
    change (subscribers (emit ?l ?w0)) with (subscribers w0).
    apply subscribers_handleReconnect.
  - unfold on_peer_disconnected. destruct (peer (svc w)); [|done].
    by rewrite subscribers_handleReconnect.
  - unfold on_peer_close. destruct (peer (svc w)); [|done].
    project. destruct (negb (isDestroyed (svc w))); [|done].
    by rewrite subscribers_handleReconnect.
  - by destruct (peer (svc w)).
  - apply subscribers_node, node_on_conn_open.
  - apply subscribers_node, node_on_conn_data.
  - apply subscribers_node, node_on_conn_close.
  - apply subscribers_node, node_cleanup.
  - unfold fire_timer. destruct (timer_pending t w); [|done].
    unfold reconnect_attempt.
    set (w0 := with_timers (remove_timer t) w).
    change (subscribers w) with (subscribers w0).
    change (subscribers (with_svc ?f ?w1)) with (subscribers w1).
    destruct (peer (svc w0)) as [p|].
    + destruct (peer_disconnected p && negb (peer_destroyed p)); [done|].
      destruct (peer_destroyed p); [|done].
      destruct (myUser (svc w0)); [apply subscribers_init | done].
    + destruct (myUser (svc w0)); [apply subscribers_init | done].
Qed.

Definition subscribers_ok (s : list nat * list nat) : Prop := NoDup s.1 /\ NoDup s.2.

Lemma reachable_subscribers_ok w : reachable w -> subscribers_ok (subscribers w).
Proof.
  intros (oracle & es & ->).
  assert (H0 : subscribers_ok (subscribers (new_world oracle))).
  { split; constructor. }
  revert H0. generalize (new_world oracle).
  induction es as [|e es IH]; intros w Hw; [done|].
  apply (IH (step e w)). rewrite step_subscribers.
  destruct Hw as [H1 H2].
  destruct e; try (by split); split; cbn [fst snd];
    auto using set_add_NoDup, set_delete_NoDup.
Qed.

(** X12.  A record that arrives on a connection carrying the listeners of
    the service is handed to every registered message handler exactly
    once, in the order of registration; in every reachable state no
    handler is registered twice. *)
Theorem data_dispatched_once c conn m w :
  reachable w -> heap w !! c = Some conn -> conn_setup conn = true ->
  trace (on_conn_data c m w)
  = trace w ++ map (fun h => CallHandler h m) (handlers (svc w)) /\
  NoDup (handlers (svc w)) /\
  handlers (svc (on_conn_data c m w)) = handlers (svc w).
Proof.
  intros Hr Hc Hs. destruct (reachable_subscribers_ok w Hr) as [Hn _].
  split; [|split; [exact Hn|]].
  - unfold on_conn_data. rewrite Hc, Hs. by destruct m.
  - unfold on_conn_data. rewrite Hc, Hs. by destruct m.
Qed.

(** X13.  [onMessage] adds its handler to a set: registering a handler
    that is registered changes nothing, and after the function that
    [onMessage] returned has run, the handler is not registered, however
    often it had been added.  Error handlers likewise. *)
Theorem subscription_is_a_set h w :
  step (OnMessage h) (step (OnMessage h) w) = step (OnMessage h) w /\
  h ∈ handlers (svc (step (OnMessage h) w)) /\
  (h ∉ handlers (svc (step (OffMessage h) (step (OnMessage h) (step (OnMessage h) w))))) /\
  step (OnError h) (step (OnError h) w) = step (OnError h) w /\
  h ∈ errorHandlers (svc (step (OnError h) w)) /\
  (h ∉ errorHandlers (svc (step (OffError h) (step (OnError h) (step (OnError h) w))))).
Proof.
  cbn [step]. unfold onMessage, onError, with_svc. project.
  cbn [set_handlers set_errorHandlers handlers errorHandlers].
  rewrite !set_add_again.
  repeat split; auto using set_add_elem, set_delete_absent.
Qed.

(** [getActiveConnections]: the keys of the registry whose connection is
    open.  (The order of the result, the insertion order of the [Map], is
    not modelled.) *)
Definition getActiveConnections (w : World) : list jsstring :=
  map fst (List.filter (fun e => is_open w (snd e)) (map_to_list (connections (svc w)))).

Lemma getActiveConnections_spec w id :
  In id (getActiveConnections w)
  <-> exists c, connections (svc w) !! id = Some c /\ is_open w c = true.
Proof.
  unfold getActiveConnections. rewrite in_map_iff. split.
  - intros ([id' c] & <- & Hin). apply filter_In in Hin as [Hin Ho].
    exists c. split; [|done]. by apply elem_of_map_to_list, list_elem_of_In.
  - intros (c & Hc & Ho). exists (id, c). split; [done|].
    apply filter_In. split; [|done]. by apply list_elem_of_In, elem_of_map_to_list.
Qed.

Lemma is_open_on_conn_close c w : is_open (on_conn_close c w) c = false.
Proof.
  unfold on_conn_close. destruct (heap w !! c) as [conn|] eqn:E.
  - unfold cleanup. cbn [with_heap heap].
    rewrite list_lookup_insert_eq by (by eapply lookup_lt_Some).
    cbn [set_conn_open conn_setup]. unfold is_open.
    destruct (conn_setup conn); unfold registry_delete; cbn [with_svc with_heap heap];
      by rewrite list_lookup_insert_eq by (by eapply lookup_lt_Some).
  - unfold is_open. by rewrite E.
Qed.

(** X14.  [getActiveConnections] lists exactly the registry keys whose
    connection object is open.  A key that still refers to a connection
    after its [close] signal, such as the key of a re-keyed entry, is not
    listed; after [destroy] nothing is listed. *)
Theorem getActiveConnections_open_only w :
  (forall id, In id (getActiveConnections w)
              <-> exists c, connections (svc w) !! id = Some c /\ is_open w c = true) /\
  (forall c id, connections (svc (on_conn_close c w)) !! id = Some c ->
                ~ In id (getActiveConnections (on_conn_close c w))) /\
  getActiveConnections (destroy w) = [].
Proof.
  split; [apply getActiveConnections_spec|]. split.
  - intros c id Hid Hin. apply getActiveConnections_spec in Hin as (c' & Hc' & Ho).
    rewrite Hid in Hc'. injection Hc' as <-.
    by rewrite is_open_on_conn_close in Ho.
  - unfold getActiveConnections.
    destruct (destroy_fields w) as (_ & Ec & _). rewrite Ec.
    by rewrite map_to_list_empty.
Qed.

End SessionHandlers.

(** Alice as in [talking], with one message handler registered. *)
Definition listening : World :=
  run [Init alice 0; OnError 7; PeerOpen (js "ST-alice");
       PeerConnection (js "ST-bob"); ConnOpen 0; OnMessage 3]
      (new_world second_call_throws).

Lemma listening_reachable : reachable listening.
Proof. exists second_call_throws. eexists. reflexivity. Qed.

Lemma listening_heap :
  heap listening !! 0%nat
  = Some {| conn_peer := js "ST-bob"; conn_open := true; conn_setup := true;
            conn_on_open := [] |}.
Proof. vm_compute. reflexivity. Qed.

Lemma data_dispatched_once_witness :
  trace (on_conn_data 0 (CHAT hello) listening)
  = trace listening
    ++ map (fun h => CallHandler h (CHAT hello)) (handlers (svc listening)) /\
  NoDup (handlers (svc listening)) /\
  handlers (svc (on_conn_data 0 (CHAT hello) listening)) = handlers (svc listening).
Proof.
  exact (data_dispatched_once 0 _ (CHAT hello) listening
           listening_reachable listening_heap eq_refl).
Defined.

(** An envelope from Alice to the user who calls himself Robert. *)
Definition to_robert : EncryptedMessage :=
  {| mid := js "m5"; senderId := js "Alice"; recipientId := js "Robert";
     isGroup := false; encryptedContent := js "Y2lwaGVy";
     encryptedSessionKey := js "a2V5"; iv := js "aXY="; hmac := js "GCM-SECURE";
     timestamp := 1700000000000 |}.

(** Alice as in [talking]; the peer behind the connection from [ST-bob]
    has identified itself as [Robert]. *)
Definition robert_online : World :=
  run [Init alice 0; OnError 7; PeerOpen (js "ST-alice");
       PeerConnection (js "ST-bob"); ConnOpen 0;
       ConnData 0 (IDENTITY_EXCHANGE (js "pkB") (js "Robert"))]
      (new_world second_call_throws).

(** C8, at the failing input.  A peer whose transport id is [ST-bob] has
    identified itself as [Robert]: its connection, open, is registered
    under [ST-bob] and under [ST-robert].  Alice sends an envelope to
    [Robert] and [conn.send] throws.  [send] deletes the entry under
    [ST-robert], reports [send-fail] and runs once more: it asks the
    transport for a fresh connection to [ST-robert] and leaves the envelope
    with the [open] listener of that connection.  The connection that
    threw is not evicted: it is still registered under [ST-bob], still
    open, and [getActiveConnections] lists it. *)
Theorem send_failure_keeps_connection :
  let w := step (Send to_robert) robert_online in
  connections (svc robert_online) !! js "ST-bob" = Some 0%nat /\
  connections (svc robert_online) !! js "ST-robert" = Some 0%nat /\
  is_open robert_online 0 = true /\
  trace w = trace robert_online
            ++ [ConnSendThrew 0 (CHAT to_robert);
                CallErrorHandler 7 (js "send-fail") (js "Transmission failed. Retrying...");
                PeerConnect (js "ST-robert") 1] /\
  heap w !! 1%nat = Some {| conn_peer := js "ST-robert"; conn_open := false;
                            conn_setup := true; conn_on_open := [CHAT to_robert] |} /\
  connections (svc w) !! js "ST-robert" = None /\
  connections (svc w) !! js "ST-bob" = Some 0%nat /\
  is_open w 0 = true /\
  getActiveConnections w = [js "ST-bob"].
Proof. vm_compute. repeat split. Qed.

Section DelayExact.
Context `{CaseMapping}.

Local Open Scope Q_scope.

Lemma step_on_backoff e w :
  (exists k, reconnectDelay (svc w) == backoff k) ->
  exists k, reconnectDelay (svc (step e w)) == backoff k.
Proof.
  intros [k Hk]. rewrite step_delay.
  destruct e; try (by exists k).
  - destruct (peer (svc w)); [|by exists k]. exists 0%nat. by rewrite backoff_0.
  - destruct (timer_pending t w); [|by exists k].
    exists (S k). rewrite <- backoff_succ. unfold maxReconnectDelay.
    apply Q.min_compat; [|reflexivity]. by rewrite Hk.
Qed.

(** X15.  In every reachable state the reconnect delay is one of the
    values [min(1000 * 1.5^k, 30000)], an integer multiple of 1/256 ms
    between 0 and 30000 ms: numbers that double-precision arithmetic
    represents, multiplies by 1.5 and compares without rounding. *)
Theorem reconnectDelay_exact w :
  reachable w ->
  exists (k : nat) (z : Z),
    reconnectDelay (svc w) == backoff k /\
    (0 <= z <= 30000 * 256)%Z /\ reconnectDelay (svc w) * 256 == inject_Z z.
Proof.
  intros (oracle & es & ->).
  assert (Hk : exists k, reconnectDelay (svc (run es (new_world oracle))) == backoff k).
  { assert (H0 : exists k, reconnectDelay (svc (new_world oracle)) == backoff k).
    { exists 0%nat. reflexivity. }
    revert H0. generalize (new_world oracle).
    induction es as [|e es IH]; intros w Hw; [done|].
    apply (IH (step e w)). by apply step_on_backoff. }
  destruct Hk as [k Hk]. destruct (backoff_exact k) as (z & Hz & Ez).
  exists k, z. split; [done|]. split; [done|]. by rewrite Hk.
Qed.

End DelayExact.

Lemma reconnectDelay_exact_witness :
  exists (k : nat) (z : Z),
    (reconnectDelay (svc dropped) == backoff k)%Q /\
    (0 <= z <= 30000 * 256)%Z /\ (reconnectDelay (svc dropped) * 256 == inject_Z z)%Q.
Proof. exact (reconnectDelay_exact dropped dropped_reachable). Defined.

(* ===================================================================== *)
(** ** More about the buffer helpers *)
(* ===================================================================== *)

Lemma fits_sample : fits [72; 105; 0; 255].
Proof. vm_compute. intros E. discriminate E. Qed.

Lemma base64_roundtrip_witness :
  is_bytes [72; 105; 0; 255] = true /\
  exists s, bufferToBase64 [72; 105; 0; 255] = Ok s /\ base64ToBuffer s = Ok [72; 105; 0; 255].
Proof.
  split; [reflexivity|]. exact (base64_roundtrip [72; 105; 0; 255] eq_refl fits_sample).
Defined.

Lemma strip_padding_cases s :
  strip_padding s = s \/
  (exists r, s = r ++ [61]) /\ exists t, s = strip_padding s ++ t /\ forallb (N.eqb 61) t = true.
Proof.
  unfold strip_padding.
  destruct (rev s) as [|x r] eqn:E; [by left|].
  assert (Es : s = rev r ++ [x]).
  { by rewrite <- (rev_involutive s), E. }
  destruct (N.eq_dec x 61) as [->|Hx].
  - right. split; [by exists (rev r)|].
    destruct r as [|y r']; [exists [61]; by rewrite Es|].
    destruct (N.eq_dec y 61) as [->|Hy].
    + exists [61; 61]. split; [|done]. rewrite Es. cbn [rev]. by rewrite <- app_assoc.
    + exists [61]. split; [|done].
      destruct y as [|p]; [done|].
      do 6 (destruct p as [p|p|]; try done).
  - left. destruct x as [|p]; [done|].
    do 6 (destruct p as [p|p|]; try done).
Qed.

Lemma strip_padding_keeps c s : In c s -> c <> 61 -> In c (strip_padding s).
Proof.
  intros Hin Hc. destruct (strip_padding_cases s) as [-> | [_ (t & Es & Ht)]]; [done|].
  rewrite Es in Hin. apply in_app_or in Hin as [Hin|Hin]; [done|].
  rewrite forallb_forall in Ht. apply Ht, N.eqb_eq in Hin. congruence.
Qed.

Lemma b64_indices_invalid c s : In c s -> b64_index c = None -> b64_indices s = None.
Proof.
  intros Hin Hc. induction s as [|x s IH]; [done|].
  cbn [b64_indices]. destruct Hin as [->|Hin].
  - by rewrite Hc.
  - rewrite (IH Hin). by destruct (b64_index x).
Qed.

(** X17.  [base64ToBuffer] throws [InvalidCharacterError], and returns no
    buffer, on every text that holds a character which is neither ASCII
    white space, nor of the Base64 alphabet, nor ['=']. *)
Theorem base64ToBuffer_rejects s c :
  In c s -> is_ascii_whitespace c = false -> b64_index c = None -> c <> 61 ->
  base64ToBuffer s = Err InvalidCharacterError.
Proof.
  intros Hin Hw Hi Hc. unfold base64ToBuffer, atob.
  set (s1 := List.filter _ s).
  assert (H1 : In c s1).
  { apply filter_In. split; [done|]. by rewrite Hw. }
  set (s2 := if (length s1 mod 4 =? 0)%nat then strip_padding s1 else s1).
  assert (H2 : In c s2).
  { unfold s2. destruct (length s1 mod 4 =? 0)%nat; [|done].
    by apply strip_padding_keeps. }
  destruct (length s2 mod 4 =? 1)%nat; [done|].
  by rewrite (b64_indices_invalid c s2).
Qed.

Lemma length_base64_encode bs :
  length (base64_encode bs) = (4 * ((length bs + 2) / 3))%nat.
Proof.
  unfold base64_encode. rewrite length_app, length_map, length_sextets.
  unfold padding.
  pose proof (Nat.div_mod_eq (length bs) 3) as Hd.
  pose proof (Nat.mod_upper_bound (length bs) 3) as Hm.
  set (q := (length bs / 3)%nat) in *. set (r := (length bs mod 3)%nat) in *.
  assert (Hq : ((length bs + 2) / 3 = q + (if Nat.eqb r 0 then 0 else 1))%nat).
  { rewrite Hd. destruct r as [|[|[|r]]]; cbn [Nat.eqb]; [| | |lia].
    - replace (3 * q + 0 + 2)%nat with (2 + q * 3)%nat by lia.
      by rewrite Nat.div_add.
    - replace (3 * q + 1 + 2)%nat with (0 + (q + 1) * 3)%nat by lia.
      by rewrite Nat.div_add.
    - replace (3 * q + 2 + 2)%nat with (1 + (q + 1) * 3)%nat by lia.
      by rewrite Nat.div_add. }
  rewrite Hq. destruct r as [|[|[|r]]]; cbn [length Nat.eqb]; lia.
Qed.

(** X18.  [bufferToBase64] spreads the buffer into the arguments of one
    call of [String.fromCharCode].  A buffer of [n] bytes, [n] within the
    argument limit of the engine, becomes text of [4 * ceil(n / 3)]
    characters, which [base64ToBuffer] accepts; on a longer buffer
    [bufferToBase64] throws [RangeError] and returns no text. *)
Theorem bufferToBase64_length `{Engine} buffer :
  is_bytes buffer = true ->
  (fits buffer ->
   exists s, bufferToBase64 buffer = Ok s /\
             length s = (4 * ((length buffer + 2) / 3))%nat /\
             base64ToBuffer s = Ok buffer) /\
  (~ fits buffer -> bufferToBase64 buffer = Err RangeError).
Proof.
  intros Hb. split; [|apply bufferToBase64_too_long].
  intros Hf. exists (base64_encode buffer).
  split; [by apply bufferToBase64_bytes|]. split; [apply length_base64_encode|].
  unfold base64ToBuffer. rewrite atob_encode by done. by rewrite map_mod_bytes.
Qed.

Lemma base64ToBuffer_rejects_witness :
  base64ToBuffer (js "aGk!") = Err InvalidCharacterError.
Proof.
  apply (base64ToBuffer_rejects (js "aGk!") 33); [|reflexivity|reflexivity|discriminate].
  cbn. tauto.
Defined.

(** A buffer one byte beyond the limit of the model engine. *)
Definition long_buffer : bytes := repeat 0 (N.to_nat 65537).

Lemma long_buffer_bytes : is_bytes long_buffer = true.
Proof. by vm_compute. Qed.

Lemma long_buffer_too_long : ~ fits long_buffer.
Proof. vm_compute. intros E. by apply E. Qed.

Lemma bufferToBase64_length_witness :
  (exists s, bufferToBase64 [72; 105; 0; 255] = Ok s /\
             length s = (4 * ((length [72; 105; 0; 255] + 2) / 3))%nat /\
             base64ToBuffer s = Ok [72; 105; 0; 255]) /\
  bufferToBase64 long_buffer = Err RangeError.
Proof.
  split.
  - exact (proj1 (bufferToBase64_length [72; 105; 0; 255] eq_refl) fits_sample).
  - exact (proj2 (bufferToBase64_length long_buffer long_buffer_bytes) long_buffer_too_long).
Defined.

(* ===================================================================== *)
(** ** More about keys and envelopes *)
(* ===================================================================== *)

Section CryptoFacts.
Context `{Engine} `{WebCrypto}.

Local Open Scope crypto_scope.

Lemma bind_inv {A B} (c : Crypto A) (f : A -> Crypto B) rng r :
  bind c f rng = Ok r -> exists a rng', c rng = Ok (a, rng') /\ f a rng' = Ok r.
Proof.
  unfold bind. destruct (c rng) as [[a rng']|e]; [|done].
  intros E. by exists a, rng'.
Qed.

(** X20.  A session key from [generateAESKey] has 256 bits and is
    extractable; wrapped by [encryptKeyWithRSA] under the public key of a
    generated pair and unwrapped by [decryptKeyWithRSA] with the private
    key, it is the same key again. *)
Theorem session_key_wrap_unwrap rng0 rng :
  exists pub sk rng1 key rng2 wrapped rng3,
    generateRSAKeyPair rng0 = Ok ((pub, sk), rng1) /\
    generateAESKey rng = Ok (key, rng2) /\
    length (aes_raw key) = 32%nat /\ aes_extractable key = true /\
    encryptKeyWithRSA key pub rng2 = Ok (wrapped, rng3) /\
    forall r, decryptKeyWithRSA wrapped sk r = Ok (key, r).
Proof.
  set (key := {| aes_raw := (getRandomValues 32 rng).1; aes_extractable := true |}).
  destruct (wrap_unwrap_key key rng0 (getRandomValues 32 rng).2)
    as (wrapped & rng3 & Hw & Hu);
    [done | apply getRandomValues_length | apply getRandomValues_bytes |].
  eexists _, _, _, key, _, wrapped, rng3.
  split; [apply generateRSAKeyPair_ok|]. split.
  { unfold generateAESKey. by rewrite (surjective_pairing (getRandomValues 32 rng)). }
  split; [apply getRandomValues_length|]. split; [done|]. split; [exact Hw|].
  exact Hu.
Qed.

(** X21.  The master key that [deriveKeyFromPassword] returns is a
    function of password and salt alone, has 256 bits and is not
    extractable: [encryptKeyWithRSA] on it throws [InvalidAccessError]
    at [exportKey], under any valid public key. *)
Theorem master_key_stays_local password salt rng0 rng :
  exists m pub sk rng1,
    (forall r, deriveKeyFromPassword password salt r = Ok (m, r)) /\
    length (aes_raw m) = 32%nat /\ aes_extractable m = false /\
    generateRSAKeyPair rng0 = Ok ((pub, sk), rng1) /\
    encryptKeyWithRSA m pub rng = Err InvalidAccessError.
Proof.
  destruct (deriveKeyFromPassword_key password salt) as (m & Hd & Hl & _ & He).
  eexists m, _, _, _. split; [exact Hd|]. split; [exact Hl|]. split; [exact He|].
  split; [apply generateRSAKeyPair_ok|].
  unfold encryptKeyWithRSA.
  erewrite bind_ok; [|apply lift_ok, base64ToBuffer_encode, spki_bytes].
  rewrite spki_roundtrip. cbn [orThrow].
  erewrite bind_ok; [|reflexivity].
  by rewrite He.
Qed.

(** X22.  [computeHash] never fails and uses no randomness; its result is
    the Base64 text of the 32 bytes of the digest: 44 characters, the last
    one ['=']. *)
Theorem computeHash_shape text rng :
  exists h, computeHash text rng = Ok (h, rng) /\
            length h = 44%nat /\ last h = Some 61 /\
            base64ToBuffer h = Ok (sha256 (TextEncoder_encode text)).
Proof.
  set (d := sha256 (TextEncoder_encode text)).
  assert (Hl : length d = 32%nat) by apply sha256_length.
  assert (Hb : is_bytes d = true) by apply sha256_bytes.
  exists (base64_encode d). split; [|split; [|split]].
  - unfold computeHash. fold d.
    apply lift_ok, bufferToBase64_bytes; [done | apply fits_small; lia].
  - by rewrite length_base64_encode, Hl.
  - unfold base64_encode, padding. rewrite Hl.
    change (32 mod 3)%nat with 2%nat. cbv iota. by rewrite last_snoc.
  - by apply base64ToBuffer_encode.
Qed.

(** X23.  The stored form of a protected private key is checked on
    recovery: with one byte of the ciphertext altered [recoverPrivateKey]
    throws [OperationError], and with text that is no Base64 it throws
    the error of [atob]; in neither case does it return a key. *)
Theorem recover_rejects_altered_data k password salt rng :
  exists m data iv64 rng' ct,
    (forall r, deriveKeyFromPassword password salt r = Ok (m, r)) /\
    protectPrivateKey k m rng = Ok ((data, iv64), rng') /\
    base64ToBuffer data = Ok ct /\
    (forall r, recoverPrivateKey data m iv64 r = Ok (k, r)) /\
    (forall s' i b r,
       (i < length ct)%nat -> ct !! i <> Some b ->
       base64ToBuffer s' = Ok (<[i := b]> ct) ->
       recoverPrivateKey s' m iv64 r = Err OperationError) /\
    (forall s' e r,
       base64ToBuffer s' = Err e -> recoverPrivateKey s' m iv64 r = Err e).
Proof.
  destruct (deriveKeyFromPassword_key password salt) as (m & Hd & _ & Hm & _).
  set (nonce := (getRandomValues 12 rng).1).
  set (ct := aes_gcm_encrypt (aes_raw m) nonce (export_pkcs8 k)).
  assert (Hn : is_bytes nonce = true) by apply getRandomValues_bytes.
  assert (Hct : is_bytes ct = true).
  { apply aes_gcm_bytes; [done | done | apply pkcs8_bytes]. }
  assert (Hfit : fits ct).
  { apply fits_small. unfold ct. rewrite aes_gcm_length.
    pose proof (pkcs8_length k). lia. }
  exists m, (base64_encode ct), (base64_encode nonce), (getRandomValues 12 rng).2, ct.
  split; [exact Hd|]. split; [|split; [by apply base64ToBuffer_encode|split; [|split]]].
  - unfold protectPrivateKey, fresh_iv.
    erewrite bind_ok; [|by rewrite (surjective_pairing (getRandomValues 12 rng))].
    erewrite bind_ok; [|by apply lift_ok, bufferToBase64_bytes].
    erewrite bind_ok.
    2:{ apply lift_ok, bufferToBase64_bytes; [done | apply fits_nonce; lia]. }
    done.
  - intros r. unfold recoverPrivateKey.
    erewrite bind_ok; [|by apply lift_ok, base64ToBuffer_encode].
    erewrite bind_ok; [|by apply lift_ok, base64ToBuffer_encode].
    unfold ct. rewrite aes_gcm_correct. cbn [orThrow].
    erewrite bind_ok; [|reflexivity].
    by rewrite pkcs8_roundtrip.
  - intros s' i b r Hi Hb Hs'. unfold recoverPrivateKey.
    erewrite bind_ok; [|by apply lift_ok, base64ToBuffer_encode].
    erewrite bind_ok; [|by apply lift_ok, Hs'].
    unfold ct. rewrite aes_gcm_authentic; [done | apply pkcs8_bytes | | done | done].
    by eapply altered_byte.
  - intros s' e r Hs'. unfold recoverPrivateKey.
    erewrite bind_ok; [|by apply lift_ok, base64ToBuffer_encode].
    erewrite bind_err; [done|]. unfold lift. by rewrite Hs'.
Qed.

Lemma seal_fields inputText sender recipient id now rng msg rng' :
  seal inputText sender recipient id now rng = Ok (msg, rng') ->
  mid msg = id /\ senderId msg = username sender /\
  recipientId msg = username recipient /\ isGroup msg = false /\
  hmac msg = js "GCM-SECURE" /\ timestamp msg = now.
Proof.
  unfold seal. intros E.
  apply bind_inv in E as (key & r1 & _ & E).
  apply bind_inv in E as (sealed & r2 & _ & E).
  apply bind_inv in E as (wrapped & r3 & _ & E).
  injection E as <- _. done.
Qed.

Lemma trim_all_white s : all_white s = true -> trim s = [].
Proof.
  intros Hs. unfold trim. by rewrite trimStart_all_white.
Qed.

(** X24.  [sendMessage] does nothing on input that is blank after
    trimming, without a recipient or without a signed-in user.  An
    envelope that it dispatches names the signed-in user as sender and the
    chosen recipient, has the given id and time, is no group message and
    carries the label ['GCM-SECURE'] in [hmac]. *)
Theorem sendMessage_guard inputText activeRecipient authUser id now rng :
  (all_white inputText = true ->
     sendMessage inputText activeRecipient authUser id now rng = NotSent) /\
  sendMessage inputText None authUser id now rng = NotSent /\
  sendMessage inputText activeRecipient None id now rng = NotSent /\
  (forall msg,
     sendMessage inputText activeRecipient authUser id now rng = Dispatched msg ->
     trim inputText <> [] /\
     exists recipient user,
       activeRecipient = Some recipient /\ authUser = Some user /\
       mid msg = id /\ senderId msg = username user /\
       recipientId msg = username recipient /\ isGroup msg = false /\
       hmac msg = js "GCM-SECURE" /\ timestamp msg = now).
Proof.
  unfold sendMessage. split; [|split; [|split]].
  - intros Hw. by rewrite trim_all_white.
  - by destruct (trim inputText).
  - destruct (trim inputText); [done|]. by destruct activeRecipient.
  - intros msg. destruct (trim inputText) as [|c t]; [done|].
    destruct activeRecipient as [recipient|]; [|done].
    destruct authUser as [user|]; [|done].
    destruct (seal inputText user recipient id now rng) as [[m r]|e] eqn:E; [|done].
    intros [= ->]. split; [done|]. exists recipient, user.
    split; [done|]. split; [done|]. by eapply seal_fields.
Qed.

(** X25.  When the public key of the recipient is no Base64 text, the
    exception of the crypto layer is caught: [sendMessage] dispatches
    nothing. *)
Theorem sendMessage_bad_public_key inputText recipient user id now rng e :
  trim inputText <> [] -> is_string inputText = true ->
  base64ToBuffer (publicKey recipient) = Err e ->
  sendMessage inputText (Some recipient) (Some user) id now rng = EncryptionLayerError.
Proof.
  intros Ht Hs Hpk. unfold sendMessage.
  destruct (trim inputText) as [|c t]; [done|].
  assert (E : exists e', seal inputText user recipient id now rng = Err e').
  { destruct (N.le_gt_cases (N.of_nat (length (TextEncoder_encode inputText)) + 16)
                max_arguments) as [Hf|Hf].
    - exists e. unfold seal.
      erewrite bind_ok.
      2:{ unfold generateAESKey. by rewrite (surjective_pairing (getRandomValues 32 rng)). }
      erewrite bind_ok;
        [|apply encryptWithAES_ok; [done | apply getRandomValues_bytes | exact Hf]].
      erewrite bind_err; [done|].
      unfold encryptKeyWithRSA. erewrite bind_err; [done|].
      unfold lift. by rewrite Hpk.
    - exists RangeError. apply seal_too_long. unfold sendable. lia. }
  destruct E as [e' E]. by rewrite E.
Qed.

(** What a receive outcome shows of the message: nothing, the plaintext,
    or the violation. *)
Definition shown (o : ReceiveOutcome) : option (option jsstring) :=
  match o with
  | Ignored => None
  | Delivered _ text => Some (Some text)
  | IntegrityViolation => Some None
  end.

(** X26.  The receive side reads [encryptedSessionKey], [encryptedContent]
    and [iv] only.  Two envelopes that agree on these are treated alike,
    whatever their [senderId], [recipientId], [id], [timestamp], [isGroup]
    and [hmac] say: the sender named in an envelope is not authenticated. *)
Theorem receiveChat_reads_three_fields privateKey m m' rng :
  encryptedSessionKey m' = encryptedSessionKey m ->
  encryptedContent m' = encryptedContent m -> iv m' = iv m ->
  shown (receiveChat privateKey m' rng) = shown (receiveChat privateKey m rng).
Proof.
  intros E1 E2 E3. unfold receiveChat. destruct privateKey as [sk|]; [|done].
  rewrite E1, E2, E3. by destruct (bind _ _ rng) as [[text rng']|e].
Qed.

End CryptoFacts.

(** A session key from [dice]. *)
Definition session_key : AesKey :=
  {| aes_raw := (getRandomValues 32 dice).1; aes_extractable := true |}.

Lemma encrypt_decrypt_AES_witness :
  (exists ciphertext iv64 rng',
     encryptWithAES (js "hello") session_key dice = Ok ((ciphertext, iv64), rng') /\
     forall key' rng2, aes_raw key' = aes_raw session_key ->
       decryptWithAES ciphertext key' iv64 rng2 = Ok (strip_bom (js "hello"), rng2)) /\
  encryptWithAES long_text session_key dice = Err RangeError.
Proof.
  split.
  - exact (proj1 (encrypt_decrypt_AES (js "hello") session_key dice eq_refl eq_refl
                    (getRandomValues_bytes 32 dice)) hello_sendable).
  - exact (proj2 (encrypt_decrypt_AES long_text session_key dice
                    (proj1 long_text_string) (proj2 long_text_string)
                    (getRandomValues_bytes 32 dice)) long_text_too_long).
Defined.

(** A registry record whose public key is no Base64 text. *)
Definition mallory : User :=
  {| uid := js "u7"; username := js "mallory"; publicKey := js "!" |}.

Lemma sendMessage_bad_public_key_witness :
  sendMessage (js "hello") (Some mallory) (Some erin) (js "m4") 1700000000000 dice
  = EncryptionLayerError.
Proof.
  apply (sendMessage_bad_public_key (js "hello") mallory erin (js "m4") 1700000000000
           dice InvalidCharacterError); [discriminate | reflexivity | reflexivity].
Defined.

(** [hello] with another sender, id and time. *)
Definition forged : EncryptedMessage :=
  {| mid := js "m9"; senderId := js "Mallory"; recipientId := js "Bob";
     isGroup := true; encryptedContent := encryptedContent hello;
     encryptedSessionKey := encryptedSessionKey hello; iv := iv hello;
     hmac := js "none"; timestamp := 0 |}.

Lemma receiveChat_reads_three_fields_witness :
  shown (receiveChat (Some frank_key) forged dice)
  = shown (receiveChat (Some frank_key) hello dice).
Proof.
  exact (receiveChat_reads_three_fields (Some frank_key) hello forged dice
           eq_refl eq_refl eq_refl).
Defined.

(* ===================================================================== *)
(** ** The identity registry ([apiService]) *)
(* ===================================================================== *)

From Stdlib Require DecimalString.

(** A record of the registry, as [register] writes it and as the cloud
    registry returns it.  A record without [username] behaves like one
    whose [username] is empty: both are falsy. *)
Record Identity := {
  reg_id : jsstring;
  reg_username : jsstring;
  reg_publicKey : jsstring;
  reg_encryptedPriv : jsstring;
  reg_privIv : jsstring;
  reg_passwordHash : jsstring;
  reg_createdAt : N
}.

(** The messages of the errors that the service throws. *)
Inductive ApiError := IDENTITY_EXISTS | NOT_FOUND.

(** [map.set(k, v)] on a [Map], kept in insertion order: the value of a
    present key is replaced where it stands, a new key goes to the end. *)
Fixpoint map_set (k : jsstring) (v : Identity) (m : list (jsstring * Identity))
  : list (jsstring * Identity) :=
  match m with
  | [] => [(k, v)]
  | (k', v') :: m' =>
      if decide (k = k') then (k, v) :: m' else (k', v') :: map_set k v m'
  end.

(** [`${n}`] for a number that is a natural. *)
Definition decimal (n : N) : jsstring :=
  js (DecimalString.NilZero.string_of_uint (N.to_uint n)).

Section Registry.
Context `{CaseMapping}.

(** [u.username.toLowerCase().trim()] *)
Definition vault_key (u : Identity) : jsstring := trim (toLowerCase (reg_username u)).

(** The body of the [forEach] of [getAllUsersInternal]. *)
Definition merge_step (m : list (jsstring * Identity)) (u : Identity)
  : list (jsstring * Identity) :=
  match reg_username u with
  | [] => m
  | _ :: _ => map_set (vault_key u) u m
  end.

(** [getAllUsersInternal]: [cloud] is the answer of the cloud registry,
    [None] when the request failed; [vault] is the list kept in
    [localStorage], empty when the item is missing. *)
Definition getAllUsersInternal (cloud : option (list Identity)) (vault : list Identity)
  : list Identity :=
  let cloudUsers := default [] cloud in
  map snd (fold_left merge_step (vault ++ cloudUsers) []).

(** [allUsers.find(u => u.username.toLowerCase().trim() === normalizedInput)] *)
Definition find_user (normalizedInput : jsstring) (allUsers : list Identity)
  : option Identity :=
  List.find (fun u => bool_decide (vault_key u = normalizedInput)) allUsers.

(** [register]: [post] is the id that the cloud registry assigned, [None]
    when the request failed; [now1] and [now2] are the two readings of the
    clock.  The result is the error thrown, or the entry returned together
    with the list written to [localStorage]. *)
Definition register (user : User) (passwordHash encryptedPriv privIv : jsstring)
  (cloud : option (list Identity)) (post : option jsstring) (now1 now2 : N)
  (vault : list Identity) : ApiError + Identity * list Identity :=
  let normalizedInput := toLowerCase (trim (username user)) in
  match find_user normalizedInput (getAllUsersInternal cloud vault) with
  | Some _ => inl IDENTITY_EXISTS
  | None =>
      let cloudId := default [] post in
      let localEntry :=
        {| reg_id := match cloudId with
                     | [] => js "local_" ++ decimal now2
                     | _ :: _ => cloudId
                     end;
           reg_username := trim (username user);
           reg_publicKey := publicKey user;
           reg_encryptedPriv := encryptedPriv;
           reg_privIv := privIv;
           reg_passwordHash := passwordHash;
           reg_createdAt := now1 |} in
      inr (localEntry, vault ++ [localEntry])
  end.

Definition login (username : jsstring) (cloud : option (list Identity))
  (vault : list Identity) : ApiError + Identity :=
  let normalizedInput := toLowerCase (trim username) in
  match find_user normalizedInput (getAllUsersInternal cloud vault) with
  | Some user => inr user
  | None => inl NOT_FOUND
  end.

Definition getUsers (cloud : option (list Identity)) (vault : list Identity) : list User :=
  map (fun u => {| uid := reg_id u; username := reg_username u;
                   publicKey := reg_publicKey u |})
      (getAllUsersInternal cloud vault).

(** *** The merged list *)

(** The record has a name, and its key is [k]. *)
Definition hit (k : jsstring) (u : Identity) : bool :=
  match reg_username u with
  | [] => false
  | _ :: _ => bool_decide (vault_key u = k)
  end.

Definition assoc (k : jsstring) (m : list (jsstring * Identity)) : option Identity :=
  snd <$> List.find (fun e => bool_decide (e.1 = k)) m.

Lemma assoc_map_set_eq k v m : assoc k (map_set k v m) = Some v.
Proof.
  unfold assoc. induction m as [|[k' v'] m IH]; cbn [map_set List.find fst].
  - by rewrite bool_decide_eq_true_2.
  - destruct (decide (k = k')) as [->|Hne]; cbn [List.find fst].
    + by rewrite bool_decide_eq_true_2.
    + rewrite bool_decide_eq_false_2 by congruence. exact IH.
Qed.

Lemma assoc_map_set_ne k k' v m : k' <> k -> assoc k' (map_set k v m) = assoc k' m.
Proof.
  intros Hne. unfold assoc. induction m as [|[k0 v0] m IH]; cbn [map_set List.find fst].
  - by rewrite bool_decide_eq_false_2 by congruence.
  - destruct (decide (k = k0)) as [->|Hk]; cbn [List.find fst].
    + by rewrite !bool_decide_eq_false_2 by congruence.
    + destruct (bool_decide (k0 = k')); [done | exact IH].
Qed.

Lemma find_snoc {A} (f : A -> bool) l x :
  List.find f (l ++ [x])
  = match List.find f l with Some y => Some y | None => if f x then Some x else None end.
Proof.
  induction l as [|a l IH]; cbn [app List.find]; [done|].
  by destruct (f a).
Qed.

Lemma find_app_first {A} (f : A -> bool) l l' :
  List.find f (l ++ l')
  = match List.find f l with Some y => Some y | None => List.find f l' end.
Proof.
  induction l as [|a l IH]; cbn [app List.find]; [done|].
  by destruct (f a).
Qed.

Lemma assoc_merge_step k m u :
  assoc k (merge_step m u) = if hit k u then Some u else assoc k m.
Proof.
  unfold merge_step, hit. destruct (reg_username u) as [|c s]; [done|].
  destruct (decide (vault_key u = k)) as [<-|Hne].
  - rewrite bool_decide_eq_true_2 by done. apply assoc_map_set_eq.
  - rewrite bool_decide_eq_false_2 by done. by apply assoc_map_set_ne.
Qed.

(** The value under a key after the [forEach]: the last named record with
    that key. *)
Lemma assoc_fold k l m :
  assoc k (fold_left merge_step l m)
  = match List.find (hit k) (rev l) with
    | Some u => Some u
    | None => assoc k m
    end.
Proof.
  revert m. induction l as [|u l IH]; intros m; cbn [fold_left rev]; [done|].
  rewrite IH, find_snoc, assoc_merge_step.
  destruct (List.find (hit k) (rev l)); [done|]. by destruct (hit k u).
Qed.

(** Every entry of the map stands under the key of its record, which has
    a name and comes from the list. *)
Definition keyed (l : list Identity) (m : list (jsstring * Identity)) : Prop :=
  NoDup (map fst m) /\
  forall k v, In (k, v) m -> k = vault_key v /\ reg_username v <> [] /\ In v l.

Lemma map_set_In k v m k' v' :
  In (k', v') (map_set k v m) -> (k', v') = (k, v) \/ In (k', v') m.
Proof.
  induction m as [|[k0 v0] m IH]; cbn [map_set].
  - intros [E|[]]. by left.
  - destruct (decide (k = k0)) as [->|Hne].
    + intros [E|Hin]; [by left | right; by right].
    + intros [E|Hin]; [right; by left|].
      destruct (IH Hin) as [E|Hin']; [by left | right; by right].
Qed.

Lemma map_set_keys k v m :
  map fst (map_set k v m)
  = if bool_decide (k ∈ map fst m) then map fst m else map fst m ++ [k].
Proof.
  induction m as [|[k0 v0] m IH]; cbn [map_set map fst app].
  - by rewrite bool_decide_eq_false_2 by (by intros ?%elem_of_nil).
  - destruct (decide (k = k0)) as [->|Hne].
    + by rewrite bool_decide_eq_true_2 by (by left).
    + cbn [map fst]. rewrite IH.
      destruct (decide (k ∈ map fst m)) as [Hin|Hin].
      * by rewrite !bool_decide_eq_true_2 by (done || by right).
      * rewrite !bool_decide_eq_false_2; [done | | done].
        intros [E|Hin']%elem_of_cons; [congruence | done].
Qed.

Lemma keyed_merge_step l m u : keyed l m -> In u l -> keyed l (merge_step m u).
Proof.
  intros [Hn Hm] Hu. unfold merge_step.
  destruct (reg_username u) as [|c s] eqn:E; [done|]. split.
  - rewrite map_set_keys.
    destruct (decide (vault_key u ∈ map fst m)) as [Hin|Hin].
    + by rewrite bool_decide_eq_true_2.
    + rewrite bool_decide_eq_false_2 by done.
      apply NoDup_app. split; [done|]. split; [|apply NoDup_singleton].
      by intros x Hx ->%list_elem_of_singleton.
  - intros k v Hin. apply map_set_In in Hin as [[= -> ->]|Hin]; [|by apply Hm].
    split; [done|]. split; [by rewrite E | done].
Qed.

Lemma keyed_fold l l' m :
  keyed l m -> (forall u, In u l' -> In u l) -> keyed l (fold_left merge_step l' m).
Proof.
  revert m. induction l' as [|u l' IH]; intros m Hm Hsub; cbn [fold_left]; [done|].
  apply IH.
  - apply keyed_merge_step; [done | apply Hsub; by left].
  - intros v Hv. apply Hsub. by right.
Qed.

Lemma find_user_keyed l k m : keyed l m -> find_user k (map snd m) = assoc k m.
Proof.
  intros [_ Hm]. unfold find_user, assoc.
  induction m as [|[k0 v0] m IH]; cbn [map snd List.find fst]; [done|].
  destruct (Hm k0 v0 (or_introl eq_refl)) as [-> _].
  destruct (bool_decide (vault_key v0 = k)); [done|].
  apply IH. intros k' v' Hin. apply Hm. by right.
Qed.

Lemma merged_keyed cloud vault :
  keyed (vault ++ default [] cloud)
        (fold_left merge_step (vault ++ default [] cloud) []).
Proof.
  apply keyed_fold; [|done]. split; [constructor | intros k v []].
Qed.

(** Looking a name up in the merged list finds the last named record
    with that key: a cloud record before a local one, a later before an
    earlier one. *)
Lemma find_user_merged k cloud vault :
  find_user k (getAllUsersInternal cloud vault)
  = List.find (hit k) (rev (vault ++ default [] cloud)).
Proof.
  unfold getAllUsersInternal.
  rewrite (find_user_keyed _ k _ (merged_keyed cloud vault)).
  rewrite assoc_fold. by destruct (List.find _ _).
Qed.

(** X27.  [login] returns the last record among the local ones followed
    by the cloud ones whose name is non-empty and has the key of the name
    asked for, or throws [NOT_FOUND] when there is none: a cloud record
    takes the place of a local record of the same name. *)
Theorem login_finds_last_record name cloud vault :
  login name cloud vault
  = match List.find (hit (normalize name)) (rev (vault ++ default [] cloud)) with
    | Some user => inr user
    | None => inl NOT_FOUND
    end.
Proof. unfold login. by rewrite find_user_merged. Qed.

Lemma find_none_existsb {A} (f : A -> bool) l :
  List.find f l = None <-> existsb f l = false.
Proof.
  induction l as [|a l IH]; cbn [List.find existsb]; [done|].
  destruct (f a); [split; discriminate | exact IH].
Qed.

Lemma existsb_rev' {A} (f : A -> bool) l : existsb f (rev l) = existsb f l.
Proof.
  induction l as [|a l IH]; cbn [rev existsb]; [done|].
  rewrite existsb_app, IH. cbn [existsb]. rewrite orb_false_r. apply orb_comm.
Qed.

(** X28.  [register] throws [IDENTITY_EXISTS] exactly when a named record
    with the key of the new name is known locally or to the cloud.
    Otherwise it appends one entry to the local list, whatever the cloud
    answered to the request: the entry holds the trimmed name, the public
    key, the protected private key, its nonce and the password hash as
    given, and a non-empty id. *)
Theorem register_outcome user passwordHash encryptedPriv privIv cloud post now1 now2 vault :
  let known :=
    existsb (hit (normalize (username user))) (vault ++ default [] cloud) in
  match register user passwordHash encryptedPriv privIv cloud post now1 now2 vault with
  | inl e => e = IDENTITY_EXISTS /\ known = true
  | inr (entry, vault') =>
      known = false /\ vault' = vault ++ [entry] /\
      reg_username entry = trim (username user) /\
      reg_publicKey entry = publicKey user /\
      reg_encryptedPriv entry = encryptedPriv /\ reg_privIv entry = privIv /\
      reg_passwordHash entry = passwordHash /\ reg_id entry <> []
  end.
Proof.
  intros known. subst known. unfold register. rewrite find_user_merged.
  fold (normalize (username user)).
  destruct (List.find _ _) as [u|] eqn:E.
  - split; [done|]. rewrite <- existsb_rev'.
    destruct (existsb _ _) eqn:Ex; [done|].
    apply find_none_existsb in Ex. congruence.
  - apply find_none_existsb in E. rewrite existsb_rev' in E.
    split; [exact E|]. repeat (split; [reflexivity|]).
    cbn [reg_id]. by destruct (default [] post).
Qed.

Lemma register_shape user passwordHash encryptedPriv privIv cloud post now1 now2
    vault entry vault' :
  register user passwordHash encryptedPriv privIv cloud post now1 now2 vault
  = inr (entry, vault') ->
  vault' = vault ++ [entry] /\ reg_username entry = trim (username user).
Proof.
  unfold register. destruct (find_user _ _); [done|].
  intros [= <- <-]. done.
Qed.

(** X29.  After a successful [register] of a non-blank name, [login] with
    any spelling of that name finds a record with the key of the name,
    whatever the cloud answers then; it is the entry that [register]
    wrote unless the cloud answers with a record of that name. *)
Theorem register_then_login user passwordHash encryptedPriv privIv cloud post now1 now2
    vault entry vault' cloud2 spelling :
  register user passwordHash encryptedPriv privIv cloud post now1 now2 vault
  = inr (entry, vault') ->
  trim (username user) <> [] ->
  normalize spelling = normalize (username user) ->
  exists found,
    login spelling cloud2 vault' = inr found /\
    vault_key found = normalize (username user) /\
    (existsb (hit (normalize (username user))) (default [] cloud2) = false ->
     found = entry).
Proof.
  intros Hreg Hname Hsp.
  pose proof (register_shape user passwordHash encryptedPriv privIv cloud post
                now1 now2 vault entry vault' Hreg) as (-> & Hu).
  assert (Hhit : hit (normalize (username user)) entry = true).
  { unfold hit, vault_key. rewrite Hu.
    destruct (trim (username user)) as [|c s] eqn:E; [done|]. rewrite <- E.
    apply bool_decide_eq_true_2. unfold normalize.
    apply toLowerCase_trimmed, trim_idem. }
  unfold login. rewrite find_user_merged. fold (normalize spelling). rewrite Hsp.
  rewrite rev_app_distr, rev_app_distr. cbn [rev app].
  rewrite find_app_first. cbn [List.find]. rewrite Hhit.
  destruct (List.find _ (rev (default [] cloud2))) as [u|] eqn:E.
  - exists u. split; [done|]. split.
    + apply find_some in E as [_ Hh]. unfold hit in Hh.
      destruct (reg_username u); [done|]. by apply bool_decide_eq_true_1 in Hh.
    + intros Hex. rewrite <- existsb_rev' in Hex.
      apply find_none_existsb in Hex. congruence.
  - exists entry. split; [done|]. split; [|done].
    unfold hit in Hhit. destruct (reg_username entry); [done|].
    by apply bool_decide_eq_true_1 in Hhit.
Qed.

(** X30.  The list that [getAllUsersInternal] returns, and so the list of
    [getUsers], holds no two records with the same key; every record of
    it has a name and comes from the local list or from the cloud; and
    every named record of either is represented by one with its key. *)
Theorem getAllUsersInternal_distinct cloud vault :
  NoDup (map vault_key (getAllUsersInternal cloud vault)) /\
  NoDup (map (fun u : User => trim (toLowerCase (username u))) (getUsers cloud vault)) /\
  (forall u, In u (getAllUsersInternal cloud vault) ->
             In u (vault ++ default [] cloud) /\ reg_username u <> []) /\
  (forall u, In u (vault ++ default [] cloud) -> reg_username u <> [] ->
             exists v, In v (getAllUsersInternal cloud vault) /\ vault_key v = vault_key u).
Proof.
  pose proof (merged_keyed cloud vault) as Hk.
  unfold getUsers, getAllUsersInternal.
  set (m := fold_left merge_step (vault ++ default [] cloud) []) in *.
  destruct Hk as [Hn Hm].
  assert (Hkeys : map vault_key (map snd m) = map fst m).
  { clear Hn. induction m as [|[k v] m IH]; cbn [map fst snd]; [done|].
    destruct (Hm k v (or_introl eq_refl)) as [-> _]. f_equal.
    apply IH. intros k' v' Hin. apply Hm. by right. }
  split; [by rewrite Hkeys|]. split; [|split].
  - rewrite map_map. cbn [username]. fold vault_key.
    change (map (fun x => trim (toLowerCase (reg_username x))) (map snd m))
      with (map vault_key (map snd m)).
    by rewrite Hkeys.
  - intros u Hu. apply in_map_iff in Hu as ([k v] & <- & Hin).
    destruct (Hm k v Hin) as (_ & Hv & Hl). done.
  - intros u Hu Hname.
    pose proof (find_user_merged (vault_key u) cloud vault) as Hf.
    unfold getAllUsersInternal in Hf. fold m in Hf.
    destruct (List.find (hit (vault_key u)) (rev (vault ++ default [] cloud)))
      as [v|] eqn:E.
    + apply find_some in Hf as [Hin Hv]. exists v. split; [done|].
      by apply bool_decide_eq_true_1 in Hv.
    + exfalso. apply find_none_existsb in E. rewrite existsb_rev' in E.
      assert (Ht : existsb (hit (vault_key u)) (vault ++ default [] cloud) = true).
      { apply existsb_exists. exists u. split; [done|]. unfold hit.
        destruct (reg_username u); [done|]. by apply bool_decide_eq_true_2. }
      congruence.
Qed.

End Registry.

(** Carol registers while the cloud registry is unreachable. *)
Definition carol : User :=
  {| uid := []; username := js " Carol "; publicKey := js "pkC" |}.

Definition carol_entry : Identity :=
  {| reg_id := js "local_1700000000001"; reg_username := js "Carol";
     reg_publicKey := js "pkC"; reg_encryptedPriv := js "c2VhbGVk";
     reg_privIv := js "bm9uY2U="; reg_passwordHash := js "aGFzaA==";
     reg_createdAt := 1700000000000 |}.

Lemma carol_registers :
  register carol (js "aGFzaA==") (js "c2VhbGVk") (js "bm9uY2U=") None None
    1700000000000 1700000000001 []
  = inr (carol_entry, [carol_entry]).
Proof. vm_compute. reflexivity. Qed.

Lemma register_then_login_witness :
  exists found,
    login (js "CAROL") (Some []) [carol_entry] = inr found /\
    vault_key found = normalize (username carol) /\
    (existsb (hit (normalize (username carol))) (default [] (Some [])) = false ->
     found = carol_entry).
Proof.
  refine (register_then_login carol _ _ _ None None _ _ [] carol_entry [carol_entry]
            (Some []) (js "CAROL") carol_registers _ eq_refl).
  discriminate.
Defined.

(* ===================================================================== *)
(** ** Text that is not well formed *)
(* ===================================================================== *)

(** X16.  What the pair [TextEncoder], [TextDecoder] of [encryptWithAES]
    and [decryptWithAES] returns for any string at all: its sequence of
    scalar values, in which every unpaired surrogate has become U+FFFD,
    without a leading U+FEFF, as UTF-16. *)
Theorem text_codec_any_string s :
  is_string s = true ->
  TextDecoder_decode (TextEncoder_encode s)
  = flat_map utf16_encode (drop_bom (code_points s)).
Proof.
  intros Hs. unfold TextDecoder_decode, TextEncoder_encode.
  by rewrite utf8_decode_flat by (by apply code_points_scalar).
Qed.

Lemma text_codec_any_string_witness :
  TextDecoder_decode (TextEncoder_encode [104; 0xD800; 105])
  = flat_map utf16_encode (drop_bom (code_points [104; 0xD800; 105])).
Proof. exact (text_codec_any_string [104; 0xD800; 105] eq_refl). Defined.

Example lone_surrogate_replaced :
  TextDecoder_decode (TextEncoder_encode [104; 0xD800; 105]) = [104; 0xFFFD; 105].
Proof. reflexivity. Qed.
